(** * beets-frontend-v2: alert registry, user-pools query, backend client

    A shallow embedding of three source files and the properties the
    specification states about them:

    - [src/composables/useAlerts.ts]                       (module [Alerts])
    - [src/composables/queries/useUserPoolsQuery.ts]       (module [UserPools])
    - [src/beethovenx/services/beethovenx/beethovenx.service.ts]
                                                           (module [Beethovenx])

    Part I holds the definitions, Part II the lemmas and theorems for the
    specification's statements, Part III further properties of the code. *)

From Stdlib Require Import Ascii String QArith Qcanon.
From stdpp Require Import base option list strings numbers sorting gmap fin_maps.

Local Open Scope string_scope.
Local Open Scope Z_scope.
Local Open Scope list_scope.

(** * Part I: definitions *)

(** ** JavaScript values the code relies on *)

Module Js.

(** [String.prototype.toLowerCase], on the ASCII range: the strings the code
    lowercases are hexadecimal addresses. *)
Definition lowerChar (c : ascii) : ascii :=
  let n := N_of_ascii c in
  if ((65 <=? n) && (n <=? 90))%N then ascii_of_N (n + 32) else c.

Fixpoint toLowerCase (s : string) : string :=
  match s with
  | EmptyString => EmptyString
  | String c r => String (lowerChar c) (toLowerCase r)
  end.

(** What a function call ends in: a value, or a thrown error. *)
Inductive Error : Type :=
| TypeError        (* reading a property of undefined or null *)
| InvalidAddress.  (* ethers' getAddress on a malformed address *)

Inductive Completion (A : Type) : Type :=
| Return (a : A)
| Throw (e : Error).
Arguments Return {A} a.
Arguments Throw {A} e.

Definition bind {A B} (c : Completion A) (k : A → Completion B) : Completion B :=
  match c with
  | Return a => k a
  | Throw e => Throw e
  end.

(** [forEach] / [map] with a callback that may throw: left to right, the
    first throw ends the loop. *)
Fixpoint mapC {A B} (f : A → Completion B) (l : list A) : Completion (list B) :=
  match l with
  | [] => Return []
  | x :: r => bind (f x) (fun y => bind (mapC f r) (fun ys => Return (y :: ys)))
  end.

Fixpoint foldC {A S} (f : S → A → Completion S) (l : list A) (s : S) : Completion S :=
  match l with
  | [] => Return s
  | x :: r => bind (f s x) (foldC f r)
  end.

(** [arr[i]] on an array read as a list: [undefined] outside [0 .. length-1]. *)
Definition index {A} (l : list A) (i : Z) : option A :=
  if i <? 0 then None else l !! Z.to_nat i.

(** [Array.prototype.indexOf] with strict equality on strings: the first
    position, or [-1]. *)
Fixpoint indexOfFrom (l : list string) (x : string) (i : Z) : Z :=
  match l with
  | [] => -1
  | y :: r => if decide (y = x) then i else indexOfFrom r x (i + 1)
  end.

Definition indexOf (l : list string) (x : string) : Z := indexOfFrom l x 0.

(** The objects of an array that a filter picked: [picked] says, position by
    position, which ones. The filtered array holds the objects themselves, so
    reading it later yields them as they are then. *)
Definition pick {A} (picked : list bool) (l : list A) : list A :=
  (filter (fun bx => bx.1 = true) (zip picked l)).*2.

(** An array written by index, [arr[i] = v]: a map from integer keys to
    values. A write past the end leaves holes, a write at [-1] makes a
    property named [-1]; both are entries of the map. *)
Abbreviation Array := (gmap Z string).

(** *** Plain objects used as string-keyed records

    The own properties in enumeration order: array-index keys ascending,
    then the other keys in insertion order. The keys are names of own
    properties. *)
Abbreviation Object V := (list (string * V)).

Definition digit (c : ascii) : option N :=
  let n := N_of_ascii c in
  if ((48 <=? n) && (n <=? 57))%N then Some (n - 48)%N else None.

Fixpoint digits (s : string) (acc : N) : option N :=
  match s with
  | EmptyString => Some acc
  | String c r =>
      match digit c with
      | Some d => digits r (10 * acc + d)%N
      | None => None
      end
  end.

(** A key is an array index when it is the canonical decimal form of an
    integer below [2^32 - 1]. *)
Definition arrayIndex (k : string) : option N :=
  match k with
  | EmptyString => None
  | String c r =>
      if decide (c = "0"%char)
      then match r with EmptyString => Some 0%N | _ => None end
      else match digits k 0 with
           | Some n => if (n <? 4294967295)%N then Some n else None
           | None => None
           end
  end.

Section Object.
Context {V : Type}.

Fixpoint get (o : Object V) (k : string) : option V :=
  match o with
  | [] => None
  | (k', v) :: r => if decide (k' = k) then Some v else get r k
  end.

Definition has (o : Object V) (k : string) : bool :=
  if get o k is Some _ then true else false.

Fixpoint replace (o : Object V) (k : string) (v : V) : Object V :=
  match o with
  | [] => []
  | (k', v') :: r =>
      if decide (k' = k) then (k, v) :: r else (k', v') :: replace r k v
  end.

(** Where a new array-index key [n] goes: before the first key that is a
    larger index or no index at all. *)
Fixpoint addIndex (o : Object V) (n : N) (k : string) (v : V) : Object V :=
  match o with
  | [] => [(k, v)]
  | (k', v') :: r =>
      match arrayIndex k' with
      | Some n' =>
          if (n <? n')%N then (k, v) :: o else (k', v') :: addIndex r n k v
      | None => (k, v) :: o
      end
  end.

Definition add (o : Object V) (k : string) (v : V) : Object V :=
  match arrayIndex k with
  | Some n => addIndex o n k v
  | None => o ++ [(k, v)]
  end.

(** [o[k] = v]: an own property is overwritten where it stands, and a new
    key is added. The key [__proto__], when it names no own property,
    reaches the setter that [Object.prototype] holds under this name: the
    assignment then changes the prototype of [o], or does nothing for a
    [v] that is no object, and adds no property either way. *)
Definition set (o : Object V) (k : string) (v : V) : Object V :=
  if has o k then replace o k v
  else if decide (k = "__proto__") then o
  else add o k v.

(** [delete o[k]]. *)
Definition remove (o : Object V) (k : string) : Object V :=
  filter (fun kv => kv.1 ≠ k) o.

Definition keys (o : Object V) : list string := o.*1.
Definition values (o : Object V) : list V := o.*2.
End Object.

End Js.

(** ** lodash *)

Module Lodash.

(** [compareAscending] on a sort key that is a number or [undefined]:
    [undefined] compares above every number. *)
Definition compareAscending (value other : option Z) : comparison :=
  match value, other with
  | Some a, Some b => a ?= b
  | None, Some _ => Gt
  | Some _, None => Lt
  | None, None => Eq
  end.

(** [k1] is not below [k2] in that order. *)
Definition keyGe (k1 k2 : option Z) : Prop := compareAscending k2 k1 ≠ Gt.

Inductive Order : Type := asc | desc.

(** [compareMultiple] for one criterion: the criterion's comparison, turned
    around for [desc]; equal criteria fall back to the original position. *)
Definition compareMultiple {A} (order : Order)
    (object other : option Z * nat * A) : comparison :=
  match compareAscending object.1.1 other.1.1 with
  | Eq => Nat.compare object.1.2 other.1.2
  | c => match order with desc => CompOpp c | asc => c end
  end.

(** [Array.prototype.sort(comparer)]; [comparer] above never answers 0 for
    two different positions, so the sorted array does not depend on the
    engine's algorithm. *)
Fixpoint insertBy {A} (cmp : A → A → comparison) (x : A) (l : list A) : list A :=
  match l with
  | [] => [x]
  | y :: r => match cmp x y with
              | Gt => y :: insertBy cmp x r
              | _ => x :: l
              end
  end.

Definition sortBy' {A} (cmp : A → A → comparison) (l : list A) : list A :=
  foldr (insertBy cmp) [] l.

(** [orderBy(collection, iteratee, order)] with a single iteratee. *)
Definition orderBy {A} (collection : list A) (iteratee : A → option Z)
    (order : Order) : list A :=
  let criteria := imap (fun i a => (iteratee a, i, a)) collection in
  (sortBy' (compareMultiple order) criteria).*2.

(** [keyBy(collection, iteratee)]: a later element replaces an earlier one
    with the same key. *)
Definition keyBy {A} (collection : list A) (iteratee : A → string) : gmap string A :=
  foldl (fun m a => <[iteratee a := a]> m) ∅ collection.

(** [flatten] of an array of arrays. *)
Definition flatten {A} (l : list (list A)) : list A := concat l.

End Lodash.

(** ** src/composables/useAlerts.ts *)

Module Alerts.

Inductive AlertType : Type := ERROR | INFO | FEATURE.

Inductive AlertPriority : Type := LOW | MEDIUM | HIGH.

(** The numeric value of the enum member. *)
Definition priorityValue (p : AlertPriority) : Z :=
  match p with LOW => 0 | MEDIUM => 1 | HIGH => 2 end.

(** The [action] callback, by name: the registry stores it and never calls it. *)
Inductive Callback : Type := callback (name : string).

Record Alert : Type := {
  id : string;
  priority : option AlertPriority;
  label : string;
  type : AlertType;
  actionLabel : option string;
  action : option Callback;
  actionOnClick : option bool;
  persistent : option bool
}.

Abbreviation State := (Js.Object Alert).

Definition alertsState : State :=
  [("v2-beta",
    {| id := "v2-beta";
       priority := Some LOW;
       label := "Explore our new UI at https://beta.beets.fi/. Beta now live.";
       type := FEATURE;
       actionLabel := Some "Check it out";
       action := Some (callback "window.location.href = 'https://beta.beets.fi'");
       actionOnClick := Some false;
       persistent := Some false |})].

(** The value of the property [priority]: a number, or [undefined]. *)
Definition priorityOf (a : Alert) : option Z := priorityValue <$> priority a.

Definition alerts (s : State) : list Alert :=
  Lodash.orderBy (Js.values s) priorityOf Lodash.desc.

Definition currentAlert (s : State) : option Alert :=
  match alerts s with
  | [] => None
  | a :: _ => Some a
  end.

(** [{ ...alert, priority: alert.priority ?? AlertPriority.LOW }] *)
Definition withPriority (alert : Alert) : Alert :=
  {| id := id alert;
     priority := Some (default LOW (priority alert));
     label := label alert;
     type := type alert;
     actionLabel := actionLabel alert;
     action := action alert;
     actionOnClick := actionOnClick alert;
     persistent := persistent alert |}.

Definition addAlert (alert : Alert) (s : State) : State :=
  Js.set s (id alert) (withPriority alert).

Definition removeAlert (alertId : string) (s : State) : State :=
  Js.remove s alertId.

Definition removeAllAlerts (s : State) : State := [].

(** The registry states that the module's functions lead to. *)
Inductive Reachable : State → Prop :=
| reach_start : Reachable alertsState
| reach_add alert s : Reachable s → Reachable (addAlert alert s)
| reach_remove alertId s : Reachable s → Reachable (removeAlert alertId s)
| reach_clear s : Reachable s → Reachable (removeAllAlerts s).

(** Descending priority: [a] may be listed before [b]. An alert without a
    priority is ordered as lodash orders [undefined] under ['desc'], before
    every alert that has one; [addAlert] stores none. *)
Definition priorityGe (a b : Alert) : Prop :=
  match priority a, priority b with
  | Some p, Some q => priorityValue q ≤ priorityValue p
  | None, _ => True
  | Some _, None => False
  end.

End Alerts.

(** ** bignumber.js, as [bnum] of [@/lib/utils] hands it out

    The subgraph delivers amounts as decimal strings; [bnum(s)] reads one into
    a BigNumber and [toString] writes a BigNumber back so that [bnum] reads the
    same value again. The model carries the BigNumber where the source carries
    its decimal string. Negative zero is not told apart from zero: [toString]
    prints both as ["0"], and only a division by it could tell, which the
    query applies to the subgraph's amounts alone. A finite value is a
    rational number; the library's limit on exponents (1e9) is not modelled. *)

Module BigNumber.

Inductive RoundingMode : Type :=
| ROUND_UP | ROUND_DOWN | ROUND_CEIL | ROUND_FLOOR
| ROUND_HALF_UP | ROUND_HALF_DOWN | ROUND_HALF_EVEN
| ROUND_HALF_CEIL | ROUND_HALF_FLOOR.

(** [BigNumber.config]: the settings a division reads. *)
Class Config : Type := {
  DECIMAL_PLACES : nat;
  ROUNDING_MODE : RoundingMode
}.

Inductive t : Type :=
| NaN
| Infinity (negative : bool)
| Finite (q : Qc).

(** [bnum(0)] *)
Definition zero : t := Finite 0%Qc.

(** The integer that [n / d] rounds to, for [0 < d]. *)
Definition roundQuotient (rm : RoundingMode) (n d : Z) : Z :=
  let q := n / d in
  let r := n mod d in
  if r =? 0 then q
  else match rm with
       | ROUND_UP => if 0 <? n then q + 1 else q
       | ROUND_DOWN => if 0 <? n then q else q + 1
       | ROUND_CEIL => q + 1
       | ROUND_FLOOR => q
       | _ =>
           match 2 * r ?= d with
           | Lt => q
           | Gt => q + 1
           | Eq =>
               match rm with
               | ROUND_HALF_UP => if 0 <? n then q + 1 else q
               | ROUND_HALF_DOWN => if 0 <? n then q else q + 1
               | ROUND_HALF_EVEN => if Z.even q then q else q + 1
               | ROUND_HALF_CEIL => q + 1
               | _ => q
               end
           end
       end.

(** Rounding to [dp] decimal places. *)
Definition round (dp : nat) (rm : RoundingMode) (x : Qc) : Qc :=
  let scale := 10 ^ Z.of_nat dp in
  Q2Qc (roundQuotient rm (Qnum x * scale) (Z.pos (Qden x)) # Z.to_pos scale).

Definition isNegative (q : Qc) : bool := bool_decide (q < 0)%Qc.

Definition isZero (q : Qc) : bool := bool_decide (q = 0%Qc).

(** [x.div(y)]: the quotient rounded to [DECIMAL_PLACES]. *)
Definition div `{Config} (x y : t) : t :=
  match x, y with
  | NaN, _ | _, NaN => NaN
  | Infinity _, Infinity _ => NaN
  | Infinity s, Finite b => Infinity (xorb s (isNegative b))
  | Finite _, Infinity _ => Finite 0%Qc
  | Finite a, Finite b =>
      if isZero b
      then if isZero a then NaN else Infinity (isNegative a)
      else Finite (round DECIMAL_PLACES ROUNDING_MODE (a / b)%Qc)
  end.

(** [x.times(y)]: exact. *)
Definition times (x y : t) : t :=
  match x, y with
  | NaN, _ | _, NaN => NaN
  | Infinity s, Infinity s' => Infinity (xorb s s')
  | Infinity s, Finite b =>
      if isZero b then NaN else Infinity (xorb s (isNegative b))
  | Finite a, Infinity s =>
      if isZero a then NaN else Infinity (xorb (isNegative a) s)
  | Finite a, Finite b => Finite (a * b)%Qc
  end.

(** [x.plus(y)]: exact. *)
Definition plus (x y : t) : t :=
  match x, y with
  | NaN, _ | _, NaN => NaN
  | Infinity s, Infinity s' => if Bool.eqb s s' then Infinity s else NaN
  | Infinity s, Finite _ | Finite _, Infinity s => Infinity s
  | Finite a, Finite b => Finite (a + b)%Qc
  end.

(** A number that is zero or above it. *)
Definition nonNegative (x : t) : Prop :=
  match x with
  | Finite q => (0 <= q)%Qc
  | Infinity negative => negative = false
  | NaN => False
  end.

Definition finite (x : t) : Prop :=
  match x with Finite _ => True | _ => False end.

(** A finite number above zero. *)
Definition positive (x : t) : Prop :=
  match x with Finite q => (0 < q)%Qc | _ => False end.

End BigNumber.

(** ** @ethersproject/address *)

Module Ethers.

(** [getAddress(address)]: the checksum-formatted address, or nothing when
    the call throws (the argument is not an address). *)
Class Address : Type := {
  getAddress : string → option string
}.

(** [isAddress]: whether [getAddress] goes through. *)
Definition isAddress `{Address} (address : string) : bool :=
  if getAddress address is Some _ then true else false.

(** [getAddress] on a value that may be [undefined]. *)
Definition getAddressOf `{Address} (address : option string) : Js.Completion string :=
  match address ≫= getAddress with
  | Some checksummed => Js.Return checksummed
  | None => Js.Throw Js.InvalidAddress
  end.

End Ethers.

(** ** @/services/balancer/subgraph/types, the fields the code reads *)

Module Subgraph.

Record PoolToken : Type := {
  token_address : string;
  (** the token's other fields, by name *)
  token_fields : list (string * string)
}.

Record Pool : Type := {
  id : string;
  address : string;
  poolType : string;
  tokensList : list string;
  tokens : list PoolToken;
  totalLiquidity : BigNumber.t;
  totalShares : BigNumber.t;
  wrappedIndex : option Z;
  mainIndex : option Z;
  linearPools : option (list string);
  wrappedTokens : option Js.Array;
  linearPoolTokensMap : option (gmap string PoolToken);
  linearPoolToMainTokenMap : option (gmap string (option string))
}.

(** [poolShare.poolId.id] and [poolShare.balance]. *)
Record PoolShare : Type := {
  poolId : string;
  balance : BigNumber.t
}.

Definition withTokensList (pool : Pool) (l : list string) : Pool :=
  {| id := id pool; address := address pool; poolType := poolType pool;
     tokensList := l; tokens := tokens pool;
     totalLiquidity := totalLiquidity pool; totalShares := totalShares pool;
     wrappedIndex := wrappedIndex pool; mainIndex := mainIndex pool;
     linearPools := linearPools pool; wrappedTokens := wrappedTokens pool;
     linearPoolTokensMap := linearPoolTokensMap pool;
     linearPoolToMainTokenMap := linearPoolToMainTokenMap pool |}.

Definition withWrappedTokens (pool : Pool) (w : Js.Array) : Pool :=
  {| id := id pool; address := address pool; poolType := poolType pool;
     tokensList := tokensList pool; tokens := tokens pool;
     totalLiquidity := totalLiquidity pool; totalShares := totalShares pool;
     wrappedIndex := wrappedIndex pool; mainIndex := mainIndex pool;
     linearPools := linearPools pool; wrappedTokens := Some w;
     linearPoolTokensMap := linearPoolTokensMap pool;
     linearPoolToMainTokenMap := linearPoolToMainTokenMap pool |}.

Definition withLinearMaps (pool : Pool) (tokensMap : gmap string PoolToken)
    (mainTokenMap : gmap string (option string)) : Pool :=
  {| id := id pool; address := address pool; poolType := poolType pool;
     tokensList := tokensList pool; tokens := tokens pool;
     totalLiquidity := totalLiquidity pool; totalShares := totalShares pool;
     wrappedIndex := wrappedIndex pool; mainIndex := mainIndex pool;
     linearPools := linearPools pool; wrappedTokens := wrappedTokens pool;
     linearPoolTokensMap := Some tokensMap;
     linearPoolToMainTokenMap := Some mainTokenMap |}.

End Subgraph.

(** ** src/composables/queries/useUserPoolsQuery.ts *)

Module UserPools.
Import Subgraph.

(** What the query calls outside this file: [addressFor] and [decorate] of
    [balancerSubgraphService.pools], [isStablePhantom] and [lpTokensFor] of
    [usePool]. *)
Class Services : Type := {
  addressFor : string → string;
  decorate : list Pool → list Pool;
  isStablePhantom : string → bool;
  lpTokensFor : Pool → list string
}.

Record DecoratedPoolWithShares : Type := {
  pool : Pool;
  shares : BigNumber.t
}.

Record UserPoolsQueryResponse : Type := {
  pools : list DecoratedPoolWithShares;
  totalInvestedAmount : BigNumber.t;
  tokens : list string
}.

Section Query.
Context `{Services} `{Ethers.Address} `{BigNumber.Config}.

Definition removePreMintedBPT (pool : Pool) : Pool :=
  let poolAddress := addressFor (id pool) in
  withTokensList pool
    (filter (fun address => address ≠ Js.toLowerCase poolAddress) (tokensList pool)).

(** One round of the inner [forEach]: a token of a linear pool goes into
    [linearPoolTokensMap] under its checksum address. *)
Definition addLinearPoolToken (linearPoolTokensMap : gmap string PoolToken)
    (token : PoolToken) : Js.Completion (gmap string PoolToken) :=
  Js.bind (Ethers.getAddressOf (Some (token_address token))) (fun address =>
  Js.Return (<[address := {| token_address := address;
                             token_fields := token_fields token |}]>
               linearPoolTokensMap)).

(** One round of the outer [forEach]. *)
Definition injectLinearPool (acc : Pool * gmap string PoolToken)
    (linearPool : Pool) : Js.Completion (Pool * gmap string PoolToken) :=
  let '(pool, linearPoolTokensMap) := acc in
  let wrapped := default ∅ (wrappedTokens pool) in
  let index := Js.indexOf (tokensList pool) (Js.toLowerCase (address linearPool)) in
  Js.bind (Ethers.getAddressOf
             (wrappedIndex linearPool ≫= Js.index (tokensList linearPool)))
    (fun wrappedToken =>
  let pool := withWrappedTokens pool (<[index := wrappedToken]> wrapped) in
  Js.bind (Js.foldC addLinearPoolToken
             (filter (fun token => token_address token ≠ address linearPool)
                (Subgraph.tokens linearPool))
             linearPoolTokensMap)
    (fun linearPoolTokensMap => Js.Return (pool, linearPoolTokensMap))).

(** [fetched] is what [balancerSubgraphService.pools.get()] answers. *)
Definition getLinearPoolAttrs (fetched : list Pool) (pool : Pool) : Js.Completion Pool :=
  let linearPools := filter (fun pool => poolType pool = "Linear") fetched in
  Js.bind (Js.foldC injectLinearPool linearPools (pool, ∅))
    (fun '(pool, linearPoolTokensMap) =>
  Js.Return
    (withLinearMaps pool linearPoolTokensMap
       (foldl (fun map linearPool =>
                 <[address linearPool :=
                     mainIndex linearPool ≫= Js.index (tokensList linearPool)]> map)
          ∅ linearPools))).

(** The body of the [for] loop over the fetched pools. *)
Definition decoratePool (fetched : list Pool) (pool : Pool) : Js.Completion Pool :=
  let pool := if isStablePhantom (poolType pool) then removePreMintedBPT pool else pool in
  if linearPools pool is Some _ then getLinearPoolAttrs fetched pool
  else Js.Return pool.

(** The loop, from index [i] on; [linearFetch i] is the subgraph's answer
    to the request that the [i]-th round makes. *)
Fixpoint decoratePoolsFrom (linearFetch : nat → list Pool) (i : nat)
    (pools : list Pool) : Js.Completion (list Pool) :=
  match pools with
  | [] => Js.Return []
  | pool :: rest =>
      Js.bind (decoratePool (linearFetch i) pool) (fun pool =>
      Js.bind (decoratePoolsFrom linearFetch (S i) rest) (fun rest =>
      Js.Return (pool :: rest)))
  end.

(** [poolSharesMap[pool.id]?.balance ?? 0] *)
Definition balanceOf (poolSharesMap : gmap string PoolShare) (poolId : string)
    : BigNumber.t :=
  match poolSharesMap !! poolId with
  | Some poolShare => balance poolShare
  | None => BigNumber.zero
  end.

Definition withShares (poolSharesMap : gmap string PoolShare) (pool : Pool)
    : DecoratedPoolWithShares :=
  {| pool := pool;
     shares := BigNumber.times
                 (BigNumber.div (totalLiquidity pool) (totalShares pool))
                 (balanceOf poolSharesMap (id pool)) |}.

(** [queryFn], given the subgraph's answers: the user's pool shares, the
    pools, and the pools again for each round of the loop. [userPools] is
    filtered before the loop and read after it; the loop rewrites the pool
    objects in place, so [userPools] then holds the rewritten pools.

    After the loop the query awaits [injectTokens(tokens)],
    [forChange(dynamicDataLoading, false)] and [pools.decorate(userPools)],
    three calls outside this file. The definition follows the run in which
    they resolve, [decorate] being what the last one resolves to; a run in
    which one of them rejects ends with that rejection and has no result.
    What is said below of the result of the query is said of the runs that
    have one. *)
Definition queryFn (poolShares : list PoolShare) (fetchedPools : list Pool)
    (linearFetch : nat → list Pool) : Js.Completion UserPoolsQueryResponse :=
  let poolSharesIds := poolId <$> poolShares in
  let poolSharesMap := Lodash.keyBy poolShares poolId in
  let inUserPools :=
    (fun pool => bool_decide (id pool ∈ poolSharesIds)) <$> fetchedPools in
  Js.bind (decoratePoolsFrom linearFetch 0 fetchedPools) (fun pools =>
  let userPools := Js.pick inUserPools pools in
  let tokens :=
    Lodash.flatten
      ((fun pool => tokensList pool ++ lpTokensFor pool ++ [addressFor (id pool)])
         <$> pools) in
  let decoratedPools := decorate userPools in
  let poolsWithShares := withShares poolSharesMap <$> decoratedPools in
  let totalInvestedAmount :=
    foldl BigNumber.plus BigNumber.zero (shares <$> poolsWithShares) in
  Js.Return {| pools := poolsWithShares;
               tokens := tokens;
               totalInvestedAmount := totalInvestedAmount |}).
End Query.

End UserPools.

(** ** The user-pools query in the specification's words *)

Module UserPoolsSpec.
Import Subgraph.

(** The share record that matches a pool: the one with the pool's id, the
    last of them should the subgraph send several. *)
Definition matchingShare (poolShares : list PoolShare) (poolId' : string)
    : option PoolShare :=
  last (filter (fun poolShare => poolId poolShare = poolId') poolShares).

(** The user's balance in a pool, zero without a matching share record. *)
Definition userSharesBalance (poolShares : list PoolShare) (poolId' : string)
    : BigNumber.t :=
  match matchingShare poolShares poolId' with
  | Some poolShare => balance poolShare
  | None => BigNumber.zero
  end.

(** [(totalLiquidity / totalShares) * userSharesBalance] *)
Definition shareValue `{BigNumber.Config} (poolShares : list PoolShare) (pool : Pool)
    : BigNumber.t :=
  BigNumber.times
    (BigNumber.div (totalLiquidity pool) (totalShares pool))
    (userSharesBalance poolShares (id pool)).

(** The user's pools as the query values them: the decorated pools in which
    the user holds a share, passed through the subgraph service's [decorate]. *)
Definition userPools `{UserPools.Services} (poolShares : list PoolShare)
    (decorated : list Pool) : list Pool :=
  UserPools.decorate
    (filter (fun pool => id pool ∈ poolId <$> poolShares) decorated).

(** The sum of a list of amounts. *)
Fixpoint sum (amounts : list BigNumber.t) : BigNumber.t :=
  match amounts with
  | [] => BigNumber.zero
  | amount :: rest => BigNumber.plus amount (sum rest)
  end.

(** [pool.wrappedTokens[idx]] *)
Definition wrappedTokenAt (pool : Pool) (idx : Z) : option string :=
  wrappedTokens pool ≫= (fun wrapped => wrapped !! idx).

(** The checksum-formatted address of a linear pool's token at its
    [wrappedIndex], when there is such a token and it is an address. *)
Definition checksumWrappedToken `{Ethers.Address} (linearPool : Pool) : option string :=
  (wrappedIndex linearPool ≫= Js.index (tokensList linearPool)) ≫= Ethers.getAddress.

(** Where [getLinearPoolAttrs] writes a linear pool's wrapped token. *)
Definition slot (pool linearPool : Pool) : Z :=
  Js.indexOf (tokensList pool) (Js.toLowerCase (address linearPool)).

(** The fetched pools of type Linear. *)
Definition linearPoolsOf (fetched : list Pool) : list Pool :=
  filter (fun pool => poolType pool = "Linear") fetched.

(** Two addresses that differ at most in the case of their letters. *)
Definition sameAddress (a b : string) : Prop := Js.toLowerCase a = Js.toLowerCase b.

End UserPoolsSpec.

(** ** src/beethovenx/services/beethovenx/beethovenx.service.ts *)

Module Beethovenx.

(** A number of the JSON response. The code copies it or tests whether it is
    zero and never computes with it. *)
Abbreviation number := Qc.

Record Price : Type := { usd : number }.

Record GqlTokenPrice : Type := {
  tp_address : string;
  tp_price : number
}.

Record GqlHistoricalPrice : Type := {
  timestamp : Z;
  price : number
}.

Record GqlHistoricalTokenPrice : Type := {
  htp_address : string;
  prices : list GqlHistoricalPrice
}.

Module GqlBeetsFarmUser.
Record t : Type := {
  id : string;
  address : string;
  amount : string;
  beetsHarvested : string;
  farmId : string;
  rewardDebt : string;
  timestamp : string
}.
End GqlBeetsFarmUser.

Section Service.
Context `{Ethers.Address}.

(** The body of the loop over [response.tokenPrices]. *)
Definition addTokenPrice (result : gmap string Price) (tokenPrice : GqlTokenPrice)
    : Js.Completion (gmap string Price) :=
  if Ethers.isAddress (tp_address tokenPrice)
  then Js.bind (Ethers.getAddressOf (Some (tp_address tokenPrice)))
         (fun address =>
            Js.Return (<[address := {| usd := tp_price tokenPrice |}]> result))
  else Js.Return result.

(** [response] is what [this.get] resolved to: the reply's [data], absent
    when the backend sent none; present, it holds [tokenPrices]. *)
Definition getTokenPrices (response : option (list GqlTokenPrice))
    : Js.Completion (gmap string Price) :=
  match response with
  | None => Js.Return ∅
  | Some tokenPrices => Js.foldC addTokenPrice tokenPrices ∅
  end.

(** [entry?.price || 0] *)
Definition priceOrZero (entry : option GqlHistoricalPrice) : number :=
  match entry with
  | Some e => if decide (price e = 0%Qc) then 0%Qc else price e
  | None => 0%Qc
  end.

Definition historicalRow (tokenPricesMap : gmap string GqlHistoricalTokenPrice)
    (lowerCaseAddresses : list string) (t : Z) : Js.Completion (list number) :=
  Js.mapC
    (fun address =>
       match tokenPricesMap !! address with
       | None => Js.Throw Js.TypeError
       | Some series =>
           Js.Return
             (priceOrZero
                (List.find (fun p => bool_decide (timestamp p = t)) (prices series)))
       end)
    lowerCaseAddresses.

(** The body of the loop over the timestamps. *)
Definition addHistoricalRow (tokenPricesMap : gmap string GqlHistoricalTokenPrice)
    (lowerCaseAddresses : list string) (result : gmap Z (list number)) (t : Z)
    : Js.Completion (gmap Z (list number)) :=
  Js.bind (historicalRow tokenPricesMap lowerCaseAddresses t)
    (fun row => Js.Return (<[t := row]> result)).

(** Destructuring [{ tokenPrices }] out of absent [data] throws. *)
Definition getHistoricalTokenPrices (addresses : list string)
    (response : option (list GqlHistoricalTokenPrice))
    : Js.Completion (gmap Z (list number)) :=
  let lowerCaseAddresses := Js.toLowerCase <$> addresses in
  match response with
  | None => Js.Throw Js.TypeError
  | Some tokenPrices =>
      let timestamps :=
        match tokenPrices with
        | [] => []
        | first :: _ => timestamp <$> prices first
        end in
      let tokenPricesMap := Lodash.keyBy tokenPrices htp_address in
      Js.foldC (addHistoricalRow tokenPricesMap lowerCaseAddresses) timestamps ∅
  end.

(** [response] is the reply's [data]; present, its field
    [beetsGetUserDataForFarm] is a record or [null]. *)
Definition getUserDataForFarm (farmId userAddress : string)
    (response : option (option GqlBeetsFarmUser.t))
    : Js.Completion GqlBeetsFarmUser.t :=
  match response with
  | None => Js.Throw Js.TypeError
  | Some beetsGetUserDataForFarm =>
      Js.Return
        (match beetsGetUserDataForFarm with
         | Some user => user
         | None =>
             {| GqlBeetsFarmUser.id := "";
                GqlBeetsFarmUser.address := "";
                GqlBeetsFarmUser.amount := "0";
                GqlBeetsFarmUser.beetsHarvested := "0";
                GqlBeetsFarmUser.rewardDebt := "0";
                GqlBeetsFarmUser.timestamp := "";
                GqlBeetsFarmUser.farmId := farmId |}
         end)
  end.
End Service.

End Beethovenx.

(** ** The backend client in the specification's words *)

Module BeethovenxSpec.
Import Beethovenx.

(** The series the response holds for a requested token: the one under the
    token's lower-case address, the last of them should there be several. *)
Definition seriesOf (tokenPrices : list GqlHistoricalTokenPrice) (address : string)
    : option GqlHistoricalTokenPrice :=
  last (filter (fun series => htp_address series = Js.toLowerCase address) tokenPrices).

(** The response entry that prices a checksum address: the last whose
    address has that checksum form. *)
Definition pricedBy `{Ethers.Address} (tokenPrices : list GqlTokenPrice) (key : string)
    : option GqlTokenPrice :=
  last (filter (fun tokenPrice => Ethers.getAddress (tp_address tokenPrice) = Some key)
          tokenPrices).

(** The timestamps of a series. *)
Definition timestampsOf (series : GqlHistoricalTokenPrice) : list Z :=
  timestamp <$> prices series.

(** The timestamps of the first series of the response, none for an empty
    response. *)
Definition firstTimestamps (tokenPrices : list GqlHistoricalTokenPrice) : list Z :=
  match tokenPrices with
  | [] => []
  | first :: _ => timestampsOf first
  end.

(** The first entry of a series at a timestamp. *)
Definition entryAt (series : GqlHistoricalTokenPrice) (t : Z) : option GqlHistoricalPrice :=
  List.find (fun p => bool_decide (timestamp p = t)) (prices series).

End BeethovenxSpec.

(** ** lodash's [orderBy] without positions *)

Module LodashSpec.

(** ['desc'] on the sort key alone, for an element that stands before the
    ones it is compared with: it goes behind the elements of a larger key
    and before the first one of an equal or smaller key. *)
Definition compareDesc {A} (iteratee : A → option Z) (a b : A) : comparison :=
  match Lodash.compareAscending (iteratee a) (iteratee b) with
  | Eq => Lt
  | c => CompOpp c
  end.

End LodashSpec.

(** ** The alert registry: notions for its properties *)

Module AlertsSpec.
Import Alerts.

#[export] Instance AlertPriority_eq_dec : EqDecision AlertPriority.
Proof. solve_decision. Defined.

(** An alert of lower priority than [a]: it has a priority, below [a]'s. *)
Definition below (a b : Alert) : Prop :=
  ∃ p q, priority a = Some p ∧ priority b = Some q ∧ priorityValue q < priorityValue p.

End AlertsSpec.

(** ** What [getLinearPoolAttrs] reads off the linear pools *)

Module LinearPoolSpec.
Import Subgraph UserPoolsSpec.

(** [linearPool.tokensList[linearPool.mainIndex]] *)
Definition mainToken (linearPool : Pool) : option string :=
  mainIndex linearPool ≫= Js.index (tokensList linearPool).

(** The tokens of a linear pool that go into [linearPoolTokensMap]: those
    whose address is not, letter for letter, the pool's own. *)
Definition filedTokens (linearPool : Pool) : list PoolToken :=
  filter (fun token => token_address token ≠ address linearPool)
    (Subgraph.tokens linearPool).

(** These tokens of all fetched linear pools, in the order of the loops. *)
Definition linearTokens (fetched : list Pool) : list PoolToken :=
  linearPoolsOf fetched ≫= filedTokens.

(** A token as it is filed under the checksum address [address]. *)
Definition filedAs (address : string) (token : PoolToken) : PoolToken :=
  {| token_address := address; token_fields := token_fields token |}.

(** A linear pool that [getAddress] accepts: its wrapped token is an
    address, and so is each of its tokens that is filed. *)
Definition wellFormed `{Ethers.Address} (linearPool : Pool) : Prop :=
  is_Some (checksumWrappedToken linearPool)
  ∧ Forall (fun token => is_Some (Ethers.getAddress (token_address token)))
      (filedTokens linearPool).

(** The last fetched linear pool that writes the slot [idx] of a pool's
    [wrappedTokens]. *)
Definition lastWriter (pool : Pool) (fetched : list Pool) (idx : Z) : option Pool :=
  last (filter (fun linearPool => slot pool linearPool = idx) (linearPoolsOf fetched)).

(** A pool that the loop of [queryFn] leaves alone. *)
Definition plain `{UserPools.Services} (pool : Pool) : Prop :=
  UserPools.isStablePhantom (poolType pool) = false ∧ linearPools pool = None.

End LinearPoolSpec.

(** ** What the historical-price lookup reads of a response *)

Module HistoricalSpec.
Import Beethovenx.

(** A series that the backend files under an address with an upper-case
    letter in it. *)
Definition mixedCase (series : GqlHistoricalTokenPrice) : Prop :=
  htp_address series ≠ Js.toLowerCase (htp_address series).

End HistoricalSpec.

(** ** The precision of a BigNumber division *)

Module BigNumberSpec.

(** One unit in the last decimal place that a division keeps: [10^-dp]. *)
Definition ulp (dp : nat) : Qc := Q2Qc (1 # Z.to_pos (10 ^ Z.of_nat dp)).

End BigNumberSpec.

(** ** What the current-price lookup writes for a response *)

Module TokenPricesSpec.
Import Beethovenx.

(** The keys that [getTokenPrices] writes for a response, one for each entry
    with a valid address, in the order of the entries. *)
Definition writtenKeys `{Ethers.Address} (tokenPrices : list GqlTokenPrice) : list string :=
  omap (fun tokenPrice => Ethers.getAddress (tp_address tokenPrice)) tokenPrices.

End TokenPricesSpec.

(** ** Collaborators for the worked examples *)

Module Sample.
Import Subgraph.

Definition isHexDigit (c : ascii) : bool :=
  let n := N_of_ascii c in
  (((48 <=? n) && (n <=? 57)) || ((65 <=? n) && (n <=? 70))
   || ((97 <=? n) && (n <=? 102)))%N.

Definition upperChar (c : ascii) : ascii :=
  let n := N_of_ascii c in
  if ((97 <=? n) && (n <=? 122))%N then ascii_of_N (n - 32) else c.

Fixpoint mapChars (f : ascii → ascii) (s : string) : string :=
  match s with
  | EmptyString => EmptyString
  | String c r => String (f c) (mapChars f r)
  end.

Fixpoint allChars (f : ascii → bool) (s : string) : bool :=
  match s with
  | EmptyString => true
  | String c r => f c && allChars f r
  end.

(** A stand-in for ethers' [getAddress]: it takes [0x] and forty hexadecimal
    digits and writes every digit in upper case. The library picks the case
    of each letter from a Keccak-256 hash of the address; like the stand-in
    it answers with the same digits, and it throws on a string that is no
    address. *)
Definition checksum (a : string) : option string :=
  match a with
  | String "0" (String "x" body) =>
      if allChars isHexDigit body && bool_decide (String.length body = 40%nat)
      then Some (String "0" (String "x" (mapChars upperChar body)))
      else None
  | _ => None
  end.

#[export] Instance ethersAddress : Ethers.Address := {| Ethers.getAddress := checksum |}.

(** bignumber.js as shipped: twenty decimal places, halves away from zero. *)
#[export] Instance bigNumberConfig : BigNumber.Config :=
  {| BigNumber.DECIMAL_PLACES := 20; BigNumber.ROUNDING_MODE := BigNumber.ROUND_HALF_UP |}.

(** The pool's address is the first 42 characters of its id; the pools are
    valued as they come; the liquidity tokens of a pool are the wrapped
    tokens injected into it. *)
#[export] Instance services : UserPools.Services :=
  {| UserPools.addressFor := fun id => String.substring 0 42 id;
     UserPools.decorate := fun pools => pools;
     UserPools.isStablePhantom := fun poolType => bool_decide (poolType = "StablePhantom");
     UserPools.lpTokensFor :=
       fun pool => (map_to_list (default ∅ (wrappedTokens pool))).*2 |}.

(** [0x], zeros, and [tail] as the last digits: an address of 42 characters. *)
Definition hex (tail : string) : string :=
  "0x" +:+ String.substring 0 (40 - String.length tail)
             "0000000000000000000000000000000000000000" +:+ tail.

Definition pool (id address poolType : string) (tokensList : list string)
    (totalLiquidity totalShares : BigNumber.t) : Pool :=
  {| Subgraph.id := id; Subgraph.address := address; poolType := poolType;
     Subgraph.tokensList := tokensList; tokens := [];
     Subgraph.totalLiquidity := totalLiquidity; Subgraph.totalShares := totalShares;
     wrappedIndex := None; mainIndex := None; linearPools := None;
     wrappedTokens := None; linearPoolTokensMap := None;
     linearPoolToMainTokenMap := None |}.

(** A Linear pool: its tokens are the main token, the wrapped token and the
    pool's own address. *)
Definition linearPool (address mainToken wrappedToken : string) : Pool :=
  {| Subgraph.id := address +:+ "000000000000000000000000";
     Subgraph.address := address; poolType := "Linear";
     Subgraph.tokensList := [mainToken; wrappedToken; address];
     tokens := [ {| token_address := mainToken; token_fields := [("symbol", "MAIN")] |};
                 {| token_address := wrappedToken; token_fields := [("symbol", "WRAPPED")] |};
                 {| token_address := address; token_fields := [("symbol", "BPT")] |} ];
     Subgraph.totalLiquidity := BigNumber.zero; Subgraph.totalShares := BigNumber.zero;
     wrappedIndex := Some 1; mainIndex := Some 0; linearPools := None;
     wrappedTokens := None; linearPoolTokensMap := None;
     linearPoolToMainTokenMap := None |}.

(** The amount [n / d]. *)
Definition amount (n : Z) (d : positive) : BigNumber.t := BigNumber.Finite (Q2Qc (n # d)).

(** A StablePhantom pool whose token list names the pool's own address
    twice, once in lower case and once in upper case. *)
Definition phantomPool : Pool :=
  pool (hex "aa" +:+ "000000000000000000000001") (hex "aa") "StablePhantom"
    [hex "b1"; "0x00000000000000000000000000000000000000AA"; hex "aa"]
    (BigNumber.Finite 0%Qc) (BigNumber.Finite 0%Qc).

(** Two pools that share the token [e1]. *)
Definition poolOne (totalLiquidity totalShares : BigNumber.t) : Pool :=
  pool (hex "d1" +:+ "000000000000000000000001") (hex "d1") "Weighted"
    [hex "e1"; hex "e2"] totalLiquidity totalShares.

Definition poolTwo (totalLiquidity totalShares : BigNumber.t) : Pool :=
  pool (hex "d2" +:+ "000000000000000000000002") (hex "d2") "Weighted"
    [hex "e1"; hex "e3"] totalLiquidity totalShares.

Definition share (pool : Pool) (balance : BigNumber.t) : PoolShare :=
  {| poolId := Subgraph.id pool; Subgraph.balance := balance |}.

(** A parent pool that holds the linear pool [a1], and the subgraph's
    linear pools [a1], [a2] and [a3]. *)
Definition parentPool : Pool :=
  pool (hex "aa" +:+ "000000000000000000000001") (hex "aa") "StablePhantom"
    [hex "a1"; hex "aa"] (BigNumber.Finite 0%Qc) (BigNumber.Finite 0%Qc).

Definition fetchedPools : list Pool :=
  [ linearPool (hex "a1") (hex "11") (hex "c1");
    linearPool (hex "a2") (hex "12") (hex "c2");
    linearPool (hex "a3") (hex "13") (hex "c3");
    parentPool ].

(** A price series. *)
Definition series (address : string) (entries : list (Z * Z))
    : Beethovenx.GqlHistoricalTokenPrice :=
  {| Beethovenx.htp_address := address;
     Beethovenx.prices :=
       (fun e => {| Beethovenx.timestamp := e.1;
                    Beethovenx.price := Q2Qc (inject_Z e.2) |}) <$> entries |}.

Definition alert (id : string) (priority : option Alerts.AlertPriority) : Alerts.Alert :=
  {| Alerts.id := id; Alerts.priority := priority; Alerts.label := id;
     Alerts.type := Alerts.INFO; Alerts.actionLabel := None; Alerts.action := None;
     Alerts.actionOnClick := None; Alerts.persistent := None |}.

End Sample.

(** * Part II: lemmas and theorems *)

(** ** Objects as ordered records *)

Section ObjectFacts.
Context {V : Type}.
Implicit Types (o : Js.Object V) (k : string) (v : V).

Lemma get_None o k : Js.get o k = None ↔ k ∉ Js.keys o.
Proof.
  unfold Js.keys. induction o as [|[k' v'] o IH]; simpl.
  - split; [intros _; apply not_elem_of_nil | done].
  - rewrite not_elem_of_cons. destruct (decide (k' = k)) as [->|Hne].
    + split; [done | intros [? _]; done].
    + rewrite IH. split; [intros ?; split; [congruence | done] | intros [_ ?]; done].
Qed.

Lemma has_true o k : Js.has o k = true ↔ k ∈ Js.keys o.
Proof.
  unfold Js.has. destruct (Js.get o k) eqn:E.
  - split; [intros _ | done].
    destruct (decide (k ∈ Js.keys o)) as [|Hn]; [done|].
    apply get_None in Hn. congruence.
  - apply get_None in E. split; [done | intros ?; contradiction].
Qed.

Lemma has_false o k : Js.has o k = false ↔ k ∉ Js.keys o.
Proof.
  rewrite <- has_true. destruct (Js.has o k); split; try done.
  all: try (intros Hn; by destruct Hn).
Qed.

Lemma get_replace o k v : k ∈ Js.keys o → Js.get (Js.replace o k v) k = Some v.
Proof.
  unfold Js.keys. induction o as [|[k' v'] o IH]; simpl; intros Hin.
  - by apply elem_of_nil in Hin.
  - destruct (decide (k' = k)) as [->|Hne]; simpl.
    + by rewrite decide_True.
    + rewrite decide_False by done. apply IH.
      apply elem_of_cons in Hin as [?|?]; [congruence | done].
Qed.

Lemma keys_replace o k v : Js.keys (Js.replace o k v) = Js.keys o.
Proof.
  unfold Js.keys. induction o as [|[k' v'] o IH]; simpl; [done|].
  destruct (decide (k' = k)) as [->|Hne]; simpl; [done | f_equal; apply IH].
Qed.

Lemma length_replace o k v : length (Js.replace o k v) = length o.
Proof.
  rewrite <- (length_fmap fst (Js.replace o k v)), <- (length_fmap fst o).
  apply (f_equal length (keys_replace o k v)).
Qed.

(** A new key goes in at one place and moves no other entry. *)
Lemma addIndex_split o n k v :
  ∃ o1 o2, o = o1 ++ o2 ∧ Js.addIndex o n k v = o1 ++ (k, v) :: o2.
Proof.
  induction o as [|[k' v'] o IH]; simpl.
  - by exists [], [].
  - destruct (Js.arrayIndex k') as [n'|].
    + destruct (n <? n')%N.
      * by exists [], ((k', v') :: o).
      * destruct IH as (o1 & o2 & -> & ->). by exists ((k', v') :: o1), o2.
    + by exists [], ((k', v') :: o).
Qed.

Lemma add_split o k v :
  ∃ o1 o2, o = o1 ++ o2 ∧ Js.add o k v = o1 ++ (k, v) :: o2.
Proof.
  unfold Js.add. destruct (Js.arrayIndex k) as [n|].
  - apply addIndex_split.
  - exists o, []. by rewrite app_nil_r.
Qed.

Lemma get_app_cons_fresh o1 o2 k v :
  k ∉ Js.keys (o1 ++ o2) → Js.get (o1 ++ (k, v) :: o2) k = Some v.
Proof.
  unfold Js.keys. induction o1 as [|[k' v'] o1 IH]; simpl; intros Hn.
  - by rewrite decide_True.
  - apply not_elem_of_cons in Hn as [Hne Hn].
    rewrite decide_False by done. by apply IH.
Qed.

Lemma get_set_present o k v : k ∈ Js.keys o → Js.get (Js.set o k v) k = Some v.
Proof.
  intros Hin. unfold Js.set. rewrite (proj2 (has_true o k) Hin). by apply get_replace.
Qed.

Lemma get_set o k v : k ≠ "__proto__" → Js.get (Js.set o k v) k = Some v.
Proof.
  intros Hk. unfold Js.set. destruct (Js.has o k) eqn:E.
  - apply get_replace. by apply has_true.
  - rewrite decide_False by done. apply has_false in E.
    destruct (add_split o k v) as (o1 & o2 & Ho & ->).
    apply get_app_cons_fresh. by rewrite <- Ho.
Qed.

(** An assignment to [__proto__] adds no property. *)
Lemma set_proto o v : "__proto__" ∉ Js.keys o → Js.set o "__proto__" v = o.
Proof.
  intros Hn. unfold Js.set. rewrite (proj2 (has_false o _) Hn). by rewrite decide_True.
Qed.

Lemma length_set_present o k v :
  k ∈ Js.keys o → length (Js.set o k v) = length o.
Proof.
  intros Hin. unfold Js.set. apply has_true in Hin. rewrite Hin. apply length_replace.
Qed.

Lemma length_set_fresh o k v :
  k ∉ Js.keys o → k ≠ "__proto__" → length (Js.set o k v) = S (length o).
Proof.
  intros Hn Hk. unfold Js.set. apply has_false in Hn. rewrite Hn.
  rewrite decide_False by done.
  destruct (add_split o k v) as (o1 & o2 & -> & ->).
  rewrite !length_app. simpl. lia.
Qed.

Lemma NoDup_keys_set o k v : NoDup (Js.keys o) → NoDup (Js.keys (Js.set o k v)).
Proof.
  intros Hnd. unfold Js.set. destruct (Js.has o k) eqn:E.
  - by rewrite keys_replace.
  - destruct (decide (k = "__proto__")); [done|]. apply has_false in E.
    destruct (add_split o k v) as (o1 & o2 & -> & ->).
    unfold Js.keys in *. rewrite fmap_app in *. simpl.
    apply NoDup_app in Hnd as (H1 & H12 & H2).
    rewrite not_elem_of_app in E. destruct E as [E1 E2].
    apply NoDup_app. split_and!; [done | | ].
    + intros x Hx [->|Hx2]%elem_of_cons; [done | by eapply H12].
    + by apply NoDup_cons.
Qed.

Lemma NoDup_keys_remove o k : NoDup (Js.keys o) → NoDup (Js.keys (Js.remove o k)).
Proof.
  unfold Js.keys, Js.remove. induction o as [|[k' v'] o IH]; [done|].
  rewrite fmap_cons. intros [Hn Hnd]%NoDup_cons. rewrite filter_cons.
  destruct (decide ((k', v').1 ≠ k)); [|by apply IH].
  rewrite fmap_cons. apply NoDup_cons. split; [|by apply IH].
  intros Hin. apply Hn. apply list_elem_of_fmap in Hin as ([k2 v2] & Heq & Hin).
  apply list_elem_of_filter in Hin as [_ Hin].
  apply list_elem_of_fmap. by exists (k2, v2).
Qed.

Lemma get_remove o k : Js.get (Js.remove o k) k = None.
Proof.
  apply get_None. unfold Js.keys, Js.remove.
  intros ([k2 v2] & -> & Hin)%list_elem_of_fmap.
  apply list_elem_of_filter in Hin as [Hne _]. by apply Hne.
Qed.

Lemma get_replace_ne o k k' v :
  k' ≠ k → Js.get (Js.replace o k v) k' = Js.get o k'.
Proof.
  intros Hne. induction o as [|[k0 v0] o IH]; simpl; [done|].
  destruct (decide (k0 = k)) as [->|Hk]; simpl.
  - by rewrite !decide_False by done.
  - destruct (decide (k0 = k')); [done | apply IH].
Qed.

Lemma get_app_cons_ne o1 o2 k k' v :
  k' ≠ k → Js.get (o1 ++ (k, v) :: o2) k' = Js.get (o1 ++ o2) k'.
Proof.
  intros Hne. induction o1 as [|[k0 v0] o1 IH]; simpl.
  - by rewrite decide_False by done.
  - destruct (decide (k0 = k')); [done | apply IH].
Qed.

(** A write leaves the other properties as they are. *)
Lemma get_set_ne o k k' v : k' ≠ k → Js.get (Js.set o k v) k' = Js.get o k'.
Proof.
  intros Hne. unfold Js.set. destruct (Js.has o k).
  - by apply get_replace_ne.
  - destruct (decide (k = "__proto__")); [done|].
    destruct (add_split o k v) as (o1 & o2 & -> & ->). by apply get_app_cons_ne.
Qed.

Lemma get_Some_elem_of o k v : Js.get o k = Some v → (k, v) ∈ o.
Proof.
  induction o as [|[k0 v0] o IH]; simpl; [done|].
  destruct (decide (k0 = k)) as [->|Hne].
  - intros [= ->]. apply list_elem_of_here.
  - intros Hg. apply list_elem_of_further. by apply IH.
Qed.

Lemma elem_of_get o k v : NoDup (Js.keys o) → (k, v) ∈ o → Js.get o k = Some v.
Proof.
  unfold Js.keys. induction o as [|[k0 v0] o IH]; simpl.
  - by intros _ ?%elem_of_nil.
  - intros [Hn Hnd]%NoDup_cons [[= -> ->]|Hin]%elem_of_cons.
    + by rewrite decide_True.
    + rewrite decide_False; [by apply IH|].
      intros ->. apply Hn. apply list_elem_of_fmap. by exists (k, v).
Qed.

(** Writing a new key adds its value to the values and keeps the others. *)
Lemma values_set_fresh o k v :
  k ∉ Js.keys o → k ≠ "__proto__" →
  ∃ o1 o2, o = o1 ++ o2 ∧ Js.set o k v = o1 ++ (k, v) :: o2.
Proof.
  intros Hn Hk. unfold Js.set. apply has_false in Hn. rewrite Hn.
  rewrite decide_False by done. apply add_split.
Qed.
End ObjectFacts.

(** ** lodash's [orderBy] *)

Section SortFacts.
Context {A : Type} (cmp : A → A → comparison).

Lemma insertBy_Permutation x l : Lodash.insertBy cmp x l ≡ₚ x :: l.
Proof.
  induction l as [|y l IH]; simpl; [done|].
  destruct (cmp x y); try done.
  rewrite IH. apply Permutation_swap.
Qed.

Lemma sortBy'_Permutation l : Lodash.sortBy' cmp l ≡ₚ l.
Proof.
  induction l as [|x l IH]; simpl; [done|].
  rewrite insertBy_Permutation. by rewrite IH.
Qed.

Context (R : relation A).
Hypothesis cmp_le : ∀ x y, cmp x y ≠ Gt → R x y.
Hypothesis cmp_gt : ∀ x y, cmp x y = Gt → R y x.

Lemma insertBy_HdRel x y l :
  R y x → HdRel R y l → HdRel R y (Lodash.insertBy cmp x l).
Proof.
  intros Hyx Hhd. destruct l as [|z l]; simpl; [by constructor|].
  inversion_clear Hhd. destruct (cmp x z); by constructor.
Qed.

Lemma insertBy_Sorted x l : Sorted R l → Sorted R (Lodash.insertBy cmp x l).
Proof.
  induction 1 as [|y l Hs IH Hhd]; simpl.
  - by repeat constructor.
  - destruct (cmp x y) eqn:E.
    + constructor; [by constructor|]. constructor. apply cmp_le. by rewrite E.
    + constructor; [by constructor|]. constructor. apply cmp_le. by rewrite E.
    + constructor; [done|]. apply insertBy_HdRel; [by apply cmp_gt | done].
Qed.

Lemma sortBy'_Sorted l : Sorted R (Lodash.sortBy' cmp l).
Proof.
  induction l as [|x l IH]; simpl; [constructor | by apply insertBy_Sorted].
Qed.
End SortFacts.

Lemma compareAscending_antisym k1 k2 :
  Lodash.compareAscending k1 k2 = CompOpp (Lodash.compareAscending k2 k1).
Proof. destruct k1, k2; simpl; try done. apply Z.compare_antisym. Qed.

#[local] Instance keyGe_trans : Transitive Lodash.keyGe.
Proof.
  intros [a|] [b|] [c|]; unfold Lodash.keyGe; simpl; try done.
  rewrite !Z.compare_gt_iff. lia.
Qed.

Lemma compareMultiple_desc_le {A} (t1 t2 : option Z * nat * A) :
  Lodash.compareMultiple Lodash.desc t1 t2 ≠ Gt → Lodash.keyGe t1.1.1 t2.1.1.
Proof.
  unfold Lodash.compareMultiple, Lodash.keyGe.
  rewrite (compareAscending_antisym t2.1.1 t1.1.1).
  destruct (Lodash.compareAscending t1.1.1 t2.1.1); simpl; done.
Qed.

Lemma compareMultiple_desc_gt {A} (t1 t2 : option Z * nat * A) :
  Lodash.compareMultiple Lodash.desc t1 t2 = Gt → Lodash.keyGe t2.1.1 t1.1.1.
Proof.
  unfold Lodash.compareMultiple, Lodash.keyGe.
  destruct (Lodash.compareAscending t1.1.1 t2.1.1); simpl; done.
Qed.

Lemma criteria_values {A} (iteratee : A → option Z) (g : nat → nat) (l : list A) :
  (imap (fun i a => (iteratee a, g i, a)) l).*2 = l.
Proof.
  revert g. induction l as [|x l IH]; intros g; simpl; [done|].
  f_equal. apply (IH (g ∘ S)).
Qed.

Lemma criteria_keys {A} (iteratee : A → option Z) (g : nat → nat) (l : list A) :
  Forall (fun t : option Z * nat * A => t.1.1 = iteratee t.2)
    (imap (fun i a => (iteratee a, g i, a)) l).
Proof.
  revert g. induction l as [|x l IH]; intros g; simpl; constructor; [done|].
  apply (IH (g ∘ S)).
Qed.

Lemma StronglySorted_fmap_Forall {A B} (R : relation A) (R' : relation B)
    (P : A → Prop) (f : A → B) (l : list A) :
  (∀ x y, P x → P y → R x y → R' (f x) (f y)) →
  Forall P l → StronglySorted R l → StronglySorted R' (f <$> l).
Proof.
  intros HR HP Hs. induction Hs as [|x l Hs IH Hall]; simpl; [constructor|].
  inversion_clear HP as [|? ? Hx Hl]. constructor; [by apply IH|].
  apply Forall_fmap. rewrite Forall_forall in Hall, Hl. apply Forall_forall.
  intros y Hy. simpl. apply HR; auto.
Qed.

Lemma orderBy_Permutation {A} (l : list A) iteratee order :
  Lodash.orderBy l iteratee order ≡ₚ l.
Proof.
  unfold Lodash.orderBy.
  rewrite sortBy'_Permutation. by rewrite (criteria_values iteratee (fun i => i)).
Qed.

Lemma orderBy_desc_sorted {A} (l : list A) iteratee :
  StronglySorted (fun a b => Lodash.keyGe (iteratee a) (iteratee b))
    (Lodash.orderBy l iteratee Lodash.desc).
Proof.
  unfold Lodash.orderBy.
  set (R := fun t1 t2 : option Z * nat * A => Lodash.keyGe t1.1.1 t2.1.1).
  assert (Transitive R) by (intros x y z; unfold R; apply keyGe_trans).
  eapply (StronglySorted_fmap_Forall R _
            (fun t => t.1.1 = iteratee t.2)).
  - intros x y Hx Hy. unfold R. by rewrite Hx, Hy.
  - rewrite sortBy'_Permutation. apply (criteria_keys iteratee (fun i => i)).
  - apply Sorted_StronglySorted; [done|].
    apply sortBy'_Sorted;
      [apply compareMultiple_desc_le | apply compareMultiple_desc_gt].
Qed.

(** ** The alert registry *)

Section AlertFacts.
Import Alerts.
Implicit Types (s : State) (alert : Alert).

Lemma keyGe_priorityGe (a b : Alert) :
  Lodash.keyGe (priorityOf a) (priorityOf b) → priorityGe a b.
Proof.
  unfold Lodash.keyGe, priorityOf, priorityGe.
  destruct (priority a), (priority b); simpl; done.
Qed.

Lemma alerts_sorted s : StronglySorted priorityGe (alerts s).
Proof.
  unfold alerts. rewrite <- (list_fmap_id (Lodash.orderBy _ _ _)).
  eapply (StronglySorted_fmap_Forall _ _ (fun _ => True)).
  - intros x y _ _ Hxy. by apply keyGe_priorityGe in Hxy.
  - by apply Forall_true.
  - apply orderBy_desc_sorted.
Qed.

Lemma addAlert_fresh alert s :
  id alert ∉ Js.keys s → id alert ≠ "__proto__" →
  ∃ s1 s2, s = s1 ++ s2 ∧ addAlert alert s = s1 ++ (id alert, withPriority alert) :: s2.
Proof. apply values_set_fresh. Qed.

(** A list in descending priority order that holds three alerts of
    priorities LOW, HIGH and MEDIUM holds them in the order HIGH, MEDIUM,
    LOW. *)
Lemma sorted_three low high medium (l : list Alert) :
  priority low = Some LOW → priority high = Some HIGH →
  priority medium = Some MEDIUM →
  l ≡ₚ [low; high; medium] →
  StronglySorted priorityGe l →
  l = [high; medium; low].
Proof.
  intros Hl Hh Hm Hp Hs.
  assert (length l = 3%nat) as Hlen by by rewrite Hp.
  destruct l as [|a [|b [|c [|]]]]; try done.
  apply StronglySorted_inv in Hs as [Hs Ha].
  apply StronglySorted_inv in Hs as [_ Hb].
  apply Forall_cons in Ha as [Hab Ha]. apply Forall_cons in Ha as [Hac _].
  apply Forall_cons in Hb as [Hbc _].
  assert (Hin : ∀ x, x ∈ [a; b; c] ↔ x ∈ [low; high; medium])
    by (intros x; by rewrite Hp).
  assert (Hnd : NoDup [low; high; medium]).
  { assert (low ≠ high) by (intros ->; congruence).
    assert (low ≠ medium) by (intros ->; congruence).
    assert (high ≠ medium) by (intros ->; congruence).
    repeat (apply NoDup_cons; split); try apply NoDup_nil_2;
      rewrite ?elem_of_cons, ?elem_of_nil; tauto. }
  rewrite <- Hp in Hnd.
  apply NoDup_cons in Hnd as [Hn1 Hnd]. apply NoDup_cons in Hnd as [Hn2 _].
  apply not_elem_of_cons in Hn1 as [Nab Hn1].
  apply not_elem_of_cons in Hn1 as [Nac _].
  apply not_elem_of_cons in Hn2 as [Nbc _].
  assert (∀ x, x ∈ [a; b; c] → x = low ∨ x = high ∨ x = medium) as Hcase.
  { intros x Hx. apply Hin in Hx. rewrite !elem_of_cons, elem_of_nil in Hx. tauto. }
  unfold priorityGe in Hab, Hac, Hbc.
  assert (Ca : a ∈ [a; b; c]) by (rewrite !elem_of_cons; tauto).
  assert (Cb : b ∈ [a; b; c]) by (rewrite !elem_of_cons; tauto).
  assert (Cc : c ∈ [a; b; c]) by (rewrite !elem_of_cons; tauto).
  apply Hcase in Ca, Cb, Cc.
  destruct Ca as [-> | [-> | ->]], Cb as [-> | [-> | ->]], Cc as [-> | [-> | ->]];
    repeat match goal with
           | E : priority ?x = Some _, G : context [priority ?x] |- _ =>
               lazymatch type of G with
               | priority x = _ => fail
               | _ => rewrite E in G
               end
           end;
    simpl in *; first [done | lia].
Qed.

Lemma alerts_three low high medium s :
  priority low = Some LOW → priority high = Some HIGH →
  priority medium = Some MEDIUM →
  Js.values s ≡ₚ [low; high; medium] →
  alerts s = [high; medium; low].
Proof.
  intros Hl Hh Hm Hperm. apply sorted_three; [done..| |apply alerts_sorted].
  unfold alerts. by rewrite orderBy_Permutation.
Qed.

Lemma StronglySorted_filter {A} (R : relation A) (P : A → Prop)
    `{∀ x, Decision (P x)} (l : list A) :
  StronglySorted R l → StronglySorted R (filter P l).
Proof.
  induction 1 as [|x l Hs IH Hall]; [constructor|].
  rewrite filter_cons. destruct (decide (P x)); [|done].
  constructor; [done|]. rewrite Forall_forall in Hall. apply Forall_forall.
  intros y [_ Hy]%list_elem_of_filter. by apply Hall.
Qed.

(** What is stored under a key after [addAlert]. *)
Lemma get_addAlert alert s k :
  id alert ≠ "__proto__" →
  Js.get (addAlert alert s) k
  = if decide (k = id alert) then Some (withPriority alert) else Js.get s k.
Proof.
  intros Hid. unfold addAlert. destruct (decide (k = id alert)) as [->|Hne].
  - by apply get_set.
  - by apply get_set_ne.
Qed.
End AlertFacts.

Section AlertTheorems.
Import Alerts.
Implicit Types (s : State) (alert : Alert).

Lemma withPriority_defined alert p : priority alert = Some p → withPriority alert = alert.
Proof. destruct alert; simpl; intros ->; done. Qed.

Lemma values_addAlert_fresh alert s :
  id alert ∉ Js.keys s → id alert ≠ "__proto__" →
  Js.values (addAlert alert s) ≡ₚ withPriority alert :: Js.values s
  ∧ Js.keys (addAlert alert s) ≡ₚ id alert :: Js.keys s.
Proof.
  intros Hn Hid. destruct (addAlert_fresh alert s Hn Hid) as (s1 & s2 & -> & ->).
  unfold Js.values, Js.keys. rewrite !fmap_app, !fmap_cons. simpl.
  split; by rewrite Permutation_middle.
Qed.

Lemma currentAlert_head s : currentAlert s = head (alerts s).
Proof. unfold currentAlert. by destruct (alerts s). Qed.

Lemma Forall_set {V} (P : string * V → Prop) (o : Js.Object V) k v :
  Forall P o → P (k, v) → Forall P (Js.set o k v).
Proof.
  intros Ho Hkv. unfold Js.set. destruct (Js.has o k).
  - induction Ho as [|[k' v'] o Hx Ho IH]; simpl; [constructor|].
    destruct (decide (k' = k)); by constructor.
  - destruct (decide (k = "__proto__")); [done|].
    destruct (add_split o k v) as (o1 & o2 & -> & ->).
    apply Forall_app in Ho as [? ?]. apply Forall_app. split; [done|]. by constructor.
Qed.

(** In every state the module's functions lead to, the keys are unique, each
    alert is filed under its id, and each alert has a priority. *)
Lemma Reachable_invariant s :
  Reachable s →
  NoDup (Js.keys s)
  ∧ Forall (fun kv => kv.1 = id kv.2 ∧ is_Some (priority kv.2)) s.
Proof.
  induction 1 as [|alert s _ [IHk IHv]|alertId s _ [IHk IHv]|s _ _].
  - split; [apply NoDup_singleton | repeat constructor; by eexists].
  - split; [by apply NoDup_keys_set|].
    apply Forall_set; [done|]. split; [done | by eexists].
  - split; [by apply NoDup_keys_remove|]. unfold removeAlert, Js.remove.
    rewrite Forall_forall in IHv. apply Forall_forall.
    intros kv [_ Hin]%list_elem_of_filter. by apply IHv.
  - split; [apply NoDup_nil_2 | constructor].
Qed.

(** So the view of such a state is in descending order of the priorities'
    numbers. *)
Lemma alerts_sorted_Reachable s :
  Reachable s →
  StronglySorted
    (fun a b => ∃ p q, priority a = Some p ∧ priority b = Some q
                       ∧ priorityValue q ≤ priorityValue p)
    (alerts s).
Proof.
  intros [_ Hv]%Reachable_invariant.
  assert (Forall (fun a => is_Some (priority a)) (alerts s)) as Hall.
  { rewrite (orderBy_Permutation (Js.values s) priorityOf Lodash.desc).
    unfold Js.values. apply Forall_fmap. eapply Forall_impl; [exact Hv|].
    by intros kv [_ ?]. }
  pose proof (alerts_sorted s) as Hs.
  rewrite <- (list_fmap_id (alerts s)).
  eapply StronglySorted_fmap_Forall; [|exact Hall|exact Hs].
  intros a b [p Hp] [q Hq] Hab. unfold priorityGe in Hab. rewrite Hp, Hq in Hab.
  by exists p, q.
Qed.

Lemma keys_reachable s : Reachable s → Js.keys s = id <$> Js.values s.
Proof.
  intros [_ Hv]%Reachable_invariant. unfold Js.keys, Js.values.
  induction Hv as [|[k a] l [Hk _] _ IH]; [done|].
  rewrite !fmap_cons. simpl in *. by rewrite IH, Hk.
Qed.

Lemma NoDup_values_reachable s : Reachable s → NoDup (Js.values s).
Proof.
  intros Hr. apply (NoDup_fmap_1 id). rewrite <- keys_reachable by done.
  by apply Reachable_invariant.
Qed.

(** In a state the module's functions lead to, the alerts of the registry are
    those found under their own ids. *)
Lemma values_reachable_get s a :
  Reachable s → a ∈ Js.values s ↔ Js.get s (id a) = Some a.
Proof.
  intros [Hnd Hv]%Reachable_invariant. unfold Js.values. split.
  - intros ([k a'] & -> & Hin)%list_elem_of_fmap. simpl.
    rewrite Forall_forall in Hv. destruct (Hv _ Hin) as [Hk _]. simpl in Hk.
    subst k. by apply elem_of_get.
  - intros Hin%get_Some_elem_of. apply list_elem_of_fmap. by exists (id a, a).
Qed.

(** Whatever the registry held, after [addAlert] of three alerts with
    different ids, none of them [__proto__], and priorities LOW, HIGH,
    MEDIUM, the view lists these three in the order HIGH, MEDIUM, LOW, and
    starts with the HIGH one unless an alert of priority HIGH was there
    before. *)
Lemma alerts_after_three_adds s low high medium :
  Reachable s →
  priority low = Some LOW → priority high = Some HIGH →
  priority medium = Some MEDIUM →
  id low ≠ id high → id low ≠ id medium → id high ≠ id medium →
  id low ≠ "__proto__" → id high ≠ "__proto__" → id medium ≠ "__proto__" →
  filter (fun a => id a ∈ [id low; id high; id medium])
    (alerts (addAlert medium (addAlert high (addAlert low s))))
  = [high; medium; low]
  ∧ (Forall (fun a => priority a ≠ Some HIGH) (Js.values s) →
     currentAlert (addAlert medium (addAlert high (addAlert low s))) = Some high).
Proof.
  intros Hr Hl Hh Hm Hlh Hlm Hhm Pl Ph Pm.
  set (s3 := addAlert medium (addAlert high (addAlert low s))).
  assert (Reachable s3) as Hr3 by (by repeat apply reach_add).
  assert (∀ k, Js.get s3 k
               = if decide (k = id medium) then Some medium
                 else if decide (k = id high) then Some high
                      else if decide (k = id low) then Some low
                           else Js.get s k) as Hget.
  { intros k. unfold s3. rewrite !get_addAlert by done.
    by rewrite (withPriority_defined _ _ Hl), (withPriority_defined _ _ Hh),
      (withPriority_defined _ _ Hm). }
  assert (∀ a, a ∈ alerts s3 ↔ Js.get s3 (id a) = Some a) as Hmem.
  { intros a. unfold alerts. rewrite orderBy_Permutation.
    by apply values_reachable_get. }
  assert (high ∈ alerts s3) as Hhigh.
  { apply Hmem. rewrite Hget. rewrite decide_False by done. by rewrite decide_True. }
  split.
  - apply sorted_three; [done..| |apply StronglySorted_filter, alerts_sorted].
    apply NoDup_Permutation.
    + apply NoDup_filter. unfold alerts. rewrite orderBy_Permutation.
      by apply NoDup_values_reachable.
    + assert (low ≠ high) by (intros ->; congruence).
      assert (low ≠ medium) by (intros ->; congruence).
      assert (high ≠ medium) by (intros ->; congruence).
      repeat (apply NoDup_cons; split); try apply NoDup_nil_2;
        rewrite ?elem_of_cons, ?elem_of_nil; tauto.
    + intros a. rewrite list_elem_of_filter, Hmem, Hget.
      rewrite !elem_of_cons, !elem_of_nil. split.
      * intros [HP Hg]. repeat case_decide; simplify_eq; intuition congruence.
      * intros [->|[->|[->|[]]]]; repeat case_decide; simplify_eq;
          intuition congruence.
  - intros Hold. rewrite currentAlert_head.
    pose proof (alerts_sorted s3) as Hs.
    destruct (alerts s3) as [|a rest] eqn:Ea; [by apply elem_of_nil in Hhigh|].
    simpl. f_equal.
    assert (a ∈ a :: rest) as Ha by apply list_elem_of_here.
    apply Hmem in Ha.
    apply StronglySorted_inv in Hs as [_ Hall]. rewrite Forall_forall in Hall.
    apply elem_of_cons in Hhigh as [->|Hin]; [done|].
    apply Hall in Hin. unfold priorityGe in Hin. rewrite Hh in Hin.
    assert (is_Some (priority a)) as [p Hp].
    { apply Reachable_invariant in Hr3 as [_ Hv]. rewrite Forall_forall in Hv.
      apply get_Some_elem_of in Ha. by apply (Hv _ Ha). }
    rewrite Hget in Ha. rewrite Hp in Hin.
    assert (p = HIGH) as -> by (destruct p; simpl in Hin; first [done | lia]).
    repeat case_decide; simplify_eq; try done.
    rewrite Forall_forall in Hold. exfalso. apply (Hold a); [|done].
    apply values_reachable_get; done.
Qed.

(** C5, as stated, fails in its example: the registry as the module sets it
    up already holds the LOW alert ["v2-beta"], so after inserting alerts of
    priorities LOW, HIGH, MEDIUM the view holds four alerts, of priorities
    HIGH, MEDIUM, LOW, LOW, and is not the list of the three. *)
Example alerts_after_seed :
  id <$> alerts (addAlert (Sample.alert "m" (Some MEDIUM))
                   (addAlert (Sample.alert "h" (Some HIGH))
                      (addAlert (Sample.alert "l" (Some LOW)) alertsState)))
  = ["h"; "m"; "v2-beta"; "l"]
  ∧ priority <$> alerts (addAlert (Sample.alert "m" (Some MEDIUM))
                           (addAlert (Sample.alert "h" (Some HIGH))
                              (addAlert (Sample.alert "l" (Some LOW)) alertsState)))
    = [Some HIGH; Some MEDIUM; Some LOW; Some LOW]
  ∧ alerts (addAlert (Sample.alert "m" (Some MEDIUM))
              (addAlert (Sample.alert "h" (Some HIGH))
                 (addAlert (Sample.alert "l" (Some LOW)) alertsState)))
    ≠ [Sample.alert "h" (Some HIGH); Sample.alert "m" (Some MEDIUM);
       Sample.alert "l" (Some LOW)].
Proof.
  split; [reflexivity|]. split; [reflexivity|].
  intros Heq. apply (f_equal length) in Heq. vm_compute in Heq. discriminate Heq.
Qed.

(** C5, amended. For every registry state the [alerts] view holds the
    registered alerts, each once, in descending priority order, and
    [currentAlert] is its first element (none when the registry is empty).
    In particular, after [addAlert] of three alerts with different ids, none
    of them [__proto__], and priorities LOW, HIGH, MEDIUM in that order,
    [alerts] lists them HIGH, MEDIUM, LOW: they are the whole view in a
    registry emptied with [removeAllAlerts], and in any other registry the
    module's functions lead to they stand in this order among the alerts
    registered before. [currentAlert] then is the HIGH one, unless an alert
    of priority HIGH was registered before. *)
Theorem alerts_descending_currentAlert_first :
  (∀ s, alerts s ≡ₚ Js.values s
        ∧ StronglySorted priorityGe (alerts s)
        ∧ currentAlert s = head (alerts s))
  ∧ (∀ s low high medium,
       priority low = Some LOW →
       priority high = Some HIGH →
       priority medium = Some MEDIUM →
       id low ≠ id high → id low ≠ id medium → id high ≠ id medium →
       id low ≠ "__proto__" → id high ≠ "__proto__" → id medium ≠ "__proto__" →
       (alerts (addAlert medium (addAlert high (addAlert low (removeAllAlerts s))))
          = [high; medium; low]
        ∧ currentAlert
            (addAlert medium (addAlert high (addAlert low (removeAllAlerts s))))
          = Some high)
       ∧ (Reachable s →
          filter (fun a => id a ∈ [id low; id high; id medium])
            (alerts (addAlert medium (addAlert high (addAlert low s))))
          = [high; medium; low]
          ∧ (Forall (fun a => priority a ≠ Some HIGH) (Js.values s) →
             currentAlert (addAlert medium (addAlert high (addAlert low s)))
             = Some high))).
Proof.
  split.
  - intros s. split_and!.
    + apply orderBy_Permutation.
    + apply alerts_sorted.
    + apply currentAlert_head.
  - intros s low high medium Hl Hh Hm Hlh Hlm Hhm Pl Ph Pm. split.
    + unfold removeAllAlerts.
      destruct (values_addAlert_fresh low []) as [V1 K1];
        [apply not_elem_of_nil | done |].
      destruct (values_addAlert_fresh high (addAlert low [])) as [V2 K2]; [|done|].
      { rewrite K1. rewrite !not_elem_of_cons. split; [done | apply not_elem_of_nil]. }
      destruct (values_addAlert_fresh medium (addAlert high (addAlert low [])))
        as [V3 K3]; [|done|].
      { rewrite K2, K1. rewrite !not_elem_of_cons.
        split_and!; [done | done | apply not_elem_of_nil]. }
      rewrite V2, V1 in V3.
      rewrite (withPriority_defined _ _ Hl), (withPriority_defined _ _ Hh),
        (withPriority_defined _ _ Hm) in V3.
      assert (alerts (addAlert medium (addAlert high (addAlert low [])))
              = [high; medium; low]) as Ha.
      { apply alerts_three; [done..|]. rewrite V3.
        apply (Permutation_rev [medium; high; low]). }
      split; [done|]. rewrite currentAlert_head. by rewrite Ha.
    + intros Hr. by apply alerts_after_three_adds.
Qed.

Lemma alerts_descending_currentAlert_first_witness :
  (alerts (addAlert (Sample.alert "m" (Some MEDIUM))
             (addAlert (Sample.alert "h" (Some HIGH))
                (addAlert (Sample.alert "l" (Some LOW))
                   (removeAllAlerts alertsState))))
     = [Sample.alert "h" (Some HIGH); Sample.alert "m" (Some MEDIUM);
        Sample.alert "l" (Some LOW)]
   ∧ currentAlert
       (addAlert (Sample.alert "m" (Some MEDIUM))
          (addAlert (Sample.alert "h" (Some HIGH))
             (addAlert (Sample.alert "l" (Some LOW))
                (removeAllAlerts alertsState))))
     = Some (Sample.alert "h" (Some HIGH)))
  ∧ currentAlert
      (addAlert (Sample.alert "m" (Some MEDIUM))
         (addAlert (Sample.alert "h" (Some HIGH))
            (addAlert (Sample.alert "l" (Some LOW)) alertsState)))
    = Some (Sample.alert "h" (Some HIGH)).
Proof.
  destruct (proj2 alerts_descending_currentAlert_first alertsState
              (Sample.alert "l" (Some LOW)) (Sample.alert "h" (Some HIGH))
              (Sample.alert "m" (Some MEDIUM)))
    as [Hcleared Hany]; try first [reflexivity | discriminate].
  split; [exact Hcleared|].
  apply Hany; [apply reach_start|].
  repeat constructor. discriminate.
Defined.

(** C6. For every registry state and every alert whose id is registered,
    [addAlert] stores under that id the new alert alone: each field is the
    new alert's, the priority being LOW when the new alert has none, and no
    field of the old entry is kept. The registry keeps its keys, hence its
    number of entries, and every other entry; keys that were unique stay
    unique, and of two writes under one id the later is the one stored. *)
Theorem addAlert_replaces_entry s alert :
  id alert ∈ Js.keys s →
  Js.get (addAlert alert s) (id alert)
    = Some {| id := id alert;
              priority := Some (match priority alert with Some p => p | None => LOW end);
              label := label alert;
              type := type alert;
              actionLabel := actionLabel alert;
              action := action alert;
              actionOnClick := actionOnClick alert;
              persistent := persistent alert |}
  ∧ Js.keys (addAlert alert s) = Js.keys s
  ∧ length (addAlert alert s) = length s
  ∧ (∀ k, k ≠ id alert → Js.get (addAlert alert s) k = Js.get s k)
  ∧ (NoDup (Js.keys s) → NoDup (Js.keys (addAlert alert s)))
  ∧ (∀ later, id later = id alert →
       Js.get (addAlert later (addAlert alert s)) (id alert)
         = Some (withPriority later)).
Proof.
  intros Hin. unfold addAlert. split_and!.
  - rewrite get_set_present by done. unfold withPriority. by destruct (priority alert).
  - unfold Js.set. apply has_true in Hin. rewrite Hin. apply keys_replace.
  - by apply length_set_present.
  - intros k Hk. unfold Js.set. apply has_true in Hin. rewrite Hin.
    by apply get_replace_ne.
  - apply NoDup_keys_set.
  - intros later Hid. rewrite <- Hid. apply get_set_present. rewrite Hid.
    unfold Js.set. rewrite (proj2 (has_true s _) Hin). by rewrite keys_replace.
Qed.

Lemma addAlert_replaces_entry_witness :
  Js.get (addAlert (Sample.alert "v2-beta" None) alertsState) "v2-beta"
    = Some (Sample.alert "v2-beta" (Some LOW))
  ∧ length (addAlert (Sample.alert "v2-beta" None) alertsState) = 1%nat.
Proof.
  assert ("v2-beta" ∈ Js.keys alertsState) as Hin by (apply list_elem_of_here).
  pose proof (addAlert_replaces_entry alertsState (Sample.alert "v2-beta" None) Hin)
    as (Hget & _ & Hlen & _).
  split; [exact Hget | exact Hlen].
Defined.
End AlertTheorems.

(** ** Completions *)

Lemma bind_Return {A B} (c : Js.Completion A) (k : A → Js.Completion B) b :
  Js.bind c k = Js.Return b ↔ ∃ a, c = Js.Return a ∧ k a = Js.Return b.
Proof.
  destruct c as [a|e]; simpl.
  - split; [by exists a | by intros (? & [= ->] & ?)].
  - split; [done | by intros (? & [=] & _)].
Qed.

Ltac bind_inv H :=
  repeat match type of H with
         | Js.bind _ _ = Js.Return _ =>
             let a := fresh "a" in
             let E := fresh "E" in
             apply bind_Return in H as (a & E & H)
         end.

(** ** The user-pools query: decoration *)

Section DecorationFacts.
Import Subgraph UserPools.
Context `{Services} `{Ethers.Address}.

Lemma injectLinearPool_frame acc linearPool acc' :
  injectLinearPool acc linearPool = Js.Return acc' →
  id acc'.1 = id acc.1
  ∧ poolType acc'.1 = poolType acc.1
  ∧ tokensList acc'.1 = tokensList acc.1
  ∧ totalLiquidity acc'.1 = totalLiquidity acc.1
  ∧ totalShares acc'.1 = totalShares acc.1.
Proof.
  destruct acc as [pool m]. unfold injectLinearPool. intros Hr.
  bind_inv Hr. by injection Hr as <-.
Qed.

Lemma foldC_injectLinearPool_frame l acc acc' :
  Js.foldC injectLinearPool l acc = Js.Return acc' →
  id acc'.1 = id acc.1
  ∧ poolType acc'.1 = poolType acc.1
  ∧ tokensList acc'.1 = tokensList acc.1
  ∧ totalLiquidity acc'.1 = totalLiquidity acc.1
  ∧ totalShares acc'.1 = totalShares acc.1.
Proof.
  revert acc. induction l as [|x l IH]; simpl; intros acc Hr.
  - by injection Hr as <-.
  - bind_inv Hr. apply IH in Hr as (-> & -> & -> & -> & ->).
    by apply injectLinearPool_frame in E.
Qed.

Lemma getLinearPoolAttrs_frame fetched pool pool' :
  getLinearPoolAttrs fetched pool = Js.Return pool' →
  id pool' = id pool
  ∧ poolType pool' = poolType pool
  ∧ tokensList pool' = tokensList pool
  ∧ totalLiquidity pool' = totalLiquidity pool
  ∧ totalShares pool' = totalShares pool.
Proof.
  unfold getLinearPoolAttrs. intros Hr. bind_inv Hr.
  destruct a as [p m]. injection Hr as <-.
  by apply foldC_injectLinearPool_frame in E.
Qed.

(** What the loop body does to the fields read later on. *)
Lemma decoratePool_frame fetched pool pool' :
  decoratePool fetched pool = Js.Return pool' →
  id pool' = id pool
  ∧ poolType pool' = poolType pool
  ∧ tokensList pool'
    = (if isStablePhantom (poolType pool)
       then filter (fun a => a ≠ Js.toLowerCase (addressFor (id pool))) (tokensList pool)
       else tokensList pool).
Proof.
  unfold decoratePool. intros Hr.
  set (p := if isStablePhantom (poolType pool) then removePreMintedBPT pool else pool) in *.
  assert (id p = id pool ∧ poolType p = poolType pool
          ∧ tokensList p
            = (if isStablePhantom (poolType pool)
               then filter (fun a => a ≠ Js.toLowerCase (addressFor (id pool)))
                      (tokensList pool)
               else tokensList pool)) as (Hi & Ht & Hl).
  { unfold p. by destruct (isStablePhantom (poolType pool)). }
  destruct (linearPools p).
  - apply getLinearPoolAttrs_frame in Hr as (-> & -> & -> & _). by rewrite Hi, Ht, Hl.
  - injection Hr as <-. by rewrite Hi, Ht, Hl.
Qed.

Lemma decoratePoolsFrom_Forall2 linearFetch i pools pools' :
  decoratePoolsFrom linearFetch i pools = Js.Return pools' →
  Forall2 (fun pool pool' => ∃ fetched, decoratePool fetched pool = Js.Return pool')
    pools pools'.
Proof.
  revert i pools'. induction pools as [|pool pools IH]; simpl; intros i pools' Hr.
  - injection Hr as <-. constructor.
  - bind_inv Hr. injection Hr as <-. constructor; [by eexists | by eapply IH].
Qed.
End DecorationFacts.

(** ** The user-pools query: the pool's own address in its token list *)

Section PreMintedBPTExample.
Import Subgraph UserPools UserPoolsSpec Sample.

(** C2, as stated, fails: the filter compares each entry as it is with the
    lower-case form of the pool's address, so an entry that spells the
    address with other letter cases stays in the list. *)
Lemma removePreMintedBPT_keeps_other_case :
  isStablePhantom (poolType Sample.phantomPool) = true
  ∧ decoratePool [] Sample.phantomPool
    = Js.Return (removePreMintedBPT Sample.phantomPool)
  ∧ tokensList (removePreMintedBPT Sample.phantomPool)
    = [Sample.hex "b1"; "0x00000000000000000000000000000000000000AA"]
  ∧ sameAddress "0x00000000000000000000000000000000000000AA"
      (addressFor (id Sample.phantomPool)).
Proof. split_and!; reflexivity. Qed.
End PreMintedBPTExample.

Section PreMintedBPT.
Import Subgraph UserPools UserPoolsSpec.
Context `{Services} `{Ethers.Address}.

(** C2, amended. For every StablePhantom-family pool, after the decoration
    step the pool's [tokensList] is the old one without the entries equal to
    the lower-case form of the pool's own derived address, the other
    entries kept in order. So it holds no entry equal to that lower-case
    address, and no entry written in lower case that equals the pool's
    address under case-insensitive comparison. *)
Theorem decorated_tokensList_without_own_address pool fetched pool' :
  isStablePhantom (poolType pool) = true →
  decoratePool fetched pool = Js.Return pool' →
  tokensList pool'
    = filter (fun a => a ≠ Js.toLowerCase (addressFor (id pool))) (tokensList pool)
  ∧ (Js.toLowerCase (addressFor (id pool)) ∉ tokensList pool')
  ∧ (∀ a, a ∈ tokensList pool' → Js.toLowerCase a = a →
          ¬ sameAddress a (addressFor (id pool))).
Proof.
  intros Hsp Hr. apply decoratePool_frame in Hr as (_ & _ & Hl).
  rewrite Hsp in Hl. rewrite Hl. split_and!; [done | |].
  - intros [Hne _]%list_elem_of_filter. by apply Hne.
  - intros a [Hne _]%list_elem_of_filter Hlow. unfold sameAddress. by rewrite Hlow.
Qed.
End PreMintedBPT.

Section PreMintedBPTWitness.
Import Subgraph UserPools UserPoolsSpec Sample.

Lemma decorated_tokensList_without_own_address_witness :
  tokensList (removePreMintedBPT phantomPool)
    = filter (fun a => a ≠ Js.toLowerCase (addressFor (id phantomPool)))
        (tokensList phantomPool)
  ∧ hex "aa" ∉ tokensList (removePreMintedBPT phantomPool).
Proof.
  pose proof (decorated_tokensList_without_own_address
                phantomPool [] (removePreMintedBPT phantomPool)
                eq_refl eq_refl) as (Hl & Hn & _).
  split; [exact Hl | exact Hn].
Defined.
End PreMintedBPTWitness.

(** ** The user-pools query: the token list *)

Section TokensExample.
Import Subgraph UserPools UserPoolsSpec Sample.

(** C7, as stated, fails: the lists of the pools are joined end to end and
    nothing removes a repeated address; a token of two pools is listed
    twice. *)
Lemma queryFn_tokens_repeat_shared_token :
  ∃ r, queryFn [] [poolOne BigNumber.zero BigNumber.zero;
                   poolTwo BigNumber.zero BigNumber.zero] (fun _ => [])
       = Js.Return r
       ∧ tokens r = [hex "e1"; hex "e2"; hex "d1"; hex "e1"; hex "e3"; hex "d2"]
       ∧ ¬ NoDup (tokens r).
Proof.
  eexists. split; [vm_compute; reflexivity|]. split; [reflexivity|].
  cbn [tokens]. intros Hnd. apply NoDup_cons in Hnd as [Hn _]. apply Hn.
  do 2 apply list_elem_of_further. apply list_elem_of_here.
Qed.
End TokensExample.

Section Tokens.
Import Subgraph UserPools UserPoolsSpec.
Context `{Services} `{Ethers.Address} `{BigNumber.Config}.

Lemma elem_of_concat {A} (x : A) (ls : list (list A)) :
  x ∈ concat ls ↔ ∃ l, x ∈ l ∧ l ∈ ls.
Proof.
  induction ls as [|l ls IH]; simpl.
  - split; [by intros ?%elem_of_nil | by intros (? & _ & ?%elem_of_nil)].
  - rewrite elem_of_app, IH. split.
    + intros [?|(l' & ? & ?)]; [exists l | exists l']; split; try done;
        rewrite elem_of_cons; tauto.
    + intros (l' & Hx & [->|?]%elem_of_cons); [by left | right; by exists l'].
Qed.

(** C7, amended. For every fetched pool list, the [tokens] field of the
    query's result is the concatenation, pool by pool in the fetched order,
    of each decorated pool's constituent token addresses, its liquidity-pool
    token addresses and its own pool address. It holds exactly the addresses
    of that union, but an address that occurs several times in these lists
    occurs as often in [tokens]: nothing removes a repeated address. *)
Theorem queryFn_tokens_concatenation poolShares fetched linearFetch r :
  queryFn poolShares fetched linearFetch = Js.Return r →
  ∃ decorated,
    decoratePoolsFrom linearFetch 0 fetched = Js.Return decorated
    ∧ Forall2 (fun pool pool' =>
                 id pool' = id pool
                 ∧ tokensList pool'
                   = if isStablePhantom (poolType pool)
                     then filter (fun a => a ≠ Js.toLowerCase (addressFor (id pool)))
                            (tokensList pool)
                     else tokensList pool)
        fetched decorated
    ∧ tokens r
      = concat ((fun pool => tokensList pool ++ lpTokensFor pool ++ [addressFor (id pool)])
                  <$> decorated)
    ∧ (∀ a, a ∈ tokens r ↔
            ∃ pool, pool ∈ decorated
                    ∧ (a ∈ tokensList pool ∨ a ∈ lpTokensFor pool
                       ∨ a = addressFor (id pool))).
Proof.
  unfold queryFn. intros Hr.
  destruct (decoratePoolsFrom linearFetch 0 fetched) as [decorated|e] eqn:Hd; [|done].
  simpl in Hr. injection Hr as <-. exists decorated. split; [reflexivity|].
  simpl. split_and!; [| done |].
  - apply decoratePoolsFrom_Forall2 in Hd.
    eapply Forall2_impl; [exact Hd|]. simpl.
    intros pool pool' [f (Hi & _ & Hl)%decoratePool_frame]. done.
  - intros a. unfold Lodash.flatten. rewrite elem_of_concat. split.
    + intros (l & Ha & Hl). apply list_elem_of_fmap in Hl as (pool & -> & Hp).
      exists pool. split; [done|].
      rewrite !elem_of_app, list_elem_of_singleton in Ha. tauto.
    + intros (pool & Hp & Ha).
      exists (tokensList pool ++ lpTokensFor pool ++ [addressFor (id pool)]). split.
      * rewrite !elem_of_app, list_elem_of_singleton. tauto.
      * apply list_elem_of_fmap. by exists pool.
Qed.
End Tokens.

Section TokensWitness.
Import Subgraph UserPools UserPoolsSpec Sample.

Lemma queryFn_tokens_concatenation_witness :
  ∃ r,
    queryFn [] [poolOne BigNumber.zero BigNumber.zero;
                poolTwo BigNumber.zero BigNumber.zero] (fun _ => [])
    = Js.Return r
    ∧ tokens r = [hex "e1"; hex "e2"; hex "d1"; hex "e1"; hex "e3"; hex "d2"].
Proof.
  destruct (queryFn [] [poolOne BigNumber.zero BigNumber.zero;
                        poolTwo BigNumber.zero BigNumber.zero] (fun _ => []))
    as [r|e] eqn:E; [|vm_compute in E; discriminate E].
  exists r. split; [reflexivity|].
  destruct (queryFn_tokens_concatenation _ _ _ _ E) as (decorated & Hd & _ & Ht & _).
  assert (decorated = [poolOne BigNumber.zero BigNumber.zero;
                       poolTwo BigNumber.zero BigNumber.zero]) as ->
    by (symmetry; by injection Hd).
  exact Ht.
Defined.
End TokensWitness.

(** ** The user-pools query: wrapped tokens of linear pools *)

Section WrappedTokensExample.
Import Subgraph UserPools UserPoolsSpec Sample.

(** C3, as stated, fails for a fetched Linear pool that the parent does not
    hold: [indexOf] answers [-1] for each of them, every such pool writes
    the array's property [-1], and the last one wins. Here the parent holds
    [a1] alone; the wrapped token of [a2] is nowhere in [wrappedTokens]. *)
Lemma getLinearPoolAttrs_unreferenced_linear_pool :
  ∃ pool' linearPool,
    getLinearPoolAttrs fetchedPools parentPool = Js.Return pool'
    ∧ fetchedPools !! 1%nat = Some linearPool
    ∧ poolType linearPool = "Linear"
    ∧ Js.indexOf (tokensList parentPool) (Js.toLowerCase (address linearPool)) = -1
    ∧ checksumWrappedToken linearPool
      = Some "0x00000000000000000000000000000000000000C2"
    ∧ wrappedTokens pool'
      = Some {[ 0 := "0x00000000000000000000000000000000000000C1";
                -1 := "0x00000000000000000000000000000000000000C3" ]}
    ∧ wrappedTokenAt pool' (-1) ≠ checksumWrappedToken linearPool
    ∧ (∀ idx, wrappedTokenAt pool' idx ≠ checksumWrappedToken linearPool).
Proof.
  eexists _, _. split; [vm_compute; reflexivity|].
  split; [reflexivity|]. split; [reflexivity|]. split; [reflexivity|].
  split; [reflexivity|].
  assert (∀ idx : Z,
            ({[ 0 := "0x00000000000000000000000000000000000000C1";
                -1 := "0x00000000000000000000000000000000000000C3" ]} : gmap Z string)
              !! idx ≠ Some "0x00000000000000000000000000000000000000C2") as Hno.
  { intros idx. destruct (decide (idx = 0)) as [->|]; [by rewrite lookup_insert_eq|].
    rewrite lookup_insert_ne by done.
    destruct (decide (idx = -1)) as [->|]; [by rewrite lookup_singleton_eq|].
    by rewrite lookup_singleton_ne. }
  split_and!.
  - apply (f_equal Some). apply map_eq. intros i. by vm_compute.
  - apply Hno.
  - intros idx. apply Hno.
Qed.
End WrappedTokensExample.

Section WrappedTokens.
Import Subgraph UserPools UserPoolsSpec.
Context `{Ethers.Address}.

Lemma indexOfFrom_found l x i j :
  Js.indexOfFrom l x i = j → 0 ≤ i → 0 ≤ j →
  i ≤ j ∧ l !! Z.to_nat (j - i) = Some x.
Proof.
  revert i. induction l as [|y l IH]; simpl; intros i Hj Hi H0; [lia|].
  destruct (decide (y = x)) as [->|Hne].
  - subst j. split; [lia|]. by replace (i - i) with 0 by lia.
  - apply IH in Hj as [Hle Hl]; [|lia|lia]. split; [lia|].
    replace (Z.to_nat (j - i)) with (S (Z.to_nat (j - (i + 1)))) by lia. done.
Qed.

Lemma indexOf_found l x j :
  Js.indexOf l x = j → 0 ≤ j → l !! Z.to_nat j = Some x.
Proof.
  intros Hj H0. apply indexOfFrom_found in Hj as [_ Hl]; [|lia|lia].
  by replace (j - 0) with j in Hl by lia.
Qed.

Lemma wrappedTokenAt_default pool idx :
  wrappedTokenAt pool idx = default ∅ (wrappedTokens pool) !! idx.
Proof. unfold wrappedTokenAt. by destruct (wrappedTokens pool). Qed.

Lemma injectLinearPool_wrapped pool m linearPool pool1 m1 :
  injectLinearPool (pool, m) linearPool = Js.Return (pool1, m1) →
  ∃ w, checksumWrappedToken linearPool = Some w
       ∧ tokensList pool1 = tokensList pool
       ∧ wrappedTokens pool1
         = Some (<[slot pool linearPool := w]> (default ∅ (wrappedTokens pool))).
Proof.
  unfold injectLinearPool, Ethers.getAddressOf, checksumWrappedToken. intros Hr.
  bind_inv Hr. injection Hr as <- <-.
  destruct (_ ≫= Ethers.getAddress) as [w|]; [|done].
  injection E as <-. by exists w.
Qed.

Lemma foldC_injectLinearPool_other l pool m pool' m' idx :
  Js.foldC injectLinearPool l (pool, m) = Js.Return (pool', m') →
  (∀ linearPool, linearPool ∈ l → slot pool linearPool ≠ idx) →
  wrappedTokenAt pool' idx = wrappedTokenAt pool idx.
Proof.
  revert pool m. induction l as [|x l IH]; simpl; intros pool m Hr Hne.
  - by injection Hr as <- <-.
  - bind_inv Hr. destruct a as [pool1 m1].
    apply injectLinearPool_wrapped in E as (w & _ & Hl & Hw).
    rewrite (IH _ _ Hr).
    + rewrite !wrappedTokenAt_default, Hw. simpl.
      apply lookup_insert_ne. apply Hne, list_elem_of_here.
    + intros lp Hlp. unfold slot. rewrite Hl. apply Hne. by apply list_elem_of_further.
Qed.

Lemma foldC_injectLinearPool_wrapped l pool m pool' m' linearPool :
  Js.foldC injectLinearPool l (pool, m) = Js.Return (pool', m') →
  NoDup ((fun lp => Js.toLowerCase (address lp)) <$> l) →
  linearPool ∈ l →
  0 ≤ slot pool linearPool →
  ∃ w, checksumWrappedToken linearPool = Some w
       ∧ wrappedTokenAt pool' (slot pool linearPool) = Some w.
Proof.
  revert pool m. induction l as [|x l IH]; simpl; intros pool m Hr Hnd Hin Hpos.
  - by apply elem_of_nil in Hin.
  - bind_inv Hr. destruct a as [pool1 m1].
    apply injectLinearPool_wrapped in E as (w & Hc & Hl & Hw).
    apply NoDup_cons in Hnd as [Hx Hnd].
    apply elem_of_cons in Hin as [->|Hin].
    + exists w. split; [done|].
      rewrite (foldC_injectLinearPool_other _ _ _ _ _ _ Hr).
      * rewrite wrappedTokenAt_default, Hw. simpl. apply lookup_insert_eq.
      * intros lp Hlp Heq. apply Hx. apply list_elem_of_fmap. exists lp. split; [|done].
        unfold slot in Heq, Hpos. rewrite Hl in Heq.
        pose proof (indexOf_found _ _ _ eq_refl Hpos) as Hx1.
        rewrite <- Heq in Hpos.
        pose proof (indexOf_found _ _ _ eq_refl Hpos) as Hx2.
        rewrite Heq in Hx2. congruence.
    + assert (slot pool1 linearPool = slot pool linearPool) as Hs
        by (unfold slot; by rewrite Hl).
      rewrite <- Hs. eapply IH; [exact Hr | done | done | by rewrite Hs].
Qed.

Lemma foldC_addLinearPoolToken_returns (l : list PoolToken) m :
  Forall (fun token => is_Some (Ethers.getAddress (token_address token))) l →
  ∃ m', Js.foldC addLinearPoolToken l m = Js.Return m'.
Proof.
  intros Hl. revert m. induction Hl as [|token l [a Ha] _ IH]; intros m; simpl.
  - by eexists.
  - unfold addLinearPoolToken at 1, Ethers.getAddressOf. simpl. rewrite Ha. simpl.
    apply IH.
Qed.

(** [getLinearPoolAttrs] returns when the wrapped token and the tokens of
    every fetched Linear pool are addresses. *)
Lemma getLinearPoolAttrs_returns fetched pool :
  Forall (fun linearPool =>
            is_Some (checksumWrappedToken linearPool)
            ∧ Forall (fun token => is_Some (Ethers.getAddress (token_address token)))
                (Subgraph.tokens linearPool))
    (linearPoolsOf fetched) →
  ∃ pool', getLinearPoolAttrs fetched pool = Js.Return pool'.
Proof.
  unfold getLinearPoolAttrs. fold (linearPoolsOf fetched). intros Hall.
  assert (∀ acc, ∃ acc', Js.foldC injectLinearPool (linearPoolsOf fetched) acc
                         = Js.Return acc') as Hfold.
  { induction Hall as [|lp l [[w Hw] Htok] _ IH]; intros [p m]; simpl; [by eexists|].
    unfold Ethers.getAddressOf. unfold checksumWrappedToken in Hw. rewrite Hw. simpl.
    destruct (foldC_addLinearPoolToken_returns
                (filter (fun token => token_address token ≠ address lp)
                   (Subgraph.tokens lp)) m) as [m' ->].
    - rewrite Forall_forall in Htok. apply Forall_forall.
      intros token [_ Hin]%list_elem_of_filter. by apply Htok.
    - simpl. apply IH. }
  destruct (Hfold (pool, ∅)) as [[p m] ->]. simpl. by eexists.
Qed.

(** C3, amended. For every parent pool and every fetched Linear-type pool
    whose lower-case address occurs in the parent's [tokensList], when the
    fetched Linear pools have pairwise different lower-case addresses: after
    [getLinearPoolAttrs] the parent's [wrappedTokens] at index [idx], the
    first position of that address in the parent's [tokensList], is the
    checksum-formatted address of the linear pool's token at its
    [wrappedIndex]. *)
Theorem getLinearPoolAttrs_wrappedTokens fetched pool pool' linearPool idx :
  getLinearPoolAttrs fetched pool = Js.Return pool' →
  linearPool ∈ fetched →
  poolType linearPool = "Linear" →
  Js.indexOf (tokensList pool) (Js.toLowerCase (address linearPool)) = idx →
  0 ≤ idx →
  NoDup ((fun lp => Js.toLowerCase (address lp)) <$> linearPoolsOf fetched) →
  tokensList pool !! Z.to_nat idx = Some (Js.toLowerCase (address linearPool))
  ∧ ∃ w, checksumWrappedToken linearPool = Some w
         ∧ wrappedTokenAt pool' idx = Some w.
Proof.
  unfold getLinearPoolAttrs. intros Hr Hin Hlin Hidx Hpos Hnd.
  split; [by apply indexOf_found|].
  bind_inv Hr. destruct a as [p m]. injection Hr as <-.
  subst idx. fold (slot pool linearPool).
  destruct (foldC_injectLinearPool_wrapped _ _ _ _ _ linearPool E Hnd)
    as (w & Hc & Hw); [by apply list_elem_of_filter | done |].
  exists w. split; [done|].
  unfold wrappedTokenAt in *. by destruct p.
Qed.
End WrappedTokens.

Section WrappedTokensWitness.
Import Subgraph UserPools UserPoolsSpec Sample.

Lemma getLinearPoolAttrs_wrappedTokens_witness :
  ∃ pool',
    getLinearPoolAttrs fetchedPools parentPool = Js.Return pool'
    ∧ tokensList parentPool !! 0%nat = Some (hex "a1")
    ∧ ∃ w, checksumWrappedToken (linearPool (hex "a1") (hex "11") (hex "c1")) = Some w
           ∧ wrappedTokenAt pool' 0 = Some w.
Proof.
  destruct (getLinearPoolAttrs fetchedPools parentPool) as [pool'|e] eqn:E;
    [|vm_compute in E; discriminate E].
  exists pool'. split; [reflexivity|].
  apply (getLinearPoolAttrs_wrappedTokens fetchedPools parentPool pool'
           (linearPool (hex "a1") (hex "11") (hex "c1")) 0 E).
  - apply list_elem_of_here.
  - reflexivity.
  - reflexivity.
  - lia.
  - apply (bool_decide_unpack _). vm_compute. exact I.
Defined.
End WrappedTokensWitness.

(** ** BigNumber arithmetic *)

Section BigNumberFacts.
Import BigNumber.
Local Open Scope Qc_scope.

Lemma plus_comm x y : plus x y = plus y x.
Proof.
  destruct x as [|s|a], y as [|s'|b]; simpl; try done.
  - destruct s, s'; done.
  - by rewrite Qcplus_comm.
Qed.

Lemma plus_assoc x y z : plus x (plus y z) = plus (plus x y) z.
Proof.
  destruct x as [|s|a], y as [|s'|b], z as [|s''|c]; simpl; try done;
    try (destruct s; done); try (destruct s'; done);
    try (destruct s, s'; done); try (destruct s', s''; done);
    try (destruct s, s''; done).
  - destruct s, s', s''; done.
  - by rewrite Qcplus_assoc.
Qed.

Lemma plus_zero_r x : plus x zero = x.
Proof. destruct x as [|s|a]; simpl; try done. by rewrite Qcplus_0_r. Qed.

Lemma plus_zero_l x : plus zero x = x.
Proof. by rewrite plus_comm, plus_zero_r. Qed.

(** [reduce] from the left adds up to the sum. *)
Lemma foldl_plus_sum l x : foldl plus x l = plus x (UserPoolsSpec.sum l).
Proof.
  revert x. induction l as [|y l IH]; intros x; simpl.
  - by rewrite plus_zero_r.
  - by rewrite IH, plus_assoc.
Qed.

Lemma roundQuotient_nonneg rm n d :
  (0 ≤ n)%Z → (0 < d)%Z → (0 ≤ roundQuotient rm n d)%Z.
Proof.
  intros Hn Hd. unfold roundQuotient.
  assert (0 ≤ n / d)%Z by (apply Z.div_pos; lia).
  destruct (n mod d =? 0)%Z; [done|].
  destruct rm; repeat case_match; lia.
Qed.

Lemma Qcle_0_num (x : Qc) : 0 ≤ x ↔ (0 ≤ Qnum x)%Z.
Proof.
  unfold Qcle, Qle. simpl. rewrite Z.mul_1_r. done.
Qed.

Lemma round_nonneg dp rm x : 0 ≤ x → 0 ≤ round dp rm x.
Proof.
  intros Hx%Qcle_0_num. unfold round. apply Qcle_0_num.
  assert (0 < 10 ^ Z.of_nat dp)%Z by (apply Z.pow_pos_nonneg; lia).
  pose proof (roundQuotient_nonneg rm (Qnum x * 10 ^ Z.of_nat dp) (Z.pos (Qden x)))
    as Hr.
  assert (0 ≤ roundQuotient rm (Qnum x * 10 ^ Z.of_nat dp) (Z.pos (Qden x)))%Z
    as Hq by (apply Hr; lia).
  simpl. set (q := roundQuotient _ _ _) in *. clearbody q.
  unfold Qred. destruct (Z.ggcd q _) as [g [a b]] eqn:Eg. simpl.
  pose proof (Z.ggcd_correct_divisors q (Z.pos (Z.to_pos (10 ^ Z.of_nat dp)))) as Hdiv.
  pose proof (Z.ggcd_gcd q (Z.pos (Z.to_pos (10 ^ Z.of_nat dp)))) as Hg.
  rewrite Eg in Hdiv, Hg. simpl in Hdiv, Hg. destruct Hdiv as [Hqa Hb].
  assert (0 ≤ g)%Z by (rewrite Hg; apply Z.gcd_nonneg).
  assert (g ≠ 0)%Z by (intros ->; lia).
  nia.
Qed.

Lemma div_finite `{Config} a b :
  b ≠ 0 → div (Finite a) (Finite b) = Finite (round DECIMAL_PLACES ROUNDING_MODE (a / b)).
Proof.
  intros Hb. unfold div, isZero. by rewrite bool_decide_false.
Qed.

Lemma Qcdiv_nonneg a b : 0 ≤ a → 0 < b → 0 ≤ a / b.
Proof.
  intros Ha Hb. unfold Qcdiv. apply Qcmult_nonneg_nonneg; [done|].
  apply Qclt_le_weak. by apply Qcinv_pos.
Qed.

(** The value of one pool's share when the amounts are finite, none is
    negative and the total shares are not zero. *)
Lemma times_div_nonNegative `{Config} liquidity totalShares balance :
  finite liquidity → nonNegative liquidity →
  positive totalShares →
  finite balance → nonNegative balance →
  finite (times (div liquidity totalShares) balance)
  ∧ nonNegative (times (div liquidity totalShares) balance).
Proof.
  destruct liquidity as [| |a], totalShares as [| |b], balance as [| |c]; simpl; try done.
  intros _ Ha Hb _ Hc.
  assert (b ≠ 0) as Hb0 by (intros ->; by apply Qclt_not_eq in Hb).
  fold (div (Finite a) (Finite b)). rewrite (div_finite a b Hb0). simpl.
  split; [done|]. apply Qcmult_nonneg_nonneg; [|done].
  apply round_nonneg. by apply Qcdiv_nonneg.
Qed.

Lemma sum_nonNegative l :
  Forall (fun x => finite x ∧ nonNegative x) l →
  finite (UserPoolsSpec.sum l) ∧ nonNegative (UserPoolsSpec.sum l).
Proof.
  induction 1 as [|x l [Hf Hx] _ [IHf IH]]; simpl.
  - split; [done|]. apply Qcle_refl.
  - destruct x as [| |a]; [done..|]. destruct (UserPoolsSpec.sum l) as [| |b]; [done..|].
    simpl in *. split; [done|]. by apply Qcplus_nonneg_nonneg.
Qed.
End BigNumberFacts.

(** ** The user-pools query: the invested amount *)

Section InvestedAmountExample.
Import Subgraph UserPools UserPoolsSpec Sample.

(** C1, as stated, fails in its last part: a pool whose total shares are
    zero makes the quotient [NaN] (zero liquidity) or [Infinity], and the sum
    is then no number at or above zero although no input is negative. *)
Lemma queryFn_total_NaN_on_zero_totalShares :
  ∃ r, queryFn [share (poolOne (amount 0 1) (amount 0 1)) (amount 1 1)]
         [poolOne (amount 0 1) (amount 0 1)] (fun _ => [])
       = Js.Return r
       ∧ BigNumber.nonNegative (amount 0 1)
       ∧ BigNumber.nonNegative (amount 1 1)
       ∧ totalInvestedAmount r = BigNumber.NaN
       ∧ ¬ BigNumber.nonNegative (totalInvestedAmount r).
Proof.
  eexists. split; [vm_compute; reflexivity|].
  split; [by vm_compute|]. split; [by vm_compute|].
  split; [reflexivity|]. intros Hn. exact Hn.
Qed.
End InvestedAmountExample.

Section InvestedAmount.
Import Subgraph UserPools UserPoolsSpec.
Context `{Services} `{Ethers.Address} `{BigNumber.Config}.

(** The user's pools, filtered by id before the loop, are the decorated
    pools with these ids: the loop keeps every pool's id. *)
Lemma pick_decorated (poolShares : list PoolShare) linearFetch i fetched decorated :
  decoratePoolsFrom linearFetch i fetched = Js.Return decorated →
  Js.pick ((fun pool => bool_decide (id pool ∈ poolId <$> poolShares)) <$> fetched)
    decorated
  = filter (fun pool => id pool ∈ poolId <$> poolShares) decorated.
Proof.
  intros Hd%decoratePoolsFrom_Forall2. unfold Js.pick.
  induction Hd as [|p p' l l' [f (Hi & _)%decoratePool_frame] _ IH]; [done|].
  rewrite fmap_cons. cbn [zip zip_with]. rewrite !filter_cons. cbn [fst].
  rewrite <- Hi. destruct (decide (id p' ∈ poolId <$> poolShares)) as [Hin|Hin].
  - rewrite bool_decide_true by done. rewrite decide_True by done.
    rewrite fmap_cons. cbn [snd]. by rewrite IH.
  - rewrite bool_decide_false by done. rewrite decide_False by done. apply IH.
Qed.

Lemma keyBy_snoc {A} (l : list A) (f : A → string) x :
  Lodash.keyBy (l ++ [x]) f = <[f x := x]> (Lodash.keyBy l f).
Proof. unfold Lodash.keyBy. by rewrite foldl_app. Qed.

(** Looking a key up in [keyBy]'s object finds the last element filed under
    it. *)
Lemma keyBy_lookup {A} (l : list A) (f : A → string) k :
  Lodash.keyBy l f !! k = last (filter (fun x => f x = k) l).
Proof.
  induction l as [|x l IH] using rev_ind; [done|].
  rewrite keyBy_snoc, filter_app, filter_cons, filter_nil.
  destruct (decide (f x = k)) as [<-|Hne].
  - by rewrite lookup_insert_eq, last_snoc.
  - by rewrite lookup_insert_ne, app_nil_r.
Qed.

Lemma balanceOf_keyBy poolShares k :
  balanceOf (Lodash.keyBy poolShares poolId) k = userSharesBalance poolShares k.
Proof. unfold balanceOf, userSharesBalance, matchingShare. by rewrite keyBy_lookup. Qed.

Lemma matchingShare_None poolShares k :
  (∀ s, s ∈ poolShares → poolId s ≠ k) → matchingShare poolShares k = None.
Proof.
  intros Hno. unfold matchingShare.
  replace (filter (fun s => poolId s = k) poolShares) with (@nil PoolShare); [done|].
  induction poolShares as [|s l IH]; [done|].
  rewrite filter_cons. destruct (decide (poolId s = k)) as [Hk|_].
  - exfalso. by apply (Hno s), Hk; apply list_elem_of_here.
  - apply IH. intros s' Hs'. apply Hno. by apply list_elem_of_further.
Qed.

Lemma matchingShare_Some poolShares k s :
  matchingShare poolShares k = Some s → s ∈ poolShares ∧ poolId s = k.
Proof.
  unfold matchingShare. intros Hl. apply last_Some in Hl as [l' Hl].
  assert (s ∈ filter (fun s => poolId s = k) poolShares) as Hin
    by (rewrite Hl, elem_of_app, list_elem_of_singleton; by right).
  apply list_elem_of_filter in Hin as [? ?]. done.
Qed.

Lemma userSharesBalance_nonNegative poolShares k :
  Forall (fun s => BigNumber.finite (balance s) ∧ BigNumber.nonNegative (balance s))
    poolShares →
  BigNumber.finite (userSharesBalance poolShares k)
  ∧ BigNumber.nonNegative (userSharesBalance poolShares k).
Proof.
  intros Hall. unfold userSharesBalance.
  destruct (matchingShare poolShares k) as [s|] eqn:E.
  - apply matchingShare_Some in E as [Hs _].
    rewrite Forall_forall in Hall. by apply Hall.
  - split; [done|]. apply Qcle_refl.
Qed.

(** C1, amended. For every list of fetched pools and pool-share records on
    which the decoration goes through, the query returns, and its
    [totalInvestedAmount] equals the sum over the user's pools of
    [(totalLiquidity / totalShares) * userSharesBalance], the quotient being
    BigNumber's, with zero balance for any pool with no matching share
    record. The sum is a number at or above zero whenever every amount is
    finite, no amount is negative and the total shares of every user pool are
    above zero. *)
Theorem queryFn_totalInvestedAmount poolShares fetched linearFetch decorated :
  decoratePoolsFrom linearFetch 0 fetched = Js.Return decorated →
  ∃ r, queryFn poolShares fetched linearFetch = Js.Return r
       ∧ pool <$> pools r = userPools poolShares decorated
       ∧ shares <$> pools r = shareValue poolShares <$> userPools poolShares decorated
       ∧ totalInvestedAmount r
         = sum (shareValue poolShares <$> userPools poolShares decorated)
       ∧ (∀ p, (∀ s, s ∈ poolShares → poolId s ≠ id p) →
               shareValue poolShares p
               = BigNumber.times
                   (BigNumber.div (totalLiquidity p) (totalShares p))
                   BigNumber.zero)
       ∧ (Forall (fun p => BigNumber.finite (totalLiquidity p)
                           ∧ BigNumber.nonNegative (totalLiquidity p)
                           ∧ BigNumber.positive (totalShares p))
            (userPools poolShares decorated) →
          Forall (fun s => BigNumber.finite (balance s)
                           ∧ BigNumber.nonNegative (balance s))
            poolShares →
          BigNumber.finite (totalInvestedAmount r)
          ∧ BigNumber.nonNegative (totalInvestedAmount r)).
Proof.
  intros Hd. unfold queryFn. rewrite Hd. simpl. eexists. split; [reflexivity|].
  rewrite (pick_decorated _ _ _ _ _ Hd).
  fold (userPools poolShares decorated). simpl.
  assert (shares <$> (withShares (Lodash.keyBy poolShares poolId)
                        <$> userPools poolShares decorated)
          = shareValue poolShares <$> userPools poolShares decorated) as Hs.
  { rewrite <- list_fmap_compose. apply list_fmap_ext. intros _ p _. simpl.
    unfold shareValue. by rewrite balanceOf_keyBy. }
  split_and!.
  - rewrite <- list_fmap_compose. apply list_fmap_id.
  - exact Hs.
  - rewrite Hs, foldl_plus_sum. apply plus_zero_l.
  - intros p Hno. unfold shareValue, userSharesBalance.
    by rewrite matchingShare_None.
  - intros Hp Hb. rewrite Hs, foldl_plus_sum, plus_zero_l.
    apply sum_nonNegative. apply Forall_fmap.
    eapply Forall_impl; [exact Hp|]. simpl. intros p (Hf & Hn & Hpos).
    unfold shareValue.
    destruct (userSharesBalance_nonNegative poolShares (id p) Hb) as [? ?].
    by apply times_div_nonNegative.
Qed.
End InvestedAmount.

Section InvestedAmountWitness.
Import Subgraph UserPools UserPoolsSpec Sample.

Lemma queryFn_totalInvestedAmount_witness :
  ∃ r, queryFn [share (poolTwo (amount 10 1) (amount 3 1)) (amount 3 1)]
         [poolOne (amount 0 1) (amount 0 1); poolTwo (amount 10 1) (amount 3 1)]
         (fun _ => [])
       = Js.Return r
       ∧ BigNumber.finite (totalInvestedAmount r)
       ∧ BigNumber.nonNegative (totalInvestedAmount r).
Proof.
  assert (decoratePoolsFrom (fun _ => []) 0
            [poolOne (amount 0 1) (amount 0 1); poolTwo (amount 10 1) (amount 3 1)]
          = Js.Return
              [poolOne (amount 0 1) (amount 0 1); poolTwo (amount 10 1) (amount 3 1)])
    as Hd by reflexivity.
  destruct (queryFn_totalInvestedAmount
              [share (poolTwo (amount 10 1) (amount 3 1)) (amount 3 1)] _ _ _ Hd)
    as (r & Hr & _ & _ & _ & _ & Hnn).
  exists r. split; [exact Hr|]. apply Hnn.
  - vm_compute. repeat constructor; discriminate.
  - vm_compute. repeat constructor; discriminate.
Defined.
End InvestedAmountWitness.

(** ** The backend client: current token prices *)

Lemma foldC_app {A S} (f : S → A → Js.Completion S) l1 l2 s :
  Js.foldC f (l1 ++ l2) s = Js.bind (Js.foldC f l1 s) (Js.foldC f l2).
Proof.
  revert s. induction l1 as [|x l1 IH]; intros s; simpl; [done|].
  destruct (f s x); simpl; [apply IH | done].
Qed.

Section TokenPrices.
Import Beethovenx BeethovenxSpec.
Context `{Ethers.Address}.

Lemma addTokenPrice_Return result tokenPrice :
  addTokenPrice result tokenPrice
  = Js.Return
      (match Ethers.getAddress (tp_address tokenPrice) with
       | Some address => <[address := {| usd := tp_price tokenPrice |}]> result
       | None => result
       end).
Proof.
  unfold addTokenPrice, Ethers.isAddress, Ethers.getAddressOf. simpl.
  by destruct (Ethers.getAddress (tp_address tokenPrice)).
Qed.

(** The loop never throws, and under each key the last entry written wins. *)
Lemma foldC_addTokenPrice tokenPrices acc :
  ∃ result,
    Js.foldC addTokenPrice tokenPrices acc = Js.Return result
    ∧ ∀ k, result !! k
           = match pricedBy tokenPrices k with
             | Some tokenPrice => Some {| usd := tp_price tokenPrice |}
             | None => acc !! k
             end.
Proof.
  induction tokenPrices as [|tp l IH] using rev_ind.
  - by exists acc.
  - destruct IH as (result & Hr & Hchar).
    rewrite foldC_app, Hr. simpl. rewrite addTokenPrice_Return. simpl.
    eexists. split; [done|]. intros k. unfold pricedBy in *.
    rewrite filter_app, filter_cons, filter_nil.
    destruct (decide (Ethers.getAddress (tp_address tp) = Some k)) as [Hk|Hk].
    + by rewrite Hk, lookup_insert_eq, last_snoc.
    + rewrite app_nil_r, <- Hchar.
      destruct (Ethers.getAddress (tp_address tp)) as [k'|]; [|done].
      apply lookup_insert_ne. congruence.
Qed.

Lemma pricedBy_Some tokenPrices k tokenPrice :
  pricedBy tokenPrices k = Some tokenPrice →
  tokenPrice ∈ tokenPrices ∧ Ethers.getAddress (tp_address tokenPrice) = Some k.
Proof.
  unfold pricedBy. intros [l' Hl]%last_Some.
  assert (tokenPrice ∈ filter (fun tp => Ethers.getAddress (tp_address tp) = Some k)
                        tokenPrices) as Hin
    by (rewrite Hl, elem_of_app, list_elem_of_singleton; by right).
  by apply list_elem_of_filter in Hin as [? ?].
Qed.

Lemma pricedBy_is_Some tokenPrices k tokenPrice :
  tokenPrice ∈ tokenPrices → Ethers.getAddress (tp_address tokenPrice) = Some k →
  is_Some (pricedBy tokenPrices k).
Proof.
  intros Hin Hk. unfold pricedBy.
  assert (tokenPrice ∈ filter (fun tp => Ethers.getAddress (tp_address tp) = Some k)
                        tokenPrices) as Hf by by apply list_elem_of_filter.
  destruct (filter _ tokenPrices) as [|x l] using rev_ind.
  - by apply elem_of_nil in Hf.
  - rewrite last_snoc. by eexists.
Qed.

Lemma pricedBy_valid_only tokenPrices k :
  pricedBy (filter (fun tp => Ethers.isAddress (tp_address tp) = true) tokenPrices) k
  = pricedBy tokenPrices k.
Proof.
  unfold pricedBy. f_equal. induction tokenPrices as [|tp l IH]; [done|].
  rewrite !filter_cons.
  destruct (decide (Ethers.isAddress (tp_address tp) = true)) as [Hv|Hv].
  - rewrite filter_cons.
    destruct (decide (Ethers.getAddress (tp_address tp) = Some k)); by rewrite IH.
  - destruct (decide (Ethers.getAddress (tp_address tp) = Some k)) as [Hk|]; [|done].
    exfalso. apply Hv. unfold Ethers.isAddress. by rewrite Hk.
Qed.

(** C10. [getTokenPrices] returns the empty map when the response is absent.
    Otherwise it returns, without throwing, a map whose keys are exactly the
    checksum-formatted forms of the response's valid addresses, each key with
    the [usd] price of the last response entry of that checksum address; the
    entries whose address fails validation are dropped, the result being
    that of the response without them. *)
Theorem getTokenPrices_checksum_keys :
  getTokenPrices None = Js.Return ∅
  ∧ ∀ tokenPrices,
      ∃ result,
        getTokenPrices (Some tokenPrices) = Js.Return result
        ∧ (∀ k, is_Some (result !! k) ↔
                ∃ tokenPrice, tokenPrice ∈ tokenPrices
                              ∧ Ethers.isAddress (tp_address tokenPrice) = true
                              ∧ Ethers.getAddress (tp_address tokenPrice) = Some k)
        ∧ (∀ k, result !! k
                = (fun tokenPrice => {| usd := tp_price tokenPrice |})
                    <$> pricedBy tokenPrices k)
        ∧ getTokenPrices
            (Some (filter (fun tp => Ethers.isAddress (tp_address tp) = true) tokenPrices))
          = Js.Return result.
Proof.
  split; [done|]. intros tokenPrices. unfold getTokenPrices.
  destruct (foldC_addTokenPrice tokenPrices ∅) as (result & Hr & Hchar).
  exists result. split; [done|].
  assert (∀ k, result !! k
               = (fun tokenPrice => {| usd := tp_price tokenPrice |})
                   <$> pricedBy tokenPrices k) as Hval.
  { intros k. rewrite Hchar. by destruct (pricedBy tokenPrices k). }
  split_and!; [|exact Hval|].
  - intros k. rewrite Hval. split.
    + intros [p Hp]. destruct (pricedBy tokenPrices k) as [tp|] eqn:E; [|done].
      apply pricedBy_Some in E as [Hin Hk]. exists tp. split_and!; try done.
      unfold Ethers.isAddress. by rewrite Hk.
    + intros (tp & Hin & _ & Hk).
      destruct (pricedBy_is_Some tokenPrices k tp Hin Hk) as [tp' ->]. by eexists.
  - destruct (foldC_addTokenPrice
                (filter (fun tp => Ethers.isAddress (tp_address tp) = true) tokenPrices) ∅)
      as (result' & -> & Hchar').
    f_equal. apply map_eq. intros k.
    by rewrite Hchar, Hchar', pricedBy_valid_only.
Qed.
End TokenPrices.

(** ** The backend client: a user's farm data *)

Section FarmUser.
Import Beethovenx.

(** C9. For every farm id and user address, [getUserDataForFarm] answers a
    reply that holds [beetsGetUserDataForFarm] with a record, never with
    [null]: the backend's record when there is one, and when the backend
    says [null] the default record with amount ["0"], beetsHarvested ["0"],
    rewardDebt ["0"], empty id, address and timestamp, and the farm id that
    was asked for. It throws only on a reply without data. *)
Theorem getUserDataForFarm_never_null farmId userAddress :
  getUserDataForFarm farmId userAddress (Some None)
  = Js.Return {| GqlBeetsFarmUser.id := "";
                 GqlBeetsFarmUser.address := "";
                 GqlBeetsFarmUser.amount := "0";
                 GqlBeetsFarmUser.beetsHarvested := "0";
                 GqlBeetsFarmUser.farmId := farmId;
                 GqlBeetsFarmUser.rewardDebt := "0";
                 GqlBeetsFarmUser.timestamp := "" |}
  ∧ (∀ user, getUserDataForFarm farmId userAddress (Some (Some user)) = Js.Return user)
  ∧ (∀ response,
       (∃ user, getUserDataForFarm farmId userAddress response = Js.Return user)
       ∨ (response = None
          ∧ getUserDataForFarm farmId userAddress response = Js.Throw Js.TypeError)).
Proof.
  split_and!; [done..|].
  intros [[user|]|]; [left; by eexists | left; by eexists | by right].
Qed.
End FarmUser.

(** ** The backend client: historical token prices *)

Lemma mapC_Return {A B} (f : A → Js.Completion B) l ys :
  Js.mapC f l = Js.Return ys ↔ Forall2 (fun x y => f x = Js.Return y) l ys.
Proof.
  revert ys. induction l as [|x l IH]; intros ys; simpl.
  - split; [intros [= <-]; constructor | by inversion 1].
  - split.
    + intros Hr. bind_inv Hr. injection Hr as <-. constructor; [done | by apply IH].
    + inversion 1 as [|? y ? ys' Hx Hl]; subst. rewrite Hx. simpl.
      apply IH in Hl. by rewrite Hl.
Qed.

Section HistoricalExample.
Import Beethovenx BeethovenxSpec Sample.

(** C4, as stated, fails: the timestamps are those of the first series of
    the response, whichever token it belongs to. Asked for the tokens
    [aa] and [bb] and answered with the series of [bb] first, the lookup
    keeps the timestamps of [bb] and loses timestamp 2 of [aa], the first
    requested token. *)
Lemma getHistoricalTokenPrices_timestamps_of_first_answer :
  ∃ result firstRequested,
    getHistoricalTokenPrices [hex "aa"; hex "bb"]
      (Some [series (hex "bb") [(1, 7)]; series (hex "aa") [(1, 10); (2, 20)]])
    = Js.Return result
    ∧ seriesOf [series (hex "bb") [(1, 7)]; series (hex "aa") [(1, 10); (2, 20)]]
        (hex "aa")
      = Some firstRequested
    ∧ timestampsOf firstRequested = [1; 2]
    ∧ result !! 1 = Some [Q2Qc (inject_Z 10); Q2Qc (inject_Z 7)]
    ∧ result !! 2 = None.
Proof.
  eexists _, _. split; [vm_compute; reflexivity|].
  split; [vm_compute; reflexivity|]. split; [reflexivity|].
  split; [by vm_compute | by vm_compute].
Qed.

(** C8, as stated, fails: with an empty series of another token first in
    the response there is no timestamp to look prices up for, and the lookup
    returns the empty result although the first requested token [aa] has a
    non-empty series and the requested token [bb] has none. The tokens asked
    for are [aa], [bb] and [cc]. *)
Lemma getHistoricalTokenPrices_returns_on_empty_first_answer :
  ∃ firstRequested,
    seriesOf [series (hex "cc") []; series (hex "aa") [(1, 10)]] (hex "aa")
    = Some firstRequested
    ∧ timestampsOf firstRequested = [1]
    ∧ seriesOf [series (hex "cc") []; series (hex "aa") [(1, 10)]] (hex "bb") = None
    ∧ getHistoricalTokenPrices [hex "aa"; hex "bb"; hex "cc"]
        (Some [series (hex "cc") []; series (hex "aa") [(1, 10)]])
      = Js.Return ∅.
Proof.
  eexists. split; [vm_compute; reflexivity|]. split; [reflexivity|].
  split; [by vm_compute | by vm_compute].
Qed.
End HistoricalExample.

Section Historical.
Import Beethovenx BeethovenxSpec.
Implicit Types (m : gmap string GqlHistoricalTokenPrice) (t : Z).

Lemma foldC_addHistoricalRow m lowers ts acc result :
  Js.foldC (addHistoricalRow m lowers) ts acc = Js.Return result →
  (∀ t, t ∈ ts → ∃ row, historicalRow m lowers t = Js.Return row
                        ∧ result !! t = Some row)
  ∧ (∀ t, t ∉ ts → result !! t = acc !! t).
Proof.
  revert acc. induction ts as [|t0 ts IH]; simpl; intros acc Hr.
  - injection Hr as <-. split; [by intros ? ?%elem_of_nil | done].
  - apply bind_Return in Hr as (acc1 & Hstep & Hr). unfold addHistoricalRow in Hstep.
    apply bind_Return in Hstep as (row0 & Hrow & [= <-]).
    apply IH in Hr as [Hin Hout]. split.
    + intros t Ht. destruct (decide (t ∈ ts)) as [Hts|Hts]; [by apply Hin|].
      apply elem_of_cons in Ht as [->|?]; [|done].
      exists row0. split; [done|]. by rewrite Hout, lookup_insert_eq.
    + intros t [Hne Hts]%not_elem_of_cons. rewrite Hout by done.
      by apply lookup_insert_ne.
Qed.

Lemma historicalRow_Return m addresses t row :
  historicalRow m (Js.toLowerCase <$> addresses) t = Js.Return row →
  Forall2 (fun address p =>
             ∃ series, m !! Js.toLowerCase address = Some series
                       ∧ p = priceOrZero (entryAt series t))
    addresses row.
Proof.
  unfold historicalRow. intros Hr%mapC_Return. apply Forall2_fmap_l in Hr.
  eapply Forall2_impl; [exact Hr|]. simpl. intros address p Hp.
  destruct (m !! Js.toLowerCase address) as [series|]; [|done].
  injection Hp as <-. by exists series.
Qed.

Lemma historicalRow_Throw m lowers t address :
  address ∈ lowers → m !! address = None →
  historicalRow m lowers t = Js.Throw Js.TypeError.
Proof.
  unfold historicalRow. intros Hin Hnone.
  induction lowers as [|x l IH]; simpl; [by apply elem_of_nil in Hin|].
  destruct (m !! x) as [series|] eqn:Ex; simpl; [|done].
  apply elem_of_cons in Hin as [->|Hin]; [congruence|].
  by rewrite IH.
Qed.

Lemma find_None_not_elem {A B} `{EqDecision B} (f : A → B) (l : list A) (b : B) :
  b ∉ f <$> l → List.find (fun x => bool_decide (f x = b)) l = None.
Proof.
  induction l as [|x l IH]; simpl; [done|].
  intros [Hne Hl]%not_elem_of_cons.
  rewrite bool_decide_false by congruence. by apply IH.
Qed.

Lemma seriesOf_keyBy tokenPrices address :
  Lodash.keyBy tokenPrices htp_address !! Js.toLowerCase address
  = seriesOf tokenPrices address.
Proof. apply keyBy_lookup. Qed.

Lemma historicalRow_returns m addresses t :
  (∀ address, address ∈ addresses → is_Some (m !! Js.toLowerCase address)) →
  ∃ row, historicalRow m (Js.toLowerCase <$> addresses) t = Js.Return row.
Proof.
  unfold historicalRow. induction addresses as [|a l IH]; intros Hall; [by eexists|].
  rewrite fmap_cons. cbn [Js.mapC].
  destruct (Hall a) as [series ->]; [apply list_elem_of_here|].
  destruct IH as [row ->]; [|by eexists].
  intros a' Ha'. apply Hall. by apply list_elem_of_further.
Qed.

(** The lookup returns when the response holds a series for every requested
    token. *)
Lemma getHistoricalTokenPrices_returns addresses tokenPrices :
  (∀ address, address ∈ addresses → is_Some (seriesOf tokenPrices address)) →
  ∃ result, getHistoricalTokenPrices addresses (Some tokenPrices) = Js.Return result.
Proof.
  intros Hall. unfold getHistoricalTokenPrices.
  generalize (∅ : gmap Z (list number)).
  induction (match tokenPrices with
             | [] => []
             | first :: _ => timestamp <$> prices first
             end) as [|t ts IH]; intros acc; simpl; [by eexists|].
  unfold addHistoricalRow at 1.
  destruct (historicalRow_returns (Lodash.keyBy tokenPrices htp_address) addresses t)
    as [row ->]; [|simpl; apply IH].
  intros a Ha. rewrite seriesOf_keyBy. by apply Hall.
Qed.

(** C4, amended. For every response on which [getHistoricalTokenPrices]
    returns, the result's timestamp keys are exactly the timestamps of the
    first series of the response (the first requested token's when the
    backend answers in the order asked). The row at each of them gives, for
    every requested token in order, the price of that token's series at the
    timestamp, and 0 when the series has no entry there: for tokens [A, B]
    with A priced at [t1, t2] and B only at [t1], the result at [t2] for B
    is 0. *)
Theorem getHistoricalTokenPrices_aligned addresses tokenPrices result :
  getHistoricalTokenPrices addresses (Some tokenPrices) = Js.Return result →
  (∀ t, is_Some (result !! t) ↔ t ∈ firstTimestamps tokenPrices)
  ∧ (∀ firstRequested series,
       head addresses = Some firstRequested →
       seriesOf tokenPrices firstRequested = Some series →
       head tokenPrices = Some series →
       ∀ t, is_Some (result !! t) ↔ t ∈ timestampsOf series)
  ∧ (∀ t row, result !! t = Some row →
       Forall2 (fun address p =>
                  ∃ series, seriesOf tokenPrices address = Some series
                            ∧ p = priceOrZero (entryAt series t))
         addresses row)
  ∧ (∀ t row i address series,
       result !! t = Some row →
       addresses !! i = Some address →
       seriesOf tokenPrices address = Some series →
       t ∉ timestampsOf series →
       row !! i = Some 0%Qc).
Proof.
  unfold getHistoricalTokenPrices. intros Hr.
  fold (firstTimestamps tokenPrices) in Hr.
  apply foldC_addHistoricalRow in Hr as [Hin Hout].
  assert (∀ t, is_Some (result !! t) ↔ t ∈ firstTimestamps tokenPrices) as Hdom.
  { intros t. split.
    - intros Hs. destruct (decide (t ∈ firstTimestamps tokenPrices)) as [|Hn]; [done|].
      rewrite (Hout t Hn), lookup_empty in Hs. by destruct Hs.
    - intros (row & _ & ->)%Hin. by eexists. }
  assert (∀ t row, result !! t = Some row →
            Forall2 (fun address p =>
                       ∃ series, seriesOf tokenPrices address = Some series
                                 ∧ p = priceOrZero (entryAt series t))
              addresses row) as Hrows.
  { intros t row Ht.
    assert (t ∈ firstTimestamps tokenPrices) as Hts by (apply Hdom; by eexists).
    apply Hin in Hts as (row' & Hrow & Ht'). rewrite Ht in Ht'. injection Ht' as <-.
    apply historicalRow_Return in Hrow.
    eapply Forall2_impl; [exact Hrow|]. simpl. intros address p (series & Hs & ->).
    exists series. by rewrite <- seriesOf_keyBy. }
  split_and!; [exact Hdom | | exact Hrows |].
  { intros a0 series _ _ Hhead t. rewrite Hdom.
    destruct tokenPrices as [|first rest]; [done|]. by injection Hhead as ->. }
  intros t row i address series Ht Hi Hs Hno.
  apply Hrows in Ht.
  destruct (Forall2_lookup_l _ _ _ _ _ Ht Hi) as (p & Hp & series' & Hs' & ->).
  rewrite Hs in Hs'. injection Hs' as <-.
  rewrite Hp. unfold entryAt. by rewrite (find_None_not_elem timestamp).
Qed.

(** C8, amended. For some input [getHistoricalTokenPrices] throws instead
    of returning a result: whenever the first series of the response is
    non-empty and some requested (lower-cased) address has no series at all in
    the response, the lookup reads [prices] of an absent map entry and throws
    a TypeError; it does not take that token's prices to be zero. *)
Theorem getHistoricalTokenPrices_throws_on_absent_series
    addresses first rest address :
  prices first ≠ [] →
  address ∈ addresses →
  seriesOf (first :: rest) address = None →
  getHistoricalTokenPrices addresses (Some (first :: rest)) = Js.Throw Js.TypeError.
Proof.
  intros Hne Hin Hnone. unfold getHistoricalTokenPrices.
  destruct (prices first) as [|p ps] eqn:Ep; [done|]. simpl.
  unfold addHistoricalRow at 1.
  rewrite (historicalRow_Throw _ _ _ (Js.toLowerCase address)); [done | |].
  - apply list_elem_of_fmap. by exists address.
  - by rewrite seriesOf_keyBy.
Qed.
End Historical.

Section HistoricalWitness.
Import Beethovenx BeethovenxSpec Sample.

Lemma getHistoricalTokenPrices_aligned_witness :
  ∃ result row,
    getHistoricalTokenPrices [hex "aa"; hex "bb"]
      (Some [series (hex "aa") [(1, 10); (2, 20)]; series (hex "bb") [(1, 7)]])
    = Js.Return result
    ∧ result !! 2 = Some row
    ∧ row !! 1%nat = Some 0%Qc.
Proof.
  destruct (getHistoricalTokenPrices [hex "aa"; hex "bb"]
              (Some [series (hex "aa") [(1, 10); (2, 20)]; series (hex "bb") [(1, 7)]]))
    as [result|e] eqn:E; [|vm_compute in E; discriminate E].
  destruct (getHistoricalTokenPrices_aligned _ _ _ E) as (Hdom & _ & _ & Hzero).
  assert (is_Some (result !! 2)) as [row Hrow].
  { apply Hdom. simpl. apply list_elem_of_further, list_elem_of_here. }
  exists result, row. split; [reflexivity|]. split; [exact Hrow|].
  apply (Hzero 2 row 1%nat (hex "bb") (series (hex "bb") [(1, 7)]) Hrow).
  - reflexivity.
  - by vm_compute.
  - simpl. intros Hin. apply list_elem_of_singleton in Hin. discriminate Hin.
Defined.

Lemma getHistoricalTokenPrices_throws_on_absent_series_witness :
  getHistoricalTokenPrices [hex "aa"; hex "bb"]
    (Some [series (hex "aa") [(1, 10); (2, 20)]])
  = Js.Throw Js.TypeError.
Proof.
  apply (getHistoricalTokenPrices_throws_on_absent_series
           [hex "aa"; hex "bb"] (series (hex "aa") [(1, 10); (2, 20)]) [] (hex "bb")).
  - discriminate.
  - apply list_elem_of_further, list_elem_of_here.
  - by vm_compute.
Defined.
End HistoricalWitness.

(** * Part III: further properties of the code *)

(** ** [orderBy] as an insertion sort on the keys *)

Section OrderByInsertion.
Context {A : Type} (iteratee : A → option Z).

Lemma insertBy_criteria (c : option Z * nat * A) (L : list (option Z * nat * A)) :
  c.1.1 = iteratee c.2 →
  Forall (fun t => t.1.1 = iteratee t.2 ∧ (c.1.2 < t.1.2)%nat) L →
  (Lodash.insertBy (Lodash.compareMultiple Lodash.desc) c L).*2
  = Lodash.insertBy (LodashSpec.compareDesc iteratee) c.2 (L.*2).
Proof.
  intros Hc. induction 1 as [|t L [Ht Hlt] _ IH]; [done|].
  cbn [Lodash.insertBy fmap list_fmap].
  unfold Lodash.compareMultiple, LodashSpec.compareDesc.
  rewrite <- Hc, <- Ht.
  destruct (Lodash.compareAscending c.1.1 t.1.1) eqn:E; cbn [CompOpp].
  - apply Nat.compare_lt_iff in Hlt. rewrite Hlt. done.
  - rewrite fmap_cons. f_equal. apply IH.
  - done.
Qed.

Lemma criteria_bounds (g : nat → nat) (n : nat) (l : list A) :
  (∀ i, (n < g i)%nat) →
  Forall (fun t : option Z * nat * A => t.1.1 = iteratee t.2 ∧ (n < t.1.2)%nat)
    (imap (fun i a => (iteratee a, g i, a)) l).
Proof.
  revert g. induction l as [|x l IH]; intros g Hg; simpl; [constructor|].
  constructor; [split; [done | apply Hg]|]. apply (IH (g ∘ S)). intros i. apply Hg.
Qed.

Lemma sortBy'_criteria (g : nat → nat) (l : list A) :
  (∀ i j, (i < j)%nat → (g i < g j)%nat) →
  (Lodash.sortBy' (Lodash.compareMultiple Lodash.desc)
     (imap (fun i a => (iteratee a, g i, a)) l)).*2
  = Lodash.sortBy' (LodashSpec.compareDesc iteratee) l.
Proof.
  revert g. induction l as [|x l IH]; intros g Hg; [done|].
  cbn [imap Lodash.sortBy' foldr].
  fold (Lodash.sortBy' (Lodash.compareMultiple Lodash.desc)
          (imap ((fun i a => (iteratee a, g i, a)) ∘ S) l)).
  rewrite insertBy_criteria; [|done|].
  - cbn [snd]. f_equal. apply (IH (g ∘ S)). intros i j Hij. apply Hg. lia.
  - rewrite sortBy'_Permutation. apply (criteria_bounds (g ∘ S)).
    intros i. apply Hg. lia.
Qed.

(** [orderBy(l, key, 'desc')] is the insertion sort that puts each element
    behind the later elements of a larger key and before all others. *)
Lemma orderBy_insertion (l : list A) :
  Lodash.orderBy l iteratee Lodash.desc
  = Lodash.sortBy' (LodashSpec.compareDesc iteratee) l.
Proof. unfold Lodash.orderBy. apply (sortBy'_criteria (fun i => i)). auto. Qed.

Lemma compareDesc_Gt a b :
  LodashSpec.compareDesc iteratee a b = Gt
  ↔ Lodash.compareAscending (iteratee a) (iteratee b) = Lt.
Proof.
  unfold LodashSpec.compareDesc.
  destruct (Lodash.compareAscending (iteratee a) (iteratee b)); simpl; split; done.
Qed.

Lemma compareAscending_Eq (k1 k2 : option Z) :
  Lodash.compareAscending k1 k2 = Eq ↔ k1 = k2.
Proof.
  destruct k1 as [a|], k2 as [b|]; simpl; split; try done.
  - intros ->%Z.compare_eq_iff. done.
  - intros [= ->]. apply Z.compare_refl.
Qed.

(** An element is inserted behind elements of other keys only. *)
Lemma filter_key_insertBy (k : option Z) (x : A) (L : list A) :
  filter (fun a => iteratee a = k) (Lodash.insertBy (LodashSpec.compareDesc iteratee) x L)
  = filter (fun a => iteratee a = k) (x :: L).
Proof.
  induction L as [|y L IH]; [done|].
  cbn [Lodash.insertBy].
  destruct (LodashSpec.compareDesc iteratee x y) eqn:E; [done..|].
  apply compareDesc_Gt in E.
  rewrite filter_cons, IH, !filter_cons.
  destruct (decide (iteratee y = k)) as [Hy|Hy]; [|done].
  destruct (decide (iteratee x = k)) as [Hx|Hx]; [|done].
  rewrite Hx, Hy in E. by rewrite (proj2 (compareAscending_Eq k k) eq_refl) in E.
Qed.

(** The sort is stable: the elements of one key keep their order. *)
Lemma orderBy_stable (k : option Z) (l : list A) :
  filter (fun a => iteratee a = k) (Lodash.orderBy l iteratee Lodash.desc)
  = filter (fun a => iteratee a = k) l.
Proof.
  rewrite orderBy_insertion. induction l as [|x l IH]; [done|].
  cbn [Lodash.sortBy' foldr].
  fold (Lodash.sortBy' (LodashSpec.compareDesc iteratee) l).
  rewrite filter_key_insertBy, !filter_cons, IH. done.
Qed.

Lemma compareDesc_le a b :
  LodashSpec.compareDesc iteratee a b ≠ Gt → Lodash.keyGe (iteratee a) (iteratee b).
Proof.
  unfold LodashSpec.compareDesc, Lodash.keyGe.
  rewrite (compareAscending_antisym (iteratee b) (iteratee a)).
  destruct (Lodash.compareAscending (iteratee a) (iteratee b)); simpl; done.
Qed.

Lemma compareDesc_gt a b :
  LodashSpec.compareDesc iteratee a b = Gt → Lodash.keyGe (iteratee b) (iteratee a).
Proof.
  intros E%compareDesc_Gt. unfold Lodash.keyGe. by rewrite E.
Qed.

Lemma sortBy'_compareDesc_sorted (l : list A) :
  StronglySorted (fun a b => Lodash.keyGe (iteratee a) (iteratee b))
    (Lodash.sortBy' (LodashSpec.compareDesc iteratee) l).
Proof.
  apply Sorted_StronglySorted.
  - intros x y z. apply keyGe_trans.
  - apply sortBy'_Sorted; [apply compareDesc_le | apply compareDesc_gt].
Qed.

(** In a sorted list, filtering and inserting commute. *)
Lemma filter_insertBy_sorted (P : A → Prop) `{∀ a, Decision (P a)} (x : A) (L : list A) :
  StronglySorted (fun a b => Lodash.keyGe (iteratee a) (iteratee b)) L →
  filter P (Lodash.insertBy (LodashSpec.compareDesc iteratee) x L)
  = if decide (P x)
    then Lodash.insertBy (LodashSpec.compareDesc iteratee) x (filter P L)
    else filter P L.
Proof.
  induction 1 as [|y L Hs IH Hall].
  - cbn [Lodash.insertBy]. rewrite filter_cons, filter_nil. by destruct (decide (P x)).
  - cbn [Lodash.insertBy].
    destruct (LodashSpec.compareDesc iteratee x y) eqn:E.
    3:{ rewrite !filter_cons, IH.
        destruct (decide (P y)), (decide (P x)); try done.
        cbn [Lodash.insertBy]. by rewrite E. }
    all: rewrite filter_cons; destruct (decide (P x)); [|done];
      destruct (filter P (y :: L)) as [|z L'] eqn:EL; [done|];
      cbn [Lodash.insertBy];
      assert (z ∈ y :: L) as Hz
        by (eapply (list_elem_of_filter P); rewrite EL; apply list_elem_of_here);
      assert (Lodash.keyGe (iteratee x) (iteratee z)) as Hxz
        by (assert (Lodash.keyGe (iteratee x) (iteratee y)) as Hxy
              by (apply compareDesc_le; by rewrite E);
            apply elem_of_cons in Hz as [->|Hz]; [done|];
            rewrite Forall_forall in Hall; etrans; [exact Hxy | by apply Hall]);
      destruct (LodashSpec.compareDesc iteratee x z) eqn:Ez; try done;
      apply compareDesc_Gt in Ez; unfold Lodash.keyGe in Hxz;
      rewrite (compareAscending_antisym (iteratee z) (iteratee x)), Ez in Hxz;
      by simpl in Hxz.
Qed.

(** Sorting what a filter keeps is filtering what was sorted. *)
Lemma orderBy_filter (P : A → Prop) `{∀ a, Decision (P a)} (l : list A) :
  Lodash.orderBy (filter P l) iteratee Lodash.desc
  = filter P (Lodash.orderBy l iteratee Lodash.desc).
Proof.
  rewrite !orderBy_insertion. induction l as [|x l IH]; [done|].
  cbn [Lodash.sortBy' foldr].
  fold (Lodash.sortBy' (LodashSpec.compareDesc iteratee) l).
  rewrite filter_insertBy_sorted by apply sortBy'_compareDesc_sorted.
  rewrite filter_cons. destruct (decide (P x)); [|done].
  cbn [Lodash.sortBy' foldr].
  fold (Lodash.sortBy' (LodashSpec.compareDesc iteratee) (filter P l)).
  by rewrite IH.
Qed.

Lemma insertBy_app_pass (x : A) (L1 R : list A) :
  Forall (fun y => LodashSpec.compareDesc iteratee x y = Gt) L1 →
  Lodash.insertBy (LodashSpec.compareDesc iteratee) x (L1 ++ R)
  = L1 ++ Lodash.insertBy (LodashSpec.compareDesc iteratee) x R.
Proof.
  induction 1 as [|y L1 Hy _ IH]; [done|].
  cbn [app Lodash.insertBy]. by rewrite Hy, IH.
Qed.

Lemma insertBy_app_stop (x : A) (L1 R : list A) :
  Exists (fun y => LodashSpec.compareDesc iteratee x y ≠ Gt) L1 →
  Lodash.insertBy (LodashSpec.compareDesc iteratee) x (L1 ++ R)
  = Lodash.insertBy (LodashSpec.compareDesc iteratee) x L1 ++ R.
Proof.
  induction L1 as [|y L1 IH]; [by intros ?%Exists_nil|].
  intros Hex. cbn [app Lodash.insertBy].
  destruct (LodashSpec.compareDesc iteratee x y) eqn:E; [done..|].
  apply Exists_cons in Hex as [Hy|Hex]; [done|].
  by rewrite IH.
Qed.

(** Sorting a list with a new last element [x]: the old sorted list, with
    [x] put in behind the elements whose key is not below its own. *)
Lemma sortBy'_snoc (x : A) (l : list A) :
  ∃ L1 L2,
    Lodash.sortBy' (LodashSpec.compareDesc iteratee) l = L1 ++ L2
    ∧ Lodash.sortBy' (LodashSpec.compareDesc iteratee) (l ++ [x]) = L1 ++ x :: L2
    ∧ Forall (fun y => Lodash.keyGe (iteratee y) (iteratee x)) L1
    ∧ Forall (fun y => ¬ Lodash.keyGe (iteratee y) (iteratee x)) L2.
Proof.
  induction l as [|c l (L1 & L2 & Hold & Hnew & H1 & H2)].
  - exists [], []. split_and!; done.
  - cbn [app Lodash.sortBy' foldr].
    fold (Lodash.sortBy' (LodashSpec.compareDesc iteratee) l).
    fold (Lodash.sortBy' (LodashSpec.compareDesc iteratee) (l ++ [x])).
    rewrite Hold, Hnew.
    destruct (decide (Lodash.compareAscending (iteratee c) (iteratee x) = Lt)) as [Hlt|Hge].
    + (* [c] has a smaller key than [x]: it passes [L1] and [x] *)
      assert (Forall (fun y => LodashSpec.compareDesc iteratee c y = Gt) L1) as Hpass.
      { eapply Forall_impl; [exact H1|]. intros y Hy. apply compareDesc_Gt.
        unfold Lodash.keyGe in Hy.
        destruct (iteratee c) as [kc|], (iteratee x) as [kx|], (iteratee y) as [ky|];
          simpl in *; try done.
        rewrite Z.compare_lt_iff in *. rewrite Z.compare_gt_iff in Hy. lia. }
      exists L1, (Lodash.insertBy (LodashSpec.compareDesc iteratee) c L2).
      rewrite !insertBy_app_pass by done. cbn [Lodash.insertBy].
      rewrite (proj2 (compareDesc_Gt c x) Hlt).
      split_and!; [done | done | done |].
      rewrite insertBy_Permutation. constructor; [|done].
      unfold Lodash.keyGe. rewrite compareAscending_antisym, Hlt. simpl. tauto.
    + (* [c] stops before [x] *)
      assert (LodashSpec.compareDesc iteratee c x ≠ Gt) as Hcx
        by (by rewrite compareDesc_Gt).
      assert (Lodash.keyGe (iteratee c) (iteratee x)) as Hkc by by apply compareDesc_le.
      assert (∀ y, y ∈ L2 → LodashSpec.compareDesc iteratee c y ≠ Gt) as Hc2.
      { intros y Hy. rewrite Forall_forall in H2. specialize (H2 y Hy).
        rewrite compareDesc_Gt. intros Hcy. apply H2.
        unfold Lodash.keyGe in *.
        destruct (iteratee c) as [kc|], (iteratee x) as [kx|], (iteratee y) as [ky|];
          simpl in *; try done.
        rewrite Z.compare_lt_iff in *. rewrite Z.compare_gt_iff in *. lia. }
      destruct (decide (Exists (fun y => LodashSpec.compareDesc iteratee c y ≠ Gt) L1))
        as [Hex|Hall].
      * exists (Lodash.insertBy (LodashSpec.compareDesc iteratee) c L1), L2.
        rewrite !insertBy_app_stop by done.
        split_and!; [done | done | | done].
        rewrite insertBy_Permutation. by constructor.
      * apply not_Exists_Forall in Hall; [|intros y; apply _].
        assert (Forall (fun y => LodashSpec.compareDesc iteratee c y = Gt) L1) as Hpass.
        { eapply Forall_impl; [exact Hall|]. simpl. intros y Hy.
          destruct (LodashSpec.compareDesc iteratee c y); try done;
            exfalso; apply Hy; done. }
        exists (L1 ++ [c]), L2. rewrite !insertBy_app_pass by done.
        cbn [Lodash.insertBy].
        destruct (LodashSpec.compareDesc iteratee c x) eqn:E; [| |done].
        all: rewrite <- !app_assoc; cbn [app];
          split_and!; [ | done | apply Forall_app; split; [done | by constructor] | done].
        all: destruct L2 as [|y L2]; [done|]; cbn [Lodash.insertBy];
          specialize (Hc2 y (list_elem_of_here _ _));
          destruct (LodashSpec.compareDesc iteratee c y); done.
Qed.
End OrderByInsertion.

(** ** The alert registry: removal, ties and newcomers *)

Section ObjectRemoval.
Context {V : Type}.
Implicit Types (o : Js.Object V) (k : string) (v : V).

Lemma remove_absent o k : k ∉ Js.keys o → Js.remove o k = o.
Proof.
  unfold Js.keys, Js.remove. induction o as [|[k' v'] o IH]; [done|].
  rewrite fmap_cons. intros [Hne Hn]%not_elem_of_cons. rewrite filter_cons.
  rewrite decide_True by (simpl; intros ?; by apply Hne). by rewrite IH.
Qed.

Lemma remove_replace o k v : Js.remove (Js.replace o k v) k = Js.remove o k.
Proof.
  unfold Js.remove. induction o as [|[k' v'] o IH]; [done|]. simpl.
  destruct (decide (k' = k)) as [->|Hne].
  - rewrite !filter_cons. simpl. by rewrite !decide_False by (intros ?; done).
  - rewrite !filter_cons. simpl. rewrite !decide_True by done. by rewrite IH.
Qed.

Lemma remove_set o k v : Js.remove (Js.set o k v) k = Js.remove o k.
Proof.
  unfold Js.set. destruct (Js.has o k); [apply remove_replace|].
  destruct (decide (k = "__proto__")); [done|].
  destruct (add_split o k v) as (o1 & o2 & -> & ->).
  unfold Js.remove. rewrite !filter_app, filter_cons. simpl.
  by rewrite decide_False by (intros ?; done).
Qed.

Lemma get_remove_ne o k k' : k' ≠ k → Js.get (Js.remove o k) k' = Js.get o k'.
Proof.
  intros Hne. unfold Js.remove. induction o as [|[k0 v0] o IH]; [done|].
  rewrite filter_cons. simpl. destruct (decide (k0 ≠ k)) as [Hk|Hk]; simpl.
  - by rewrite IH.
  - apply dec_stable in Hk. subst k0. by rewrite decide_False by done.
Qed.

Lemma length_remove_present o k :
  NoDup (Js.keys o) → k ∈ Js.keys o → S (length (Js.remove o k)) = length o.
Proof.
  unfold Js.keys. induction o as [|[k0 v0] o IH]; simpl.
  - by intros _ ?%elem_of_nil.
  - intros [Hn Hnd]%NoDup_cons Hin. unfold Js.remove. rewrite filter_cons. simpl.
    destruct (decide (k0 ≠ k)) as [Hk|Hk]; simpl.
    + f_equal. apply IH; [done|]. apply elem_of_cons in Hin as [?|?]; [congruence|done].
    + apply dec_stable in Hk. subst k0. f_equal.
      fold (Js.remove o k). by rewrite remove_absent.
Qed.

Lemma replace_same o k v : Js.get o k = Some v → Js.replace o k v = o.
Proof.
  induction o as [|[k0 v0] o IH]; simpl; [done|].
  destruct (decide (k0 = k)) as [->|Hne]; [by intros [= ->]|].
  intros Hg. by rewrite IH.
Qed.

Lemma set_same o k v : Js.get o k = Some v → Js.set o k v = o.
Proof.
  intros Hg. unfold Js.set, Js.has. rewrite Hg. by apply replace_same.
Qed.

Lemma set_set o k v : Js.set (Js.set o k v) k v = Js.set o k v.
Proof.
  destruct (decide (k = "__proto__")) as [->|Hk]; [|by apply set_same, get_set].
  destruct (decide ("__proto__" ∈ Js.keys o)) as [Hin|Hn].
  - by apply set_same, get_set_present.
  - by rewrite !(set_proto o v Hn).
Qed.
End ObjectRemoval.

Section AlertRegistry.
Import Alerts AlertsSpec.
Implicit Types (s : State) (alert : Alert).

Lemma priorityGe_keyGe (a b : Alert) :
  priorityGe a b ↔ Lodash.keyGe (priorityOf a) (priorityOf b).
Proof.
  unfold Lodash.keyGe, priorityOf, priorityGe.
  destruct (priority a) as [p|], (priority b) as [q|]; simpl; done.
Qed.

Lemma alerts_insertion s :
  alerts s = Lodash.sortBy' (LodashSpec.compareDesc priorityOf) (Js.values s).
Proof. apply orderBy_insertion. Qed.

(** In a registry whose alerts are filed under their ids, the values left
    by [delete] are the alerts of another id. *)
Lemma values_removeAlert s alertId :
  Forall (fun kv => kv.1 = id kv.2) s →
  Js.values (removeAlert alertId s) = filter (fun a => id a ≠ alertId) (Js.values s).
Proof.
  unfold removeAlert, Js.remove, Js.values.
  induction 1 as [|[k a] s Hk _ IH]; [done|].
  rewrite fmap_cons, !filter_cons. simpl in *. subst k.
  destruct (decide (id a ≠ alertId)); [by rewrite fmap_cons, IH | done].
Qed.

(** X1. [removeAlert] deletes the entry of the id and nothing else: no
    alert is found under the id afterwards, every other id finds what it
    found before, the remaining entries keep their order, and a registry
    that holds each id once shrinks by exactly one entry. Removing an id
    that is not registered leaves the registry as it is. *)
Theorem removeAlert_deletes_entry s alertId :
  Js.get (removeAlert alertId s) alertId = None
  ∧ (∀ k, k ≠ alertId → Js.get (removeAlert alertId s) k = Js.get s k)
  ∧ sublist (removeAlert alertId s) s
  ∧ (alertId ∉ Js.keys s → removeAlert alertId s = s)
  ∧ (alertId ∈ Js.keys s → NoDup (Js.keys s) →
     S (length (removeAlert alertId s)) = length s).
Proof.
  unfold removeAlert. split_and!.
  - apply get_remove.
  - intros k Hk. by apply get_remove_ne.
  - apply sublist_filter.
  - apply remove_absent.
  - intros Hin Hnd. by apply length_remove_present.
Qed.

(** X2. In every registry the module's functions lead to, the view after
    [removeAlert] is the old view without the alert of that id: the other
    alerts stay, in the order they were in. *)
Theorem alerts_after_removeAlert s alertId :
  Reachable s →
  alerts (removeAlert alertId s) = filter (fun a => id a ≠ alertId) (alerts s)
  ∧ (∀ a, a ∈ alerts (removeAlert alertId s) ↔ a ∈ alerts s ∧ id a ≠ alertId).
Proof.
  intros [_ Hv]%Reachable_invariant.
  assert (alerts (removeAlert alertId s) = filter (fun a => id a ≠ alertId) (alerts s))
    as Heq.
  { unfold alerts. rewrite values_removeAlert.
    - apply orderBy_filter.
    - eapply Forall_impl; [exact Hv|]. by intros kv [? _]. }
  split; [exact Heq|]. intros a. rewrite Heq, list_elem_of_filter. tauto.
Qed.

Lemma alerts_after_removeAlert_witness :
  alerts (removeAlert "v2-beta"
            (addAlert (Sample.alert "h" (Some HIGH))
               (addAlert (Sample.alert "l" None) alertsState)))
  = [Sample.alert "h" (Some HIGH); Sample.alert "l" (Some LOW)].
Proof.
  refine (eq_trans
            (proj1 (alerts_after_removeAlert
                      (addAlert (Sample.alert "h" (Some HIGH))
                         (addAlert (Sample.alert "l" None) alertsState))
                      "v2-beta" _)) _).
  - do 2 apply reach_add. apply reach_start.
  - reflexivity.
Defined.

(** X3. Adding an alert and removing its id again undoes the addition:
    what is left is the registry without that id, and the registry itself
    when the id was not registered before. *)
Theorem removeAlert_addAlert s alert :
  removeAlert (id alert) (addAlert alert s) = removeAlert (id alert) s
  ∧ (id alert ∉ Js.keys s → removeAlert (id alert) (addAlert alert s) = s).
Proof.
  unfold removeAlert, addAlert. split.
  - apply remove_set.
  - intros Hn. rewrite remove_set. by apply remove_absent.
Qed.

(** X4. The view has as many alerts as the registry has entries, so
    [currentAlert] is [null] exactly when the registry is empty; after
    [removeAllAlerts] the view is empty and there is no current alert. *)
Theorem currentAlert_null_iff_empty s :
  length (alerts s) = length s
  ∧ (currentAlert s = None ↔ s = [])
  ∧ alerts (removeAllAlerts s) = []
  ∧ currentAlert (removeAllAlerts s) = None.
Proof.
  assert (length (alerts s) = length s) as Hlen.
  { unfold alerts. rewrite orderBy_Permutation. unfold Js.values. apply length_fmap. }
  split_and!; [done | | done | done].
  unfold currentAlert. destruct (alerts s) as [|a l] eqn:E; simpl in Hlen.
  - split; [intros _ | done]. by destruct s.
  - split; [done | intros ->; done].
Qed.

(** X5. Ties keep the registry's order: the alerts of one priority stand in
    the view in the order in which the registry enumerates them. *)
Theorem alerts_equal_priority_in_registry_order s (p : option AlertPriority) :
  filter (fun a => priority a = p) (alerts s)
  = filter (fun a => priority a = p) (Js.values s).
Proof.
  assert (∀ l : list Alert,
            filter (fun a => priority a = p) l
            = filter (fun a => priorityOf a = priorityValue <$> p) l) as Hf.
  { intros l. apply list_filter_iff. intros a. unfold priorityOf.
    split; [by intros -> |].
    destruct (priority a) as [[]|], p as [[]|]; simpl; intros [=]; done. }
  rewrite !Hf. apply orderBy_stable.
Qed.

(** X6. In every registry the module's functions lead to, each alert of the
    view has a priority, is the alert found under its own id, and no two
    alerts of the view share an id. *)
Theorem alerts_filed_under_ids s :
  Reachable s →
  NoDup (id <$> alerts s)
  ∧ (∀ a, a ∈ alerts s ↔ Js.get s (id a) = Some a)
  ∧ (∀ a, a ∈ alerts s → is_Some (priority a)).
Proof.
  intros Hr. pose proof (Reachable_invariant s Hr) as [Hnd Hv].
  assert (alerts s ≡ₚ Js.values s) as Hp by apply orderBy_Permutation.
  split_and!.
  - rewrite Hp, <- keys_reachable by done. done.
  - intros a. rewrite Hp. by apply values_reachable_get.
  - intros a. rewrite Hp. unfold Js.values.
    intros ([k a'] & -> & Hin)%list_elem_of_fmap.
    rewrite Forall_forall in Hv. by apply (Hv _ Hin).
Qed.

Lemma alerts_filed_under_ids_witness :
  Js.get (addAlert (Sample.alert "h" (Some HIGH)) alertsState) "h"
  = Some (Sample.alert "h" (Some HIGH)).
Proof.
  apply (proj1 (proj2 (alerts_filed_under_ids
                         (addAlert (Sample.alert "h" (Some HIGH)) alertsState)
                         (reach_add _ _ reach_start)))
           (Sample.alert "h" (Some HIGH))).
  apply list_elem_of_here.
Defined.

(** X7. A new alert goes behind the alerts of its own or a higher priority
    and before the lower ones: when the id is not registered, is no array
    index and is not [__proto__], the view after [addAlert] is the old view
    with the stored alert put in at that place. Under the id [__proto__]
    nothing is registered: the assignment goes to the prototype of the
    registry, and the registry and its view stay as they are. *)
Theorem alerts_after_addAlert_fresh s alert :
  id alert ∉ Js.keys s →
  (Js.arrayIndex (id alert) = None →
   id alert ≠ "__proto__" →
   ∃ before after,
     alerts s = before ++ after
     ∧ alerts (addAlert alert s) = before ++ withPriority alert :: after
     ∧ Forall (fun a => priorityGe a (withPriority alert)) before
     ∧ Forall (fun a => below (withPriority alert) a) after)
  ∧ (id alert = "__proto__" →
     addAlert alert s = s ∧ alerts (addAlert alert s) = alerts s).
Proof.
  intros Hfresh. split.
  2:{ intros Hid. assert (addAlert alert s = s) as Heq; [|by rewrite Heq].
      unfold addAlert. rewrite Hid in *. by apply set_proto. }
  intros Hidx Hproto.
  assert (Js.values (addAlert alert s) = Js.values s ++ [withPriority alert]) as Hval.
  { unfold addAlert, Js.set, Js.add. apply has_false in Hfresh. rewrite Hfresh, Hidx.
    rewrite decide_False by done. unfold Js.values. by rewrite fmap_app. }
  destruct (sortBy'_snoc priorityOf (withPriority alert) (Js.values s))
    as (L1 & L2 & Hold & Hnew & H1 & H2).
  exists L1, L2. rewrite !alerts_insertion, Hval. split_and!; [done | done | |].
  - eapply Forall_impl; [exact H1|]. intros a. apply priorityGe_keyGe.
  - eapply Forall_impl; [exact H2|]. simpl. intros a Ha.
    rewrite <- priorityGe_keyGe in Ha. unfold priorityGe, below in *. simpl in *.
    destruct (priority a) as [q|]; [|by destruct Ha].
    eexists _, q. split_and!; [done | done | lia].
Qed.

Lemma alerts_after_addAlert_fresh_witness :
  ∃ before after,
    alerts alertsState = before ++ after
    ∧ alerts (addAlert (Sample.alert "l" None) alertsState)
      = before ++ Sample.alert "l" (Some LOW) :: after.
Proof.
  destruct (alerts_after_addAlert_fresh alertsState (Sample.alert "l" None))
    as [Hfresh _].
  - apply (bool_decide_unpack _). vm_compute. exact I.
  - destruct Hfresh as (before & after & Hold & Hnew & _).
    + reflexivity.
    + discriminate.
    + exists before, after. split; [exact Hold | exact Hnew].
Defined.

(** X8. An alert added with a priority above that of every other registered
    alert becomes the current alert, whether its id was registered or not,
    as long as the id is not [__proto__], under which nothing is
    registered. *)
Theorem currentAlert_after_addAlert_highest s alert p :
  Reachable s →
  priority alert = Some p →
  id alert ≠ "__proto__" →
  (∀ a, a ∈ Js.values s → id a ≠ id alert → below alert a) →
  currentAlert (addAlert alert s) = Some alert.
Proof.
  intros Hr Hp Hproto Hlow.
  assert (Reachable (addAlert alert s)) as Hr' by by apply reach_add.
  assert (∀ a, a ∈ alerts (addAlert alert s) ↔ Js.get (addAlert alert s) (id a) = Some a)
    as Hmem.
  { intros a. unfold alerts. rewrite orderBy_Permutation. by apply values_reachable_get. }
  assert (alert ∈ alerts (addAlert alert s)) as Hin.
  { apply Hmem. rewrite get_addAlert by done. rewrite decide_True by done.
    by rewrite (withPriority_defined _ _ Hp). }
  rewrite currentAlert_head.
  pose proof (alerts_sorted (addAlert alert s)) as Hs.
  destruct (alerts (addAlert alert s)) as [|a rest] eqn:Ea; [by apply elem_of_nil in Hin|].
  simpl. f_equal.
  assert (a ∈ a :: rest) as Ha by apply list_elem_of_here.
  apply Hmem in Ha. rewrite get_addAlert in Ha by done.
  destruct (decide (id a = id alert)) as [Heq|Hne].
  - rewrite (withPriority_defined _ _ Hp) in Ha. by injection Ha.
  - exfalso. apply elem_of_cons in Hin as [->|Hin]; [done|].
    apply StronglySorted_inv in Hs as [_ Hall]. rewrite Forall_forall in Hall.
    apply Hall in Hin. unfold priorityGe in Hin.
    destruct (Hlow a) as (p' & q & Hp' & Hq & Hlt); [|done|].
    + by apply values_reachable_get.
    + rewrite Hq, Hp' in Hin. lia.
Qed.

Lemma currentAlert_after_addAlert_highest_witness :
  currentAlert (addAlert (Sample.alert "m" (Some MEDIUM)) alertsState)
  = Some (Sample.alert "m" (Some MEDIUM)).
Proof.
  apply (currentAlert_after_addAlert_highest alertsState
           (Sample.alert "m" (Some MEDIUM)) MEDIUM reach_start eq_refl);
    [discriminate|].
  intros a Ha _. apply list_elem_of_singleton in Ha. subst a.
  exists MEDIUM, LOW. split_and!; [reflexivity | reflexivity | reflexivity].
Defined.

(** X9. Registering an alert twice is registering it once, and adding an
    alert that the view already shows, as it shows it, leaves the registry
    as it is. *)
Theorem addAlert_again s alert :
  addAlert alert (addAlert alert s) = addAlert alert s
  ∧ (Reachable s → alert ∈ alerts s → addAlert alert s = s).
Proof.
  split.
  - unfold addAlert. apply set_set.
  - intros Hr Hin. pose proof (Reachable_invariant s Hr) as [_ Hv].
    assert (alert ∈ Js.values s) as Hval
      by (by rewrite <- (orderBy_Permutation (Js.values s) priorityOf Lodash.desc)).
    assert (is_Some (priority alert)) as [p Hp].
    { unfold Js.values in Hval. apply list_elem_of_fmap in Hval as ([k a'] & -> & Hkv).
      rewrite Forall_forall in Hv. by apply (Hv _ Hkv). }
    unfold addAlert. rewrite (withPriority_defined _ _ Hp).
    apply set_same. by apply values_reachable_get.
Qed.
End AlertRegistry.

(** ** The user-pools query: what the linear pools leave in a pool *)

Section LinearPoolMaps.
Import Subgraph UserPools UserPoolsSpec LinearPoolSpec.
Context `{Ethers.Address}.

Lemma foldC_addLinearPoolToken_lookup (l : list PoolToken) m m' :
  Js.foldC addLinearPoolToken l m = Js.Return m' →
  Forall (fun token => is_Some (Ethers.getAddress (token_address token))) l
  ∧ ∀ k, m' !! k
         = match last (filter (fun token => Ethers.getAddress (token_address token) = Some k) l) with
           | Some token => Some (filedAs k token)
           | None => m !! k
           end.
Proof.
  revert m. induction l as [|token l IH]; intros m Hr.
  - injection Hr as <-. split; [constructor | done].
  - cbn [Js.foldC] in Hr. apply bind_Return in Hr as (m1 & Hstep & Hr).
    unfold addLinearPoolToken, Ethers.getAddressOf in Hstep. simpl in Hstep.
    destruct (Ethers.getAddress (token_address token)) as [a|] eqn:Ea; [|done].
    simpl in Hstep. injection Hstep as <-.
    apply IH in Hr as [Hall Hlook]. split; [constructor; [by eexists | done]|].
    intros k. rewrite Hlook, filter_cons.
    destruct (decide (Ethers.getAddress (token_address token) = Some k)) as [Hk|Hk].
    + rewrite last_cons. destruct (last (filter _ l)); [done|].
      rewrite Ea in Hk. injection Hk as ->. by rewrite lookup_insert_eq.
    + destruct (last (filter _ l)); [done|].
      apply lookup_insert_ne. congruence.
Qed.

Lemma foldC_addLinearPoolToken_Throw (l : list PoolToken) m e :
  Js.foldC addLinearPoolToken l m = Js.Throw e → e = Js.InvalidAddress.
Proof.
  revert m. induction l as [|token l IH]; intros m Hr; [done|].
  cbn [Js.foldC] in Hr. unfold addLinearPoolToken at 1, Ethers.getAddressOf in Hr.
  simpl in Hr. destruct (Ethers.getAddress (token_address token)); simpl in Hr.
  - by eapply IH.
  - by injection Hr.
Qed.

Lemma injectLinearPool_Throw acc linearPool e :
  injectLinearPool acc linearPool = Js.Throw e → e = Js.InvalidAddress.
Proof.
  destruct acc as [pool m]. unfold injectLinearPool, Ethers.getAddressOf.
  destruct (_ ≫= Ethers.getAddress); simpl; [|by intros [= <-]].
  destruct (Js.foldC addLinearPoolToken _ m) as [m'|e'] eqn:E; simpl; [done|].
  intros [= <-]. by eapply foldC_addLinearPoolToken_Throw.
Qed.

Lemma foldC_injectLinearPool_Throw l acc e :
  Js.foldC injectLinearPool l acc = Js.Throw e → e = Js.InvalidAddress.
Proof.
  revert acc. induction l as [|lp l IH]; intros acc Hr; [done|].
  cbn [Js.foldC] in Hr. destruct (injectLinearPool acc lp) as [acc1|e1] eqn:E.
  - by eapply IH.
  - simpl in Hr. injection Hr as <-. by eapply injectLinearPool_Throw.
Qed.

(** One round of the outer loop, read back. *)
Lemma injectLinearPool_Return pool m linearPool pool1 m1 :
  injectLinearPool (pool, m) linearPool = Js.Return (pool1, m1) →
  wellFormed linearPool
  ∧ tokensList pool1 = tokensList pool
  ∧ (∃ w, checksumWrappedToken linearPool = Some w
          ∧ wrappedTokens pool1
            = Some (<[slot pool linearPool := w]> (default ∅ (wrappedTokens pool))))
  ∧ ∀ k, m1 !! k
         = match last (filter (fun token => Ethers.getAddress (token_address token) = Some k)
                         (filedTokens linearPool)) with
           | Some token => Some (filedAs k token)
           | None => m !! k
           end.
Proof.
  intros Hr. pose proof (injectLinearPool_wrapped _ _ _ _ _ Hr) as (w & Hw & Hl & Hwr).
  unfold injectLinearPool in Hr. bind_inv Hr. injection Hr as <- <-.
  apply foldC_addLinearPoolToken_lookup in E0 as [Hall Hlook].
  split_and!; [split; [by eexists | done] | done | by exists w | done].
Qed.

(** The whole outer loop, read back: each slot of [wrappedTokens] holds the
    wrapped token of the last linear pool that maps to it, each key of the
    token map the last token filed under it. *)
Lemma foldC_injectLinearPool_Return l pool m pool' m' :
  Js.foldC injectLinearPool l (pool, m) = Js.Return (pool', m') →
  Forall wellFormed l
  ∧ tokensList pool' = tokensList pool
  ∧ (∀ idx, wrappedTokenAt pool' idx
            = match last (filter (fun lp => slot pool lp = idx) l) with
              | Some lp => checksumWrappedToken lp
              | None => wrappedTokenAt pool idx
              end)
  ∧ (∀ k, m' !! k
          = match last (filter (fun token => Ethers.getAddress (token_address token) = Some k)
                          (l ≫= filedTokens)) with
            | Some token => Some (filedAs k token)
            | None => m !! k
            end)
  ∧ (l = [] → pool' = pool)
  ∧ (l ≠ [] → is_Some (wrappedTokens pool')).
Proof.
  revert pool m. induction l as [|lp l IH]; intros pool m Hr.
  - injection Hr as <- <-. split_and!; done.
  - cbn [Js.foldC] in Hr. apply bind_Return in Hr as ([pool1 m1] & Hstep & Hr).
    apply injectLinearPool_Return in Hstep as (Hwf & Hl & (w & Hw & Hwr) & Hm1).
    apply IH in Hr as (Hall & Hl' & Hslots & Hm' & Hnil & Hcons).
    assert (∀ x, slot pool1 x = slot pool x) as Hslot
      by (intros x; unfold slot; by rewrite Hl).
    split_and!.
    + by constructor.
    + by rewrite Hl', Hl.
    + intros idx. rewrite Hslots, filter_cons.
      rewrite (list_filter_iff (fun lp => slot pool1 lp = idx)
                 (fun lp => slot pool lp = idx)) by (intros x; by rewrite Hslot).
      destruct (decide (slot pool lp = idx)) as [Hi|Hi].
      * rewrite last_cons. destruct (last (filter _ l)); [done|].
        rewrite !wrappedTokenAt_default, Hwr. simpl. subst idx.
        by rewrite lookup_insert_eq.
      * destruct (last (filter _ l)); [done|].
        rewrite !wrappedTokenAt_default, Hwr. simpl. by apply lookup_insert_ne.
    + intros k. rewrite Hm'. cbn [mbind list_bind]. rewrite filter_app, last_app.
      destruct (last (filter _ (l ≫= filedTokens))); [done|]. apply Hm1.
    + done.
    + intros _. destruct l as [|lp' l'].
      * rewrite (Hnil eq_refl), Hwr. by eexists.
      * by apply Hcons.
Qed.

Lemma foldC_injectLinearPool_returns l acc :
  Forall wellFormed l → ∃ acc', Js.foldC injectLinearPool l acc = Js.Return acc'.
Proof.
  intros Hall. revert acc.
  induction Hall as [|lp l [[w Hw] Htok] _ IH]; intros [p m]; simpl; [by eexists|].
  unfold Ethers.getAddressOf. unfold checksumWrappedToken in Hw. rewrite Hw. simpl.
  destruct (foldC_addLinearPoolToken_returns (filedTokens lp) m Htok) as [m' Hm'].
  unfold filedTokens in Hm'. rewrite Hm'. simpl. apply IH.
Qed.

Lemma foldl_insert_lookup {A V} (f : A → string) (g : A → V) (l : list A)
    (m : gmap string V) k :
  foldl (fun map a => <[f a := g a]> map) m l !! k
  = match last (filter (fun a => f a = k) l) with
    | Some a => Some (g a)
    | None => m !! k
    end.
Proof.
  induction l as [|a l IH] using rev_ind; [done|].
  rewrite foldl_snoc, filter_app, filter_cons, filter_nil.
  destruct (decide (f a = k)) as [<-|Hne].
  - by rewrite lookup_insert_eq, last_snoc.
  - by rewrite lookup_insert_ne, app_nil_r.
Qed.

(** X10. [getLinearPoolAttrs] returns exactly when [getAddress] accepts, for
    every fetched Linear pool, the token at its [wrappedIndex] and each of
    its tokens other than the pool's own; the parent pool has no say in it.
    Otherwise it throws, and the error is the invalid address. *)
Theorem getLinearPoolAttrs_returns_iff fetched pool :
  ((∃ pool', getLinearPoolAttrs fetched pool = Js.Return pool')
   ↔ Forall wellFormed (linearPoolsOf fetched))
  ∧ (∀ e, getLinearPoolAttrs fetched pool = Js.Throw e → e = Js.InvalidAddress).
Proof.
  unfold getLinearPoolAttrs. fold (linearPoolsOf fetched). split; [split|].
  - intros [pool' Hr]. apply bind_Return in Hr as ([p m] & Hfold & _).
    by apply foldC_injectLinearPool_Return in Hfold as [? _].
  - intros Hall.
    destruct (foldC_injectLinearPool_returns _ (pool, ∅) Hall) as [[p m] ->].
    simpl. by eexists.
  - intros e Hr.
    destruct (Js.foldC injectLinearPool (linearPoolsOf fetched) (pool, ∅))
      as [[p m]|e'] eqn:E; simpl in Hr; [done|].
    injection Hr as <-. by eapply foldC_injectLinearPool_Throw.
Qed.

(** X11. After [getLinearPoolAttrs], each slot of the pool's [wrappedTokens]
    holds the checksum address of the wrapped token of the last fetched
    Linear pool whose lower-case address stands at that index of the pool's
    [tokensList]; slot [-1] collects the Linear pools the pool does not
    hold, and a slot that no Linear pool maps to is as it was. With no
    Linear pool fetched, [wrappedTokens] is not even created. *)
Theorem getLinearPoolAttrs_wrappedTokens_slots fetched pool pool' :
  getLinearPoolAttrs fetched pool = Js.Return pool' →
  (∀ idx, wrappedTokenAt pool' idx
          = match lastWriter pool fetched idx with
            | Some linearPool => checksumWrappedToken linearPool
            | None => wrappedTokenAt pool idx
            end)
  ∧ (∀ idx, is_Some (lastWriter pool fetched idx) →
            -1 ≤ idx < Z.of_nat (length (tokensList pool)))
  ∧ (linearPoolsOf fetched = [] → wrappedTokens pool' = wrappedTokens pool)
  ∧ (linearPoolsOf fetched ≠ [] → is_Some (wrappedTokens pool')).
Proof.
  unfold getLinearPoolAttrs. fold (linearPoolsOf fetched). intros Hr.
  apply bind_Return in Hr as ([p m] & Hfold & Hr). injection Hr as <-.
  apply foldC_injectLinearPool_Return in Hfold as (_ & _ & Hslots & _ & Hnil & Hcons).
  split_and!.
  - intros idx. unfold lastWriter. rewrite <- Hslots. unfold wrappedTokenAt. by destruct p.
  - intros idx [lp Hlp]. unfold lastWriter in Hlp.
    apply last_Some in Hlp as [l' Hl'].
    assert (lp ∈ filter (fun lp => slot pool lp = idx) (linearPoolsOf fetched)) as Hin
      by (rewrite Hl', elem_of_app, list_elem_of_singleton; by right).
    apply list_elem_of_filter in Hin as [<- _]. unfold slot, Js.indexOf.
    generalize (Js.toLowerCase (address lp)). intros x.
    assert (∀ l i, 0 ≤ i →
              Js.indexOfFrom l x i = -1
              ∨ i ≤ Js.indexOfFrom l x i < i + Z.of_nat (length l)) as Hb.
    { induction l as [|y l IHl]; intros i Hi; simpl; [by left|].
      destruct (decide (y = x)); [right; lia|].
      destruct (IHl (i + 1)) as [->|?]; [lia | by left | right; lia]. }
    destruct (Hb (tokensList pool) 0) as [->|?]; lia.
  - intros Hl. rewrite (Hnil Hl). by destruct pool.
  - intros Hl. destruct (Hcons Hl) as [w Hw]. exists w. by destruct p.
Qed.

(** X12. After [getLinearPoolAttrs], [linearPoolToMainTokenMap] has one
    key per address of a fetched Linear pool, spelled as the subgraph
    delivers it, and under it the token at the [mainIndex] of the last
    Linear pool of that address ([undefined] when the index points outside
    the pool's [tokensList]). *)
Theorem getLinearPoolAttrs_mainTokenMap fetched pool pool' :
  getLinearPoolAttrs fetched pool = Js.Return pool' →
  ∃ map,
    linearPoolToMainTokenMap pool' = Some map
    ∧ (∀ k, map !! k
            = mainToken <$> last (filter (fun linearPool => address linearPool = k)
                                    (linearPoolsOf fetched)))
    ∧ (∀ k, is_Some (map !! k) ↔ k ∈ address <$> linearPoolsOf fetched).
Proof.
  unfold getLinearPoolAttrs. fold (linearPoolsOf fetched). intros Hr.
  apply bind_Return in Hr as ([p m] & _ & Hr). injection Hr as <-.
  eexists. split; [reflexivity|].
  assert (∀ k, foldl (fun map lp => <[address lp := mainToken lp]> map)
                 (∅ : gmap string (option string)) (linearPoolsOf fetched) !! k
               = mainToken <$> last (filter (fun lp => address lp = k)
                                       (linearPoolsOf fetched))) as Hlook.
  { intros k. rewrite (foldl_insert_lookup address mainToken).
    by destruct (last _). }
  split; [exact Hlook|].
  intros k. unfold mainToken in Hlook. rewrite Hlook. rewrite fmap_is_Some. split.
  - intros [lp Hlp]. apply last_Some in Hlp as [l' Hl'].
    assert (lp ∈ filter (fun lp => address lp = k) (linearPoolsOf fetched)) as Hin
      by (rewrite Hl', elem_of_app, list_elem_of_singleton; by right).
    apply list_elem_of_filter in Hin as [<- Hin]. apply list_elem_of_fmap. by exists lp.
  - intros (lp & -> & Hin)%list_elem_of_fmap.
    assert (lp ∈ filter (fun lp' => address lp' = address lp) (linearPoolsOf fetched))
      as Hf by by apply list_elem_of_filter.
    destruct (filter _ (linearPoolsOf fetched)) as [|x l] using rev_ind.
    + by apply elem_of_nil in Hf.
    + rewrite last_snoc. by eexists.
Qed.

(** X13. After [getLinearPoolAttrs], [linearPoolTokensMap] files the
    tokens of the fetched Linear pools, their own pool tokens apart, under
    their checksum addresses: a key is there exactly when it is the
    checksum address of such a token, and the entry under it is the last
    such token in the order of the pools, with its [address] replaced by
    the key. *)
Theorem getLinearPoolAttrs_tokensMap fetched pool pool' :
  getLinearPoolAttrs fetched pool = Js.Return pool' →
  ∃ map,
    linearPoolTokensMap pool' = Some map
    ∧ (∀ k, map !! k
            = filedAs k
                <$> last (filter (fun token =>
                                    Ethers.getAddress (token_address token) = Some k)
                            (linearTokens fetched)))
    ∧ (∀ k, is_Some (map !! k)
            ↔ ∃ token, token ∈ linearTokens fetched
                       ∧ Ethers.getAddress (token_address token) = Some k)
    ∧ (∀ k token, map !! k = Some token → token_address token = k).
Proof.
  unfold getLinearPoolAttrs. fold (linearPoolsOf fetched). intros Hr.
  apply bind_Return in Hr as ([p m] & Hfold & Hr). injection Hr as <-.
  apply foldC_injectLinearPool_Return in Hfold as (_ & _ & _ & Hm & _).
  exists m. split; [done|].
  assert (∀ k, m !! k
               = filedAs k
                   <$> last (filter (fun token =>
                                       Ethers.getAddress (token_address token) = Some k)
                               (linearTokens fetched))) as Hlook.
  { intros k. rewrite Hm. unfold linearTokens. by destruct (last _). }
  split_and!; [exact Hlook | |].
  - intros k. rewrite Hlook, fmap_is_Some. split.
    + intros [token Ht]. apply last_Some in Ht as [l' Hl'].
      assert (token ∈ filter (fun token => Ethers.getAddress (token_address token) = Some k)
                          (linearTokens fetched)) as Hin
        by (rewrite Hl', elem_of_app, list_elem_of_singleton; by right).
      apply list_elem_of_filter in Hin as [? ?]. by exists token.
    + intros (token & Hin & Hk).
      assert (token ∈ filter (fun token => Ethers.getAddress (token_address token) = Some k)
                          (linearTokens fetched)) as Hf by by apply list_elem_of_filter.
      destruct (filter _ (linearTokens fetched)) as [|x l] using rev_ind.
      * by apply elem_of_nil in Hf.
      * rewrite last_snoc. by eexists.
  - intros k token. rewrite Hlook. destruct (last _); [|done]. by intros [= <-].
Qed.
End LinearPoolMaps.

Section LinearPoolMapsWitness.
Import Subgraph UserPools UserPoolsSpec LinearPoolSpec Sample.

Lemma getLinearPoolAttrs_wrappedTokens_slots_witness :
  ∃ pool',
    getLinearPoolAttrs fetchedPools parentPool = Js.Return pool'
    ∧ wrappedTokenAt pool' (-1) = Some "0x00000000000000000000000000000000000000C3"
    ∧ wrappedTokenAt pool' 1 = None.
Proof.
  destruct (getLinearPoolAttrs fetchedPools parentPool) as [pool'|e] eqn:E;
    [|vm_compute in E; discriminate E].
  exists pool'. split; [reflexivity|].
  pose proof (proj1 (getLinearPoolAttrs_wrappedTokens_slots _ _ _ E)) as Hslots.
  split; [exact (Hslots (-1)) | exact (Hslots 1)].
Defined.

Lemma getLinearPoolAttrs_mainTokenMap_witness :
  ∃ pool' map,
    getLinearPoolAttrs fetchedPools parentPool = Js.Return pool'
    ∧ linearPoolToMainTokenMap pool' = Some map
    ∧ map !! hex "a2" = Some (Some (hex "12")).
Proof.
  destruct (getLinearPoolAttrs fetchedPools parentPool) as [pool'|e] eqn:E;
    [|vm_compute in E; discriminate E].
  destruct (getLinearPoolAttrs_mainTokenMap _ _ _ E) as (map & Hmap & Hlook & _).
  exists pool', map. split; [reflexivity|]. split; [exact Hmap|].
  exact (Hlook (hex "a2")).
Defined.

Lemma getLinearPoolAttrs_tokensMap_witness :
  ∃ pool' map,
    getLinearPoolAttrs fetchedPools parentPool = Js.Return pool'
    ∧ linearPoolTokensMap pool' = Some map
    ∧ map !! "0x00000000000000000000000000000000000000C2"
      = Some {| token_address := "0x00000000000000000000000000000000000000C2";
                token_fields := [("symbol", "WRAPPED")] |}
    ∧ map !! "0x00000000000000000000000000000000000000A2" = None.
Proof.
  destruct (getLinearPoolAttrs fetchedPools parentPool) as [pool'|e] eqn:E;
    [|vm_compute in E; discriminate E].
  destruct (getLinearPoolAttrs_tokensMap _ _ _ E) as (map & Hmap & Hlook & _).
  exists pool', map. split; [reflexivity|]. split; [exact Hmap|].
  split; [exact (Hlook _) | exact (Hlook _)].
Defined.
End LinearPoolMapsWitness.

(** ** The user-pools query: the loop over the pools *)

Section DecorationLoop.
Import Subgraph UserPools UserPoolsSpec LinearPoolSpec.
Context `{Services} `{Ethers.Address} `{BigNumber.Config}.



Lemma decoratePoolsFrom_plain linearFetch i pools :
  Forall plain pools → decoratePoolsFrom linearFetch i pools = Js.Return pools.
Proof.
  intros Hall. revert i.
  induction Hall as [|pool pools [Hsp Hlin] _ IH]; intros i; [done|].
  cbn [decoratePoolsFrom]. unfold decoratePool at 1. rewrite Hsp, Hlin. simpl.
  by rewrite IH.
Qed.

Lemma sum_NaN (l : list BigNumber.t) : BigNumber.NaN ∈ l → sum l = BigNumber.NaN.
Proof.
  induction l as [|x l IH]; [by intros ?%elem_of_nil|].
  intros [<-|Hin]%elem_of_cons; simpl; [done|].
  rewrite (IH Hin). by destruct x.
Qed.


(** X15. On pools that are neither of the StablePhantom family nor carry
    [linearPools] the loop of [queryFn] does not throw and changes nothing:
    it leaves every pool as fetched. A result of the query then holds the
    user's pools as [decorate] values the fetched ones, and the token list
    of the pools as fetched. *)
Theorem queryFn_plain_pools poolShares fetched linearFetch :
  Forall plain fetched →
  decoratePoolsFrom linearFetch 0 fetched = Js.Return fetched
  ∧ ∀ r,
      queryFn poolShares fetched linearFetch = Js.Return r →
      pool <$> pools r
      = decorate (filter (fun pool => id pool ∈ poolId <$> poolShares) fetched)
      ∧ tokens r
        = concat ((fun pool => tokensList pool ++ lpTokensFor pool ++ [addressFor (id pool)])
                    <$> fetched).
Proof.
  intros Hall. pose proof (decoratePoolsFrom_plain linearFetch 0 fetched Hall) as Hd.
  split; [exact Hd|]. intros r. unfold queryFn. rewrite Hd. simpl. intros [= <-]. simpl.
  rewrite (pick_decorated _ _ _ _ _ Hd). split; [|done].
  rewrite <- list_fmap_compose. apply list_fmap_id.
Qed.

(** X16. One share that is no number spoils the total: when the value of
    one of the user's pools is [NaN], as it is for a pool of zero liquidity
    and zero total shares, [totalInvestedAmount] is [NaN] whatever the other
    pools are worth. *)
Theorem queryFn_total_NaN poolShares fetched linearFetch decorated p :
  decoratePoolsFrom linearFetch 0 fetched = Js.Return decorated →
  p ∈ userPools poolShares decorated →
  shareValue poolShares p = BigNumber.NaN
  ∨ (totalLiquidity p = BigNumber.zero ∧ totalShares p = BigNumber.zero) →
  ∃ r, queryFn poolShares fetched linearFetch = Js.Return r
       ∧ totalInvestedAmount r = BigNumber.NaN.
Proof.
  intros Hd Hp Hnan.
  assert (shareValue poolShares p = BigNumber.NaN) as Hv.
  { destruct Hnan as [?|[Hl Hs]]; [done|]. unfold shareValue. by rewrite Hl, Hs. }
  unfold queryFn. rewrite Hd. simpl. eexists. split; [reflexivity|]. simpl.
  rewrite (pick_decorated _ _ _ _ _ Hd). fold (userPools poolShares decorated).
  rewrite foldl_plus_sum, plus_zero_l. apply sum_NaN.
  rewrite <- list_fmap_compose. apply list_elem_of_fmap. exists p. split; [|done].
  simpl. rewrite balanceOf_keyBy. done.
Qed.

(** X17. [removePreMintedBPT] only ever takes entries out of [tokensList]:
    what stays keeps its order, every other field of the pool is as it was,
    a second pass changes nothing, and a pool whose list does not hold the
    lower-case form of its address comes back unchanged. *)
Theorem removePreMintedBPT_idempotent pool :
  removePreMintedBPT (removePreMintedBPT pool) = removePreMintedBPT pool
  ∧ sublist (tokensList (removePreMintedBPT pool)) (tokensList pool)
  ∧ withTokensList (removePreMintedBPT pool) (tokensList pool) = pool
  ∧ (Js.toLowerCase (addressFor (id pool)) ∉ tokensList pool →
     removePreMintedBPT pool = pool).
Proof.
  unfold removePreMintedBPT. split_and!.
  - cbn [id tokensList withTokensList]. f_equal.
    induction (tokensList pool) as [|a l IH]; [done|].
    rewrite filter_cons. destruct (decide (a ≠ _)); [|done].
    rewrite filter_cons, decide_True by done. by rewrite IH.
  - apply sublist_filter.
  - by destruct pool.
  - intros Hn. replace (filter _ (tokensList pool)) with (tokensList pool); [by destruct pool|].
    induction (tokensList pool) as [|a l IH]; [done|].
    apply not_elem_of_cons in Hn as [Hne Hn]. rewrite filter_cons.
    rewrite decide_True by done. by rewrite <- IH.
Qed.
End DecorationLoop.

Section DecorationLoopWitness.
Import Subgraph UserPools UserPoolsSpec LinearPoolSpec Sample.

Lemma queryFn_plain_pools_witness :
  ∃ r,
    queryFn [share (poolTwo (amount 10 1) (amount 3 1)) (amount 3 1)]
      [poolOne (amount 0 1) (amount 0 1); poolTwo (amount 10 1) (amount 3 1)]
      (fun _ => fetchedPools)
    = Js.Return r
    ∧ UserPools.pool <$> pools r = [poolTwo (amount 10 1) (amount 3 1)].
Proof.
  destruct (queryFn [share (poolTwo (amount 10 1) (amount 3 1)) (amount 3 1)]
              [poolOne (amount 0 1) (amount 0 1); poolTwo (amount 10 1) (amount 3 1)]
              (fun _ => fetchedPools))
    as [r|e] eqn:E; [|vm_compute in E; discriminate E].
  exists r. split; [reflexivity|].
  destruct (queryFn_plain_pools
              [share (poolTwo (amount 10 1) (amount 3 1)) (amount 3 1)]
              [poolOne (amount 0 1) (amount 0 1); poolTwo (amount 10 1) (amount 3 1)]
              (fun _ => fetchedPools))
    as [_ Hres]; [repeat constructor|].
  destruct (Hres r E) as [Hpools _]. rewrite Hpools. reflexivity.
Defined.

Lemma queryFn_total_NaN_witness :
  ∃ r,
    queryFn [share (poolOne (amount 0 1) (amount 0 1)) (amount 1 1);
             share (poolTwo (amount 10 1) (amount 3 1)) (amount 3 1)]
      [poolOne (amount 0 1) (amount 0 1); poolTwo (amount 10 1) (amount 3 1)]
      (fun _ => [])
    = Js.Return r
    ∧ totalInvestedAmount r = BigNumber.NaN.
Proof.
  apply (queryFn_total_NaN _ _ _
           [poolOne (amount 0 1) (amount 0 1); poolTwo (amount 10 1) (amount 3 1)]
           (poolOne (amount 0 1) (amount 0 1))).
  - reflexivity.
  - apply list_elem_of_here.
  - right. split; reflexivity.
Defined.
End DecorationLoopWitness.

(** ** Lower case *)

Lemma lowerChar_idempotent c : Js.lowerChar (Js.lowerChar c) = Js.lowerChar c.
Proof. destruct c as [[] [] [] [] [] [] [] []]; reflexivity. Qed.

Lemma toLowerCase_idempotent s : Js.toLowerCase (Js.toLowerCase s) = Js.toLowerCase s.
Proof.
  induction s as [|c s IH]; [done|]. simpl. by rewrite lowerChar_idempotent, IH.
Qed.

(** ** The backend client: requests and answers *)

Section HistoricalRequests.
Import Beethovenx BeethovenxSpec UserPoolsSpec HistoricalSpec.
Implicit Types (m : gmap string GqlHistoricalTokenPrice) (t : Z).

Lemma historicalRow_Throw_TypeError m lowers t e :
  historicalRow m lowers t = Js.Throw e → e = Js.TypeError.
Proof.
  unfold historicalRow. induction lowers as [|a l IH]; [done|]. cbn [Js.mapC].
  destruct (m !! a); simpl; [|by intros [= <-]].
  destruct (Js.mapC _ l); simpl; [done|]. intros [= <-]. by apply IH.
Qed.

Lemma foldC_addHistoricalRow_Throw m lowers ts acc e :
  Js.foldC (addHistoricalRow m lowers) ts acc = Js.Throw e → e = Js.TypeError.
Proof.
  revert acc. induction ts as [|t ts IH]; intros acc; [done|]. cbn [Js.foldC].
  unfold addHistoricalRow at 1.
  destruct (historicalRow m lowers t) as [row|e'] eqn:E; simpl.
  - apply IH.
  - intros [= <-]. by eapply historicalRow_Throw_TypeError.
Qed.

Lemma getHistoricalTokenPrices_unfold addresses tokenPrices :
  getHistoricalTokenPrices addresses (Some tokenPrices)
  = Js.foldC (addHistoricalRow (Lodash.keyBy tokenPrices htp_address)
                (Js.toLowerCase <$> addresses))
      (firstTimestamps tokenPrices) ∅.
Proof. by destruct tokenPrices. Qed.

Lemma sameAddress_fmap (l1 l2 : list string) :
  Forall2 sameAddress l1 l2 → Js.toLowerCase <$> l1 = Js.toLowerCase <$> l2.
Proof.
  induction 1 as [|a b l1 l2 Hab _ IH]; [done|]. rewrite !fmap_cons.
  unfold sameAddress in Hab. by rewrite Hab, IH.
Qed.

(** X18. The request is read without regard to letter case: two lists of
    addresses that differ only in the case of their letters get the same
    answer out of the same response, the same rows or the same error, and
    so does a list and its lower-case form. *)
Theorem getHistoricalTokenPrices_case_insensitive addresses response :
  getHistoricalTokenPrices (Js.toLowerCase <$> addresses) response
  = getHistoricalTokenPrices addresses response
  ∧ ∀ addresses',
      Forall2 sameAddress addresses' addresses →
      getHistoricalTokenPrices addresses' response
      = getHistoricalTokenPrices addresses response.
Proof.
  split.
  - unfold getHistoricalTokenPrices. rewrite <- list_fmap_compose.
    rewrite (list_fmap_ext (Js.toLowerCase ∘ Js.toLowerCase) Js.toLowerCase addresses);
      [done|]. intros _ a _. apply toLowerCase_idempotent.
  - intros addresses' Hsame%sameAddress_fmap. unfold getHistoricalTokenPrices.
    by rewrite Hsame.
Qed.

(** X19. [getHistoricalTokenPrices] returns exactly when the first series
    of the response has no price entry (or the response has no series), or
    the response holds a series for every requested address: an empty
    request always returns, and so does any request on an empty response,
    with no row at all. Whenever it does not return it throws a TypeError,
    as it does for a reply without data. *)
Theorem getHistoricalTokenPrices_returns_iff addresses tokenPrices :
  ((∃ result, getHistoricalTokenPrices addresses (Some tokenPrices) = Js.Return result)
   ↔ firstTimestamps tokenPrices = []
     ∨ ∀ address, address ∈ addresses → is_Some (seriesOf tokenPrices address))
  ∧ (firstTimestamps tokenPrices = [] →
     getHistoricalTokenPrices addresses (Some tokenPrices) = Js.Return ∅)
  ∧ (∀ e response, getHistoricalTokenPrices addresses response = Js.Throw e →
                   e = Js.TypeError)
  ∧ getHistoricalTokenPrices addresses None = Js.Throw Js.TypeError.
Proof.
  assert (firstTimestamps tokenPrices = [] →
          getHistoricalTokenPrices addresses (Some tokenPrices) = Js.Return ∅) as Hempty.
  { intros Hnil. by rewrite getHistoricalTokenPrices_unfold, Hnil. }
  split_and!; [split | exact Hempty | | done].
  - intros [result Hr]. rewrite getHistoricalTokenPrices_unfold in Hr.
    destruct (firstTimestamps tokenPrices) as [|t ts]; [by left | right].
    cbn [Js.foldC] in Hr. apply bind_Return in Hr as (acc & Hstep & _).
    unfold addHistoricalRow in Hstep. apply bind_Return in Hstep as (row & Hrow & _).
    apply historicalRow_Return in Hrow. intros address Hin.
    apply list_elem_of_lookup in Hin as [i Hi].
    destruct (Forall2_lookup_l _ _ _ _ _ Hrow Hi) as (p & _ & series & Hs & _).
    rewrite <- seriesOf_keyBy. by eexists.
  - intros [Hnil|Hall]; [by eexists; apply Hempty|].
    by apply getHistoricalTokenPrices_returns.
  - intros e [tps|]; [|by intros [= <-]]. unfold getHistoricalTokenPrices.
    apply foldC_addHistoricalRow_Throw.
Qed.

Lemma seriesOf_lower_case tokenPrices address series :
  seriesOf tokenPrices address = Some series →
  series ∈ tokenPrices ∧ htp_address series = Js.toLowerCase address.
Proof.
  unfold seriesOf. intros [l' Hl]%last_Some.
  assert (series ∈ filter (fun s => htp_address s = Js.toLowerCase address) tokenPrices)
    as Hin by (rewrite Hl, elem_of_app, list_elem_of_singleton; by right).
  by apply list_elem_of_filter in Hin as [? ?].
Qed.

(** X20. Only series filed under an all-lower-case address are ever read
    for a requested token. A backend that files every series under an
    address with an upper-case letter in it (a checksum address, say) makes
    every request for at least one token throw, once its first series has
    a price entry. *)
Theorem getHistoricalTokenPrices_reads_lower_case_series addresses tokenPrices :
  (∀ address series,
     seriesOf tokenPrices address = Some series → ¬ mixedCase series)
  ∧ (Forall mixedCase tokenPrices →
     firstTimestamps tokenPrices ≠ [] →
     addresses ≠ [] →
     getHistoricalTokenPrices addresses (Some tokenPrices) = Js.Throw Js.TypeError).
Proof.
  assert (∀ address series,
            seriesOf tokenPrices address = Some series → ¬ mixedCase series) as Hlow.
  { intros address series [_ Hs]%seriesOf_lower_case Hmixed. apply Hmixed.
    by rewrite Hs, toLowerCase_idempotent. }
  split; [exact Hlow|]. intros Hall Hts Haddr.
  destruct addresses as [|a rest]; [done|].
  assert (seriesOf tokenPrices a = None) as Hnone.
  { destruct (seriesOf tokenPrices a) as [series|] eqn:E; [|done]. exfalso.
    apply (Hlow _ _ E). rewrite Forall_forall in Hall. apply Hall.
    by apply seriesOf_lower_case in E as [? _]. }
  rewrite getHistoricalTokenPrices_unfold.
  destruct (firstTimestamps tokenPrices) as [|t ts]; [done|]. cbn [Js.foldC].
  unfold addHistoricalRow at 1.
  rewrite (historicalRow_Throw _ _ _ (Js.toLowerCase a)); [done | |].
  - rewrite fmap_cons. apply list_elem_of_here.
  - by rewrite seriesOf_keyBy.
Qed.
End HistoricalRequests.

Section TokenPriceUpdates.
Import Beethovenx BeethovenxSpec.
Context `{Ethers.Address}.

(** X21. The current prices are read entry by entry: a response with one
    more entry at its end gives the prices of the shorter response, with the
    new entry's price written under its checksum address when its address
    is valid (taking the place of an earlier price of that address), and
    exactly the prices of the shorter response when it is not. *)
Theorem getTokenPrices_one_more_entry tokenPrices tokenPrice :
  ∃ result,
    getTokenPrices (Some tokenPrices) = Js.Return result
    ∧ getTokenPrices (Some (tokenPrices ++ [tokenPrice]))
      = Js.Return
          (match Ethers.getAddress (tp_address tokenPrice) with
           | Some address => <[address := {| usd := tp_price tokenPrice |}]> result
           | None => result
           end)
    ∧ (Ethers.isAddress (tp_address tokenPrice) = false →
       getTokenPrices (Some (tokenPrices ++ [tokenPrice])) = Js.Return result).
Proof.
  unfold getTokenPrices.
  destruct (foldC_addTokenPrice tokenPrices ∅) as (result & Hr & _).
  exists result. rewrite foldC_app, Hr. cbn [Js.bind Js.foldC].
  rewrite addTokenPrice_Return. cbn [Js.bind].
  split_and!; [done | done |].
  unfold Ethers.isAddress. by destruct (Ethers.getAddress (tp_address tokenPrice)).
Qed.
End TokenPriceUpdates.

(** ** The user-pools query: the precision of a share's value *)

Section Precision.
Import BigNumber BigNumberSpec.

(** Whatever the rounding mode, the integer that [n / d] rounds to is within
    one of the quotient. *)
Lemma roundQuotient_within_one rm n d :
  0 < d → n - d < roundQuotient rm n d * d < n + d.
Proof.
  intros Hd. unfold roundQuotient.
  pose proof (Z.div_mod n d ltac:(lia)) as Hdm.
  pose proof (Z.mod_pos_bound n d Hd) as Hm.
  destruct (n mod d =? 0) eqn:E.
  - apply Z.eqb_eq in E. nia.
  - apply Z.eqb_neq in E.
    destruct rm; repeat case_match; nia.
Qed.

Lemma round_within_ulp dp rm (x : Qc) :
  (x - ulp dp < round dp rm x)%Qc ∧ (round dp rm x < x + ulp dp)%Qc.
Proof.
  unfold round, ulp.
  assert (0 < 10 ^ Z.of_nat dp) as Hs by (apply Z.pow_pos_nonneg; lia).
  pose proof (roundQuotient_within_one rm (Qnum x * 10 ^ Z.of_nat dp) (Z.pos (Qden x))
                ltac:(lia)) as Hr.
  set (q := roundQuotient rm _ _) in *. clearbody q.
  set (s := 10 ^ Z.of_nat dp) in *.
  assert (Z.pos (Z.to_pos s) = s) as Hpos by (apply Z2Pos.id; lia).
  unfold Qclt, Qcminus, Qcplus, Qcopp. simpl.
  rewrite !Qred_correct.
  destruct x as [[xn xd] Hx]. simpl in *.
  unfold Qlt, Qplus, Qopp. simpl.
  rewrite !Pos2Z.inj_mul, !Hpos.
  split; nia.
Qed.
End Precision.

Section SharePrecision.
Import Subgraph UserPools BigNumber BigNumberSpec.
Context `{Config}.
Local Open Scope Qc_scope.

(** X22. The value of a pool's share is computed by dividing first and
    multiplying afterwards, so the rounding of the quotient is scaled by the
    balance: for finite amounts, total shares other than zero and a balance
    that is not negative, the share is a number within [balance * 10^-dp] of
    the exact value [totalLiquidity / totalShares * balance], [dp] being the
    decimal places that a division keeps; it is exactly zero for a zero
    balance. *)
Theorem withShares_precision (poolSharesMap : gmap string PoolShare) (p : Pool)
    (liquidity total held : Qc) :
  totalLiquidity p = Finite liquidity →
  totalShares p = Finite total →
  total ≠ 0 →
  balanceOf poolSharesMap (id p) = Finite held →
  0 ≤ held →
  ∃ value,
    shares (withShares poolSharesMap p) = Finite value
    ∧ liquidity / total * held - held * ulp DECIMAL_PLACES ≤ value
    ∧ value ≤ liquidity / total * held + held * ulp DECIMAL_PLACES
    ∧ (held = 0 → value = 0).
Proof.
  intros Hl Ht Hne Hb Hpos. unfold withShares. cbn [shares].
  rewrite Hl, Ht, Hb, (div_finite liquidity total Hne). cbn [times].
  eexists. split; [reflexivity|].
  destruct (round_within_ulp DECIMAL_PLACES ROUNDING_MODE (liquidity / total))
    as [Hlo Hhi].
  apply Qclt_le_weak in Hlo, Hhi.
  split_and!.
  - replace (liquidity / total * held - held * ulp DECIMAL_PLACES)
      with ((liquidity / total - ulp DECIMAL_PLACES) * held) by ring.
    by apply Qcmult_le_compat_r.
  - replace (liquidity / total * held + held * ulp DECIMAL_PLACES)
      with ((liquidity / total + ulp DECIMAL_PLACES) * held) by ring.
    by apply Qcmult_le_compat_r.
  - intros ->. ring.
Qed.
End SharePrecision.

Section SharePrecisionWitness.
Import Subgraph UserPools BigNumber BigNumberSpec Sample.
Local Open Scope Qc_scope.

Lemma withShares_precision_witness :
  ∃ value,
    shares (withShares
              (Lodash.keyBy [share (poolTwo (amount 2 1) (amount 3 1)) (amount 3 1)] poolId)
              (poolTwo (amount 2 1) (amount 3 1)))
    = Finite value
    ∧ value ≤ Q2Qc 2 / Q2Qc 3 * Q2Qc 3 + Q2Qc 3 * ulp 20.
Proof.
  destruct (withShares_precision
              (Lodash.keyBy [share (poolTwo (amount 2 1) (amount 3 1)) (amount 3 1)] poolId)
              (poolTwo (amount 2 1) (amount 3 1))
              (Q2Qc 2) (Q2Qc 3) (Q2Qc 3))
    as (value & Hv & _ & Hhi & _).
  - reflexivity.
  - reflexivity.
  - discriminate.
  - reflexivity.
  - discriminate.
  - exists value. split; [exact Hv | exact Hhi].
Defined.
End SharePrecisionWitness.

(** ** The user-pools query: the order of the share records *)

Lemma keyBy_unique {A} (l : list A) (f : A → string) k x :
  NoDup (f <$> l) → Lodash.keyBy l f !! k = Some x ↔ x ∈ l ∧ f x = k.
Proof.
  intros Hnd. rewrite keyBy_lookup. split.
  - intros [l' Hl]%last_Some.
    assert (x ∈ filter (fun y => f y = k) l) as Hin
      by (rewrite Hl, elem_of_app, list_elem_of_singleton; by right).
    by apply list_elem_of_filter in Hin as [? ?].
  - intros [Hin Hk]. induction l as [|y l IH]; [by apply elem_of_nil in Hin|].
    rewrite fmap_cons in Hnd. apply NoDup_cons in Hnd as [Hy Hnd].
    rewrite filter_cons. apply elem_of_cons in Hin as [<-|Hin].
    + rewrite decide_True by done. rewrite last_cons.
      destruct (last (filter _ l)) as [z|] eqn:Ez; [|done].
      exfalso. apply Hy. apply last_Some in Ez as [l' Hl].
      assert (z ∈ filter (fun y => f y = k) l) as Hz
        by (rewrite Hl, elem_of_app, list_elem_of_singleton; by right).
      apply list_elem_of_filter in Hz as [Hfz Hz].
      apply list_elem_of_fmap. exists z. split; [congruence | done].
    + rewrite decide_False; [by apply IH|].
      intros Hfy. apply Hy. apply list_elem_of_fmap. exists x. split; [congruence | done].
Qed.

Lemma keyBy_Permutation {A} (l l' : list A) (f : A → string) :
  l' ≡ₚ l → NoDup (f <$> l) → Lodash.keyBy l' f = Lodash.keyBy l f.
Proof.
  intros Hp Hnd. apply map_eq. intros k. apply option_eq. intros x.
  rewrite !keyBy_unique; [by rewrite Hp | done | by rewrite Hp].
Qed.

Section ShareRecordOrder.
Import Subgraph UserPools UserPoolsSpec.
Context `{Services} `{Ethers.Address} `{BigNumber.Config}.

(** X23. When the subgraph sends one share record per pool, the order of
    the records is of no account: the query returns the same pools, shares,
    tokens and total, or throws the same error, for any rearrangement of
    them. *)
Theorem queryFn_share_record_order poolShares poolShares' fetched linearFetch :
  poolShares' ≡ₚ poolShares →
  NoDup (poolId <$> poolShares) →
  queryFn poolShares' fetched linearFetch = queryFn poolShares fetched linearFetch.
Proof.
  intros Hp Hnd. unfold queryFn.
  rewrite (keyBy_Permutation _ _ poolId Hp Hnd).
  rewrite (list_fmap_ext (fun pool => bool_decide (id pool ∈ poolId <$> poolShares'))
             (fun pool => bool_decide (id pool ∈ poolId <$> poolShares)) fetched);
    [done|].
  intros _ pool _. apply bool_decide_ext. by rewrite Hp.
Qed.
End ShareRecordOrder.

Section ShareRecordOrderWitness.
Import Subgraph UserPools UserPoolsSpec Sample.

Lemma queryFn_share_record_order_witness :
  queryFn [share (poolTwo (amount 10 1) (amount 3 1)) (amount 3 1);
           share (poolOne (amount 4 1) (amount 2 1)) (amount 1 1)]
    [poolOne (amount 4 1) (amount 2 1); poolTwo (amount 10 1) (amount 3 1)]
    (fun _ => [])
  = queryFn [share (poolOne (amount 4 1) (amount 2 1)) (amount 1 1);
             share (poolTwo (amount 10 1) (amount 3 1)) (amount 3 1)]
      [poolOne (amount 4 1) (amount 2 1); poolTwo (amount 10 1) (amount 3 1)]
      (fun _ => []).
Proof.
  apply queryFn_share_record_order.
  - apply Permutation_swap.
  - apply (bool_decide_unpack _). vm_compute. exact I.
Defined.
End ShareRecordOrderWitness.

(** ** The backend client: the order of the price entries *)

Section TokenPriceOrder.
Import Beethovenx BeethovenxSpec TokenPricesSpec.
Context `{Ethers.Address}.

Lemma elem_of_writtenKeys tokenPrices tokenPrice k :
  tokenPrice ∈ tokenPrices → Ethers.getAddress (tp_address tokenPrice) = Some k →
  k ∈ writtenKeys tokenPrices.
Proof.
  intros Hin Hk. unfold writtenKeys. apply list_elem_of_omap. by exists tokenPrice.
Qed.

Lemma pricedBy_unique tokenPrices k tokenPrice :
  NoDup (writtenKeys tokenPrices) →
  pricedBy tokenPrices k = Some tokenPrice
  ↔ tokenPrice ∈ tokenPrices ∧ Ethers.getAddress (tp_address tokenPrice) = Some k.
Proof.
  intros Hnd. split; [apply pricedBy_Some|].
  intros [Hin Hk]. unfold pricedBy.
  induction tokenPrices as [|y l IH]; [by apply elem_of_nil in Hin|].
  unfold writtenKeys in Hnd. cbn [omap list_omap] in Hnd. fold (writtenKeys l) in Hnd.
  rewrite filter_cons. apply elem_of_cons in Hin as [<-|Hin].
  - rewrite decide_True by done. rewrite last_cons. rewrite Hk in Hnd.
    apply NoDup_cons in Hnd as [Hy _].
    destruct (last (filter _ l)) as [z|] eqn:Ez; [|done].
    exfalso. apply Hy. fold (pricedBy l k) in Ez. apply pricedBy_Some in Ez as [Hz Hkz].
    by eapply elem_of_writtenKeys.
  - destruct (Ethers.getAddress (tp_address y)) as [ky|] eqn:Ey.
    + apply NoDup_cons in Hnd as [Hy Hnd].
      rewrite decide_False; [by apply IH|].
      intros [= ->]. apply Hy. by eapply elem_of_writtenKeys.
    + rewrite decide_False by done. by apply IH.
Qed.

Lemma writtenKeys_Permutation tokenPrices tokenPrices' :
  tokenPrices' ≡ₚ tokenPrices → writtenKeys tokenPrices' ≡ₚ writtenKeys tokenPrices.
Proof. intros Hp. unfold writtenKeys. by rewrite Hp. Qed.

(** X24. When no two entries of the response have the same checksum
    address, the order of the entries is of no account: any rearrangement
    of the response gives the same map of prices. *)
Theorem getTokenPrices_entry_order tokenPrices tokenPrices' :
  tokenPrices' ≡ₚ tokenPrices →
  NoDup (writtenKeys tokenPrices) →
  getTokenPrices (Some tokenPrices') = getTokenPrices (Some tokenPrices).
Proof.
  intros Hp Hnd. unfold getTokenPrices.
  destruct (foldC_addTokenPrice tokenPrices ∅) as (result & -> & Hchar).
  destruct (foldC_addTokenPrice tokenPrices' ∅) as (result' & -> & Hchar').
  f_equal. apply map_eq. intros k. rewrite Hchar, Hchar'.
  replace (pricedBy tokenPrices' k) with (pricedBy tokenPrices k); [done|].
  apply option_eq. intros tp.
  rewrite !pricedBy_unique; [by rewrite Hp | by rewrite writtenKeys_Permutation | done].
Qed.
End TokenPriceOrder.

Section TokenPriceOrderWitness.
Import Beethovenx BeethovenxSpec TokenPricesSpec Sample.

Lemma getTokenPrices_entry_order_witness :
  getTokenPrices
    (Some [ {| tp_address := hex "bb"; tp_price := Q2Qc 2 |};
            {| tp_address := "no address"; tp_price := Q2Qc 3 |};
            {| tp_address := hex "aa"; tp_price := Q2Qc 1 |} ])
  = getTokenPrices
      (Some [ {| tp_address := hex "aa"; tp_price := Q2Qc 1 |};
              {| tp_address := "no address"; tp_price := Q2Qc 3 |};
              {| tp_address := hex "bb"; tp_price := Q2Qc 2 |} ]).
Proof.
  apply getTokenPrices_entry_order.
  - apply (Permutation_rev [ {| tp_address := hex "bb"; tp_price := Q2Qc 2 |};
                             {| tp_address := "no address"; tp_price := Q2Qc 3 |};
                             {| tp_address := hex "aa"; tp_price := Q2Qc 1 |} ]).
  - apply (bool_decide_unpack _). vm_compute. exact I.
Defined.
End TokenPriceOrderWitness.
